(** * Shallow embedding of the abstract-corpus tools

    Embedded from the Python sources:
    - [build_topic_model.py]: [read_stopwords], [get_words_and_documents],
      [build_matrix] and the main script up to the matrix;
    - [build_topic_model_archaic.py]: the same functions in their earlier
      form;
    - [AbstractsFromIDs.py]: [BuildSubset];
    - [importAbstracts.py]: [GetCmdLineParameters] (index part),
      [ProcessNextAbstract] and the main loop;
    - [prepare_pubmed_subset.py]: [build_subset].

    Python [str] values are lists of code points; Python [int]s are [Z];
    exceptions are an explicit result type; files are the lines (or the
    text) a successful [open] yields, or a failure to open, to read or to
    decode. *)

From Stdlib Require Import ZArith Ascii String.
From stdpp Require Import gmap list sorting.

Local Open Scope Z_scope.

(** ** Python values and built-ins *)

Module Py.

(** A Python [str]: the sequence of its code points. *)
Abbreviation pystr := (list N).

(** ASCII literals, for examples. *)
Definition str (s : string) : pystr :=
  (λ a, N_of_ascii a) <$> list_ascii_of_string s.

Definition LF : N := 10.
Definition TAB : N := 9.
Definition SPACE : N := 32.
Definition PERCENT : N := 37.
Definition PLUS : N := 43.
Definition COMMA : N := 44.
Definition HYPHEN : N := 45.
Definition PERIOD : N := 46.
Definition DIGIT0 : N := 48.
Definition DIGIT9 : N := 57.

(** [str(n)] for a natural number: its decimal digits. *)
Fixpoint decimal_aux (fuel : nat) (n : N) (acc : pystr) : pystr :=
  match fuel with
  | O => acc
  | S fuel' =>
      let acc' := (DIGIT0 + n `mod` 10)%N :: acc in
      if (n <? 10)%N then acc' else decimal_aux fuel' (n `div` 10)%N acc'
  end.

Definition decimal (n : N) : pystr :=
  decimal_aux (S (N.to_nat (N.log2 n))) n [].

(** Exceptions the embedded functions can raise; [SystemExit] is [exit(n)]. *)
Inductive exn :=
  | IndexError
  | KeyError
  | ValueError
  | UnboundLocalError
  | UnicodeDecodeError
  | ZeroDivisionError
  | OSError
  | SystemExit (code : Z).

Inductive result (A : Type) :=
  | Ok (a : A)
  | Raise (e : exn).
Arguments Ok {A} a.
Arguments Raise {A} e.

#[global] Instance result_bind : MBind result := λ A B k r,
  match r with
  | Ok a => k a
  | Raise e => Raise e
  end.

(** [str.isspace] on one code point (CPython's whitespace table). *)
Definition isspace (c : N) : bool :=
  ((9 <=? c) && (c <=? 13) || (28 <=? c) && (c <=? 32)
   || (c =? 133) || (c =? 160) || (c =? 5760)
   || (8192 <=? c) && (c <=? 8202)
   || (c =? 8232) || (c =? 8233) || (c =? 8239) || (c =? 8287)
   || (c =? 12288))%N.

Fixpoint lstrip (s : pystr) : pystr :=
  match s with
  | [] => []
  | c :: s' => if isspace c then lstrip s' else s
  end.

Definition rstrip (s : pystr) : pystr := reverse (lstrip (reverse s)).

(** [s.strip()] *)
Definition strip (s : pystr) : pystr := rstrip (lstrip s).

(** [s.split(sep)] for a one-character separator: every occurrence of
    [sep] ends a field, so the result is never empty and adjacent
    separators yield empty fields. *)
Fixpoint split_on (sep : N) (s : pystr) : list pystr :=
  match s with
  | [] => [[]]
  | c :: s' =>
      if (c =? sep)%N then [] :: split_on sep s'
      else match split_on sep s' with
           | [] => [[c]]
           | f :: fs => (c :: f) :: fs
           end
  end.

(** [s.split()]: fields are the maximal runs of non-whitespace. *)
Fixpoint split_ws_aux (cur : pystr) (s : pystr) : list pystr :=
  match s with
  | [] => match cur with [] => [] | _ => [reverse cur] end
  | c :: s' =>
      if isspace c
      then match cur with
           | [] => split_ws_aux [] s'
           | _ => reverse cur :: split_ws_aux [] s'
           end
      else split_ws_aux (c :: cur) s'
  end.

Definition split_ws (s : pystr) : list pystr := split_ws_aux [] s.

(** [sep.join(fields)] *)
Fixpoint join (sep : pystr) (fields : list pystr) : pystr :=
  match fields with
  | [] => []
  | [f] => f
  | f :: fs => f ++ sep ++ join sep fs
  end.

(** [s.startswith(p)] *)
Fixpoint startswith (p s : pystr) : bool :=
  match p, s with
  | [], _ => true
  | _ :: _, [] => false
  | a :: p', b :: s' => (a =? b)%N && startswith p' s'
  end.

(** [sub in s] *)
Fixpoint contains (sub s : pystr) : bool :=
  startswith sub s ||
  match s with
  | [] => false
  | _ :: s' => contains sub s'
  end.

(** [s <= t] on [str]: lexicographic on code points. *)
Fixpoint pystr_leb (s t : pystr) : bool :=
  match s, t with
  | [], _ => true
  | _ :: _, [] => false
  | a :: s', b :: t' =>
      if (a <? b)%N then true
      else if (b <? a)%N then false
      else pystr_leb s' t'
  end.

Definition pystr_le (s t : pystr) : Prop := pystr_leb s t.

(** [sorted(xs)] on strings. *)
Definition sorted (xs : list pystr) : list pystr := merge_sort pystr_le xs.

(** [sorted(xs, key=...)] on items already paired with their keys: an
    insertion sort that keeps items with equal keys in their order. *)
Fixpoint insert_by {K A} (leb : K → K → bool) (x : K * A) (l : list (K * A))
  : list (K * A) :=
  match l with
  | [] => [x]
  | y :: l' => if leb x.1 y.1 then x :: l else y :: insert_by leb x l'
  end.

Definition sort_keyed {K A} (leb : K → K → bool) (l : list (K * A))
  : list (K * A) :=
  foldr (insert_by leb) [] l.

(** [s.lstrip(chars)] *)
Fixpoint lstrip_chars (chars s : pystr) : pystr :=
  match s with
  | [] => []
  | c :: s' => if bool_decide (c ∈ chars) then lstrip_chars chars s' else s
  end.

(** A compiled pattern made of single-character pieces, each either
    required or optional, tried with backtracking; [rx_match] is
    [pattern.match(s)]: anchored at the start of [s] only. *)
Inductive rx_piece :=
  | One (p : N → bool)
  | Opt (p : N → bool).

Fixpoint rx_match (r : list rx_piece) (s : pystr) : bool :=
  match r with
  | [] => true
  | One p :: r' =>
      match s with
      | c :: s' => p c && rx_match r' s'
      | [] => false
      end
  | Opt p :: r' =>
      match s with
      | c :: s' => (p c && rx_match r' s') || rx_match r' s
      | [] => rx_match r' s
      end
  end.

(** The iteration order of a [set] of strings depends on the string hash,
    which is seeded per run.  A [hash_order] is one run's enumeration of
    the elements of every set. *)
Record hash_order := {
  enum : list pystr → list pystr;
  enum_perm : ∀ l, enum l ≡ₚ l
}.

(** Two hash orders: the order of insertion, and its reverse. *)
Definition insertion_order : hash_order :=
  {| enum := id; enum_perm := λ l, reflexivity l |}.

Definition reversed_order : hash_order :=
  {| enum := reverse; enum_perm := reverse_Permutation |}.

End Py.

Export Py.

(** ** [build_topic_model.py]: the indexing pass *)

Module Indexer.

(** A read that fails on a file that has been opened: the bytes read are
    not UTF-8 ([UnicodeDecodeError], a [ValueError]), or the device fails
    ([OSError]). *)
Inductive fault :=
  | DecodeFault
  | ReadFault.

(** An entry of [PathList]: what opening and iterating the file yields.
    Either [open] fails, or the iteration yields the lines [ls] and then
    ends ([e] is [None]) or fails in the read for the line after them. *)
Inductive file :=
  | Unreadable
  | Opened (ls : list pystr) (e : option fault).

(** A file that can be read to its end. *)
Abbreviation Lines ls := (Opened ls None).

(** [rxNum = re.compile("[\+\-]?[0-9\.\,]\%?")] *)
Definition is_sign (c : N) : bool := ((c =? PLUS) || (c =? HYPHEN))%N.
Definition is_num_char (c : N) : bool :=
  ((DIGIT0 <=? c) && (c <=? DIGIT9) || (c =? PERIOD) || (c =? COMMA))%N.
Definition is_percent (c : N) : bool := (c =? PERCENT)%N.
Definition rxNum : list rx_piece := [Opt is_sign; One is_num_char; Opt is_percent].

(** The condition of the [if] in the token loop; [Ok true] when the token
    is to be removed.  [sToken[0]] raises on the empty string. *)
Definition rejected (iMinWordLength : Z) (sToken : pystr) : result bool :=
  if contains [HYPHEN; HYPHEN] sToken then Ok true
  else match sToken with
       | [] => Raise IndexError
       | c :: _ =>
           Ok ((c =? HYPHEN)%N
               || rx_match rxNum sToken
               || (Z.of_nat (length sToken) <? iMinWordLength))
       end.

Section with_hash_order.
Context (o : hash_order).

(** Sets of strings, each held as the enumeration of its elements. *)
Definition set_of (l : list pystr) : list pystr := enum o (remove_dups l).
Definition set_difference (X Y : list pystr) : list pystr :=
  enum o (filter (λ x, x ∉ Y) X).
Definition set_remove (x : pystr) (X : list pystr) : list pystr :=
  enum o (filter (λ y, y ≠ x) X).
Definition set_union (X Y : list pystr) : list pystr :=
  enum o (remove_dups (X ++ Y)).

(** [for sToken in sorted(NewWords): if ...: NewWords.remove(sToken)] *)
Fixpoint filter_tokens (iMinWordLength : Z) (todo NewWords : list pystr)
  : result (list pystr) :=
  match todo with
  | [] => Ok NewWords
  | sToken :: todo' =>
      b ← rejected iMinWordLength sToken;
      filter_tokens iMinWordLength todo'
        (if b : bool then set_remove sToken NewWords else NewWords)
  end.

(** The body of the inner loop, for one line within the cap. *)
Definition process_line (iMinWordLength : Z) (StopWords : list pystr)
    (sAbstract : pystr) (Words Docs : list pystr)
  : result (list pystr * list pystr) :=
  match split_on SPACE (strip sAbstract) with
  | [] => Raise IndexError
  | sID :: Tokens =>
      let NewWords := set_difference (set_of Tokens) StopWords in
      NewWords' ← filter_tokens iMinWordLength (sorted NewWords) NewWords;
      Ok (set_union Words NewWords', Docs ++ [sID])
  end.

(** [for iAbstract, sAbstract in enumerate(strFile, start=...)]: returns
    the sets and the binding of [iAbstract] when the loop is left.  [ls]
    are the lines the file yields and [e] the fault of the read after
    them, if it fails: the handler around the [with] block turns an
    [OSError] into [exit(1)] and lets a [UnicodeDecodeError] pass. *)
Fixpoint read_lines (iMaxAbstracts iMinWordLength : Z) (StopWords : list pystr)
    (ls : list pystr) (e : option fault) (i : Z) (iAbstract : option Z)
    (Words Docs : list pystr)
  : result (list pystr * list pystr * option Z) :=
  match ls with
  | [] =>
      match e with
      | None => Ok (Words, Docs, iAbstract)
      | Some DecodeFault => Raise UnicodeDecodeError
      | Some ReadFault => Raise (SystemExit 1)
      end
  | sAbstract :: ls' =>
      if i >? iMaxAbstracts then Ok (Words, Docs, Some i)
      else
        '(Words', Docs') ← process_line iMinWordLength StopWords sAbstract Words Docs;
        read_lines iMaxAbstracts iMinWordLength StopWords ls' e (i + 1) (Some i)
          Words' Docs'
  end.

(** [for iFile, sFileName in enumerate(PathList, start=1)] *)
Fixpoint read_files (iMaxAbstracts iMinWordLength : Z) (StopWords : list pystr)
    (PathList : list file) (iAbstractsPreviousFiles : Z) (iAbstract : option Z)
    (Words Docs : list pystr)
  : result (list pystr * list pystr) :=
  match PathList with
  | [] => Ok (Words, Docs)
  | f :: rest =>
      if iAbstractsPreviousFiles >? iMaxAbstracts then Ok (Words, Docs)
      else match f with
           | Unreadable => Raise (SystemExit 1)
           | Opened ls e =>
               '(Words', Docs', iAbstract') ←
                 read_lines iMaxAbstracts iMinWordLength StopWords ls e
                   iAbstractsPreviousFiles iAbstract Words Docs;
               match iAbstract' with
               | None => Raise UnboundLocalError
               | Some a =>
                   read_files iMaxAbstracts iMinWordLength StopWords rest
                     a iAbstract' Words' Docs'
               end
           end
  end.

Definition get_words_and_documents (PathList : list file)
    (iMaxAbstracts iMinWordLength : Z) (StopWords : list pystr)
  : result (list pystr * list pystr) :=
  '(Words, Docs) ←
    read_files iMaxAbstracts iMinWordLength StopWords PathList 0 None [] [];
  Ok (sorted Words, Docs).

End with_hash_order.

End Indexer.

(** ** [build_topic_model.py]: the counting pass *)

Module MatrixBuilder.
Import Indexer.

(** [scipy.sparse.lil_matrix((rows, cols), dtype=int)]: the stored cells;
    a cell that is not stored reads as 0. *)
Record lil_matrix := {
  shape : nat * nat;
  cells : gmap (nat * nat) Z
}.

Definition lil_zeros (rows cols : nat) : lil_matrix :=
  {| shape := (rows, cols); cells := ∅ |}.

Definition lil_get (M : lil_matrix) (r c : nat) : Z :=
  default 0 (cells M !! (r, c)).

(** [M[r, c] = v] *)
Definition lil_set (M : lil_matrix) (r c : nat) (v : Z) : result lil_matrix :=
  if decide (r < (shape M).1 ∧ c < (shape M).2)%nat
  then Ok {| shape := shape M; cells := <[(r, c) := v]> (cells M) |}
  else Raise IndexError.

(** [{k: i for i, k in enumerate(keys)}]: a later occurrence of a key
    overwrites the index stored for it. *)
Fixpoint enumerate_dict (i : nat) (keys : list pystr) (d : gmap pystr nat)
  : gmap pystr nat :=
  match keys with
  | [] => d
  | k :: keys' => enumerate_dict (S i) keys' (<[k := i]> d)
  end.

(** [d[k]] *)
Definition getitem (d : gmap pystr nat) (k : pystr) : result nat :=
  match d !! k with
  | Some v => Ok v
  | None => Raise KeyError
  end.

(** [collections.Counter(tokens)]: keys in order of first occurrence. *)
Fixpoint counter_add (k : pystr) (c : list (pystr * Z)) : list (pystr * Z) :=
  match c with
  | [] => [(k, 1)]
  | (k', n) :: c' =>
      if decide (k = k') then (k', n + 1) :: c'
      else (k', n) :: counter_add k c'
  end.

Definition Counter (tokens : list pystr) : list (pystr * Z) :=
  foldl (λ c k, counter_add k c) [] tokens.

(** [for sWordType in WordCounts: matrixWordDoc[...] = WordCounts[sWordType]] *)
Fixpoint write_counts (WordIndex DocIndex : gmap pystr nat)
    (TokensInAbstract : list pystr) (WordCounts : list (pystr * Z))
    (M : lil_matrix) : result lil_matrix :=
  match WordCounts with
  | [] => Ok M
  | (sWordType, n) :: rest =>
      r ← getitem WordIndex sWordType;
      sID ← match TokensInAbstract with
            | [] => Raise IndexError
            | sID :: _ => Ok sID
            end;
      c ← getitem DocIndex sID;
      M' ← lil_set M r c n;
      write_counts WordIndex DocIndex TokensInAbstract rest M'
  end.

(** The body of the inner loop, for one line within the cap. *)
Definition fill_line (WordIndex DocIndex : gmap pystr nat) (sAbstract : pystr)
    (M : lil_matrix) : result lil_matrix :=
  let TokensInAbstract := split_on SPACE (strip sAbstract) in
  let WordCounts :=
    Counter (filter (λ t, is_Some (WordIndex !! t)) (tail TokensInAbstract)) in
  write_counts WordIndex DocIndex TokensInAbstract WordCounts M.

(** The inner loop; no handler stands around it, so that a failing read
    raises its own exception. *)
Fixpoint fill_lines (iMaxAbstracts : Z) (WordIndex DocIndex : gmap pystr nat)
    (ls : list pystr) (e : option fault) (i : Z) (iAbstract : option Z)
    (M : lil_matrix) : result (lil_matrix * option Z) :=
  match ls with
  | [] =>
      match e with
      | None => Ok (M, iAbstract)
      | Some DecodeFault => Raise UnicodeDecodeError
      | Some ReadFault => Raise OSError
      end
  | sAbstract :: ls' =>
      if i >? iMaxAbstracts then Ok (M, Some i)
      else
        M' ← fill_line WordIndex DocIndex sAbstract M;
        fill_lines iMaxAbstracts WordIndex DocIndex ls' e (i + 1) (Some i) M'
  end.

(** The outer loop; unlike the indexing pass it has no test of its own on
    the counter and no handler around [open]. *)
Fixpoint fill_files (iMaxAbstracts : Z) (WordIndex DocIndex : gmap pystr nat)
    (PathList : list file) (iAbstractsPreviousFiles : Z) (iAbstract : option Z)
    (M : lil_matrix) : result lil_matrix :=
  match PathList with
  | [] => Ok M
  | Unreadable :: _ => Raise OSError
  | Opened ls e :: rest =>
      '(M', iAbstract') ←
        fill_lines iMaxAbstracts WordIndex DocIndex ls e
          iAbstractsPreviousFiles iAbstract M;
      match iAbstract' with
      | None => Raise UnboundLocalError
      | Some a =>
          fill_files iMaxAbstracts WordIndex DocIndex rest a iAbstract' M'
      end
  end.

Definition build_matrix (PathList : list file) (WordsInCorpus Docs : list pystr)
    (iMaxAbstracts : Z) : result lil_matrix :=
  let DocIndex := enumerate_dict 0 Docs ∅ in
  let WordIndex := enumerate_dict 0 WordsInCorpus ∅ in
  fill_files iMaxAbstracts WordIndex DocIndex PathList 0 None
    (lil_zeros (length WordsInCorpus) (length Docs)).

Definition Zsum (l : list Z) : Z := foldr Z.add 0 l.

Definition row_sum (M : lil_matrix) (r : nat) : Z :=
  Zsum ((λ c, lil_get M r c) <$> seq 0 (shape M).2).

Definition col_sum (M : lil_matrix) (c : nat) : Z :=
  Zsum ((λ r, lil_get M r c) <$> seq 0 (shape M).1).

End MatrixBuilder.

(** ** Built-ins that depend on the Unicode tables

    [str.lower], [int(str)] and [regex.findall(r"[\w-]+", ...)] are taken
    as an interface; [ascii_builtins] is the instance used in examples. *)

Class Builtins := {
  py_lower : pystr → pystr;
  py_int : pystr → option Z;
  findall_words : pystr → list pystr
}.

Module Ascii_builtins.

Definition lower_char (c : N) : N :=
  if ((65 <=? c) && (c <=? 90))%N then (c + 32)%N else c.

Definition is_digit (c : N) : bool := ((DIGIT0 <=? c) && (c <=? DIGIT9))%N.

Fixpoint digits_value (acc : Z) (s : pystr) : option Z :=
  match s with
  | [] => Some acc
  | c :: s' =>
      if is_digit c then digits_value (10 * acc + Z.of_N (c - DIGIT0)) s'
      else None
  end.

(** Decimal literals: surrounding whitespace, an optional sign, digits. *)
Definition int_of (s : pystr) : option Z :=
  match strip s with
  | [] => None
  | c :: s' =>
      if (c =? HYPHEN)%N then
        match s' with [] => None | _ => Z.opp <$> digits_value 0 s' end
      else if (c =? PLUS)%N then
        match s' with [] => None | _ => digits_value 0 s' end
      else digits_value 0 (c :: s')
  end.

Definition is_word_char (c : N) : bool :=
  (is_digit c || (97 <=? c) && (c <=? 122) || (65 <=? c) && (c <=? 90)
   || (c =? 95) || (c =? HYPHEN))%N.

Fixpoint words_aux (cur : pystr) (s : pystr) : list pystr :=
  match s with
  | [] => match cur with [] => [] | _ => [reverse cur] end
  | c :: s' =>
      if is_word_char c then words_aux (c :: cur) s'
      else match cur with
           | [] => words_aux [] s'
           | _ => reverse cur :: words_aux [] s'
           end
  end.

End Ascii_builtins.

Definition ascii_builtins : Builtins := {|
  py_lower := fmap Ascii_builtins.lower_char;
  py_int := Ascii_builtins.int_of;
  findall_words := Ascii_builtins.words_aux []
|}.

(** ** [AbstractsFromIDs.py] *)

Module Assembler.

(** What [open(path)] followed by [read()] does for a path. *)
Inductive fs_entry :=
  | Missing
  | OpenFails
  | ReadFails
  | Text (s : pystr).

(** Messages written to [strErr]. *)
Inductive err_msg :=
  | ListingFailure (sPubMedDir : pystr)
  | Stopping (iRow : Z)
  | ReadFailure (sTxtFName : pystr)
  | EmptyFile (sTxtFName : pystr)
  | NotFound (sPubMedID : pystr).

(** [strOut] holds the lines ['{:08d} {}\n'.format(id, text)] as pairs. *)
Record streams := {
  strOut : list (Z * pystr);
  strErr : list err_msg
}.

Definition write_err (m : err_msg) (st : streams) : streams :=
  {| strOut := strOut st; strErr := strErr st ++ [m] |}.

Definition write_out (l : Z * pystr) (st : streams) : streams :=
  {| strOut := strOut st ++ [l]; strErr := strErr st |}.

(** [if s.startswith('pmid'): s = s[4:]] *)
Definition strip_tag (s : pystr) : pystr :=
  if startswith (str "pmid") s then drop 4 s else s.

(** [while len(sSubDir) < 4: sSubDir = '0' + sSubDir] *)
Fixpoint pad_subdir (fuel : nat) (sSubDir : pystr) : pystr :=
  match fuel with
  | O => sSubDir
  | S fuel' =>
      if (length sSubDir <? 4)%nat then pad_subdir fuel' (DIGIT0 :: sSubDir)
      else sSubDir
  end.

(** [sPubMedID[0:-4]], padded. *)
Definition subdir_of (sPubMedID : pystr) : pystr :=
  pad_subdir 4 (take (length sPubMedID - 4) sPubMedID).

Definition txt_name (sPubMedDir sPubMedID : pystr) : pystr :=
  sPubMedDir ++ subdir_of sPubMedID ++ str "/PMID" ++ sPubMedID ++ str ".txt".

Section with_builtins.
Context `{Builtins}.
Context (fs : pystr → fs_entry) (sPubMedDir : pystr) (iMaxAbstracts : Z).

(** [for (iRow, PubMedID) in DataFrame.itertuples()]; the second
    component is [None] on normal return and the exception otherwise. *)
Fixpoint BuildSubset_rows (rows : list pystr) (iRow : Z) (st : streams)
  : streams * option exn :=
  match rows with
  | [] => (st, None)
  | PubMedID :: rest =>
      if iRow >=? iMaxAbstracts then (write_err (Stopping iRow) st, None)
      else
        let sPubMedID := strip_tag (py_lower PubMedID) in
        let sTxtFName := txt_name sPubMedDir sPubMedID in
        match fs sTxtFName with
        | Missing =>
            BuildSubset_rows rest (iRow + 1) (write_err (NotFound sPubMedID) st)
        | OpenFails => (st, Some OSError)
        | ReadFails =>
            (write_err (ReadFailure sTxtFName) st, Some (SystemExit 1))
        | Text s =>
            match strip (py_lower s) with
            | [] =>
                BuildSubset_rows rest (iRow + 1)
                  (write_err (EmptyFile sTxtFName) st)
            | sData =>
                match py_int sPubMedID with
                | None => (st, Some ValueError)
                | Some n =>
                    BuildSubset_rows rest (iRow + 1)
                      (write_out (n, join [SPACE] (findall_words sData)) st)
                end
            end
        end
  end.

(** [root_listable]: whether globbing the root directory succeeds. *)
Definition BuildSubset (root_listable : bool) (DataFrame : list pystr)
    (st : streams) : streams * option exn :=
  if root_listable then BuildSubset_rows DataFrame 0 st
  else (write_err (ListingFailure sPubMedDir) st, Some (SystemExit 1)).

End with_builtins.

End Assembler.

(** ** [importAbstracts.py] *)

Module Importer.

(** The open streams: the unread lines of [strIn], and what has been
    written to [strOut] (["%i %s\n"] as pairs), to [strIndex]
    (["%i\t%s\t%s\n"] as triples of ID, authors, title) and to [stderr]
    (authors, title, text of each incomplete abstract). *)
Record streams := {
  strIn : list pystr;
  strOut : list (Z * pystr);
  strIndex : list (Z * pystr * pystr);
  stderr : list (pystr * pystr * pystr)
}.

(** [strIn.readline()]: the empty string at end of file. *)
Definition readline (st : streams) : pystr * streams :=
  match strIn st with
  | [] => ([], st)
  | l :: rest =>
      (l, {| strIn := rest; strOut := strOut st; strIndex := strIndex st;
             stderr := stderr st |})
  end.

(** [while not sTitle: ...], entered with the stripped [sTitle]; [None]
    is the [return None] inside the loop. *)
Fixpoint skip_empty_lines (sTitle : pystr) (unread : list pystr)
  : option (pystr * list pystr) :=
  match sTitle with
  | _ :: _ => Some (sTitle, unread)
  | [] =>
      match unread with
      | [] => None
      | [] :: _ => None
      | l :: rest => skip_empty_lines (strip l) rest
      end
  end.

Section with_builtins.
Context `{Builtins}.

(** The index part of [GetCmdLineParameters]: [index_file] is [None] when
    the path does not exist, else the lines of the file. *)
Definition initial_id (index_file : option (list pystr)) : result Z :=
  match index_file with
  | None => Ok 1
  | Some lines =>
      let sLine := default (str "0") (last lines) in
      match split_on TAB sLine with
      | [] => Raise IndexError
      | field :: _ =>
          match py_int field with
          | Some n => Ok (n + 1)
          | None => Raise ValueError
          end
      end
  end.

End with_builtins.

Definition set_unread (unread : list pystr) (st : streams) : streams :=
  {| strIn := unread; strOut := strOut st; strIndex := strIndex st;
     stderr := stderr st |}.

(** Returns the next ID, or [None] at end of file. *)
Definition ProcessNextAbstract (st : streams) (iID : Z) : option Z * streams :=
  let '(sTitle, st1) := readline st in
  match sTitle with
  | [] => (None, st1)
  | _ =>
      match skip_empty_lines (strip sTitle) (strIn st1) with
      | None => (None, set_unread [] st1)
      | Some (sTitle, unread) =>
          let '(sAuthors, st2) := readline (set_unread unread st1) in
          let sAuthors := strip sAuthors in
          let '(sText, st3) := readline st2 in
          let sText := strip sText in
          match sTitle, sAuthors, sText with
          | _ :: _, _ :: _, _ :: _ =>
              (Some (iID + 1),
               {| strIn := strIn st3;
                  strOut := strOut st3 ++ [(iID, join [SPACE] (split_ws sText))];
                  strIndex := strIndex st3 ++ [(iID, sAuthors, sTitle)];
                  stderr := stderr st3 |})
          | _, _, _ =>
              (Some iID,
               {| strIn := strIn st3; strOut := strOut st3;
                  strIndex := strIndex st3;
                  stderr := stderr st3 ++ [(sAuthors, sTitle, sText)] |})
          end
      end
  end.

(** [while iNewID: iNewID = ProcessNextAbstract(...)]; [None] only when
    [fuel] runs out. *)
Fixpoint main_loop (fuel : nat) (iNewID : option Z) (st : streams)
  : option streams :=
  match iNewID with
  | None => Some st
  | Some 0 => Some st
  | Some iID =>
      match fuel with
      | O => None
      | S fuel' =>
          let '(iNewID', st') := ProcessNextAbstract st iID in
          main_loop fuel' iNewID' st'
      end
  end.

(** The main program from the first ID on. *)
Definition main (input : list pystr) (iID : Z) : option streams :=
  let st := {| strIn := input; strOut := []; strIndex := []; stderr := [] |} in
  let '(iNewID, st') := ProcessNextAbstract st iID in
  main_loop (length input) iNewID st'.

End Importer.

(** ** [prepare_pubmed_subset.py] *)

Module Sampler.

Definition iUpdateInterval : Z := 1000.

Inductive file_data :=
  | Unreadable
  | Text (s : pystr).

(** A [*.txt] entry of a subdirectory: its name without the suffix, and
    what opening and reading it yields. *)
Record txt_file := {
  stem : pystr;
  data : file_data
}.

(** A subdirectory of the root; [txt_files] is [None] when globbing it
    fails, else the entries in the order the file system returns them. *)
Record subdir := {
  name : pystr;
  txt_files : option (list txt_file)
}.

Inductive err_msg :=
  | RootListingFailure
  | ListingFailure (sSubdir : pystr)
  | Progress (iNthDir iSubdirs iFilesInAll iProcessed : Z)
  | EmptyFile (sTxtFName : pystr)
  | ProcessingFailure (sTxtFName : pystr)
  | EndOfProgress.

Record state := {
  iFilesInAll : Z;
  iProcessed : Z;
  strOut : list (Z * pystr);
  stderr : list err_msg
}.

Definition write_err (m : err_msg) (st : state) : state :=
  {| iFilesInAll := iFilesInAll st; iProcessed := iProcessed st;
     strOut := strOut st; stderr := stderr st ++ [m] |}.

(** [range(n)] *)
Definition range (n : Z) : list Z := Z.of_nat <$> seq 0 (Z.to_nat n).

(** [[iNth * iDenominator // iNumerator for iNth in range(iNumerator)]] *)
Definition intervals (iNumerator iDenominator : Z) : list Z :=
  (λ iNth, (iNth * iDenominator) `div` iNumerator) <$> range iNumerator.

(** [sorted(paths)] on the subdirectories of one root. *)
Definition sort_subdirs (dirs : list subdir) : list subdir :=
  snd <$> sort_keyed pystr_leb ((λ d, (name d, d)) <$> dirs).

Section with_builtins.
Context `{Builtins}.

(** [int(x.stem.lstrip('PMID'))] *)
Definition file_key (f : txt_file) : option Z :=
  py_int (lstrip_chars (str "PMID") (stem f)).

(** [sorted(files, key=...)]; [None] when a key raises. *)
Definition sort_files (files : list txt_file) : option (list txt_file) :=
  keyed ← mapM (λ f, k ← file_key f; Some (k, f)) files;
  Some (snd <$> sort_keyed Z.leb keyed).

(** [for iNthFileInDir, sTxtFName in enumerate(Files)] *)
Fixpoint scan_files (Intervals : list Z) (iDenominator iNthDir iSubdirs : Z)
    (Files : list txt_file) (st : state) : state * option exn :=
  match Files with
  | [] => (st, None)
  | sTxtFName :: rest =>
      let n := iFilesInAll st + 1 in
      let st1 :=
        {| iFilesInAll := n; iProcessed := iProcessed st; strOut := strOut st;
           stderr :=
             if n `mod` iUpdateInterval =? 0
             then stderr st ++ [Progress iNthDir iSubdirs n (iProcessed st)]
             else stderr st |} in
      if iDenominator =? 0 then (st1, Some ZeroDivisionError)
      else if negb (bool_decide (n `mod` iDenominator ∈ Intervals))
      then scan_files Intervals iDenominator iNthDir iSubdirs rest st1
      else
        let st2 :=
          {| iFilesInAll := n; iProcessed := iProcessed st1 + 1;
             strOut := strOut st1; stderr := stderr st1 |} in
        match data sTxtFName with
        | Unreadable =>
            (write_err (ProcessingFailure (stem sTxtFName)) st2,
             Some (SystemExit 1))
        | Text s =>
            match strip (py_lower s) with
            | [] =>
                scan_files Intervals iDenominator iNthDir iSubdirs rest
                  (write_err (EmptyFile (stem sTxtFName)) st2)
            | sData =>
                match file_key sTxtFName with
                | None =>
                    (write_err (ProcessingFailure (stem sTxtFName)) st2,
                     Some (SystemExit 1))
                | Some id =>
                    scan_files Intervals iDenominator iNthDir iSubdirs rest
                      {| iFilesInAll := n; iProcessed := iProcessed st2;
                         strOut :=
                           strOut st2 ++ [(id, join [SPACE] (findall_words sData))];
                         stderr := stderr st2 |}
                end
            end
        end
  end.

(** [for iNthDir, sSubdir in enumerate(SubDirs, start=1)] *)
Fixpoint scan_dirs (Intervals : list Z) (iDenominator iSubdirs : Z)
    (SubDirs : list subdir) (iNthDir : Z) (st : state) : state * option exn :=
  match SubDirs with
  | [] => (st, None)
  | sSubdir :: rest =>
      match txt_files sSubdir ≫= sort_files with
      | None => (write_err (ListingFailure (name sSubdir)) st, Some (SystemExit 1))
      | Some Files =>
          match scan_files Intervals iDenominator iNthDir iSubdirs Files st with
          | (st', None) =>
              scan_dirs Intervals iDenominator iSubdirs rest (iNthDir + 1) st'
          | raised => raised
          end
      end
  end.

(** [root] is [None] when globbing the root directory fails. *)
Definition build_subset (root : option (list subdir))
    (iNumerator iDenominator : Z) : state * option exn :=
  let Intervals := intervals iNumerator iDenominator in
  let st := {| iFilesInAll := 0; iProcessed := 0; strOut := []; stderr := [] |} in
  match root with
  | None => (write_err RootListingFailure st, Some (SystemExit 1))
  | Some dirs =>
      let SubDirs := sort_subdirs dirs in
      match scan_dirs Intervals iDenominator (Z.of_nat (length SubDirs))
              SubDirs 1 st with
      | (st', None) => (write_err EndOfProgress st', None)
      | raised => raised
      end
  end.

End with_builtins.

End Sampler.

(** * Vocabulary of the properties *)

(** Two outcomes agree when they raise the same exception or return
    related values. *)
Definition agree {A} (R : A → A → Prop) (r1 r2 : result A) : Prop :=
  match r1, r2 with
  | Ok a1, Ok a2 => R a1 a2
  | Raise e1, Raise e2 => e1 = e2
  | _, _ => False
  end.

Definition same_sets (s1 s2 : list pystr * list pystr) : Prop :=
  s1.1 ≡ₚ s2.1 ∧ s1.2 = s2.2.

(** A string has a field when some character of it is not whitespace. *)
Definition has_field (s : pystr) : Prop := ∃ c, c ∈ s ∧ isspace c = false.

(** ** The lines the counter lets through *)

Module Corpus.
Import Indexer.

(** The lines of one file that are processed when its first line has
    index [i]. *)
Fixpoint visited_lines (cap : Z) (ls : list pystr) (i : Z) : list pystr :=
  match ls with
  | [] => []
  | s :: ls' => if i >? cap then [] else s :: visited_lines cap ls' (i + 1)
  end.

(** The binding of [iAbstract] after the loop over one file. *)
Fixpoint last_index (cap : Z) (ls : list pystr) (i : Z) (iAbstract : option Z)
  : option Z :=
  match ls with
  | [] => iAbstract
  | _ :: ls' => if i >? cap then Some i else last_index cap ls' (i + 1) (Some i)
  end.

(** The index at which the loop over one file is left by [break], if it
    is. *)
Fixpoint break_index (cap : Z) (ls : list pystr) (i : Z) : option Z :=
  match ls with
  | [] => None
  | _ :: ls' => if i >? cap then Some i else break_index cap ls' (i + 1)
  end.

(** The lines processed from a list of files, in order: a file whose
    iteration fails is read to its end only if the loop is left before. *)
Fixpoint visited (cap : Z) (files : list file) (prev : Z) (iAbstract : option Z)
  : list pystr :=
  match files with
  | [] => []
  | f :: rest =>
      if prev >? cap then []
      else match f with
           | Unreadable => []
           | Opened ls e =>
               visited_lines cap ls prev ++
               match match e with
                     | None => last_index cap ls prev iAbstract
                     | Some _ => break_index cap ls prev
                     end with
               | None => []
               | Some a => visited cap rest a (Some a)
               end
           end
  end.

Definition processed_lines (files : list file) (cap : Z) : list pystr :=
  visited cap files 0 None.

(** The fields of a line: its document ID and its candidate tokens. *)
Definition doc_id (s : pystr) : pystr :=
  default [] (head (split_on SPACE (strip s))).

Definition doc_tokens (s : pystr) : list pystr :=
  tail (split_on SPACE (strip s)).

Definition candidate_tokens (lines : list pystr) : list pystr :=
  lines ≫= doc_tokens.

(** The filter as the code applies it to a token that is not a stopword. *)
Definition code_rejects (m : Z) (t : pystr) : bool :=
  contains [HYPHEN; HYPHEN] t
  || startswith [HYPHEN] t
  || rx_match rxNum t
  || (Z.of_nat (length t) <? m).

(** The numeric pattern in the specification's words: an optional sign,
    digits, periods and commas, an optional trailing percent sign, and
    nothing else. *)
Definition spec_numeric (t : pystr) : bool :=
  let unsigned :=
    match t with
    | c :: r => if is_sign c then r else t
    | [] => t
    end in
  let body :=
    match reverse unsigned with
    | c :: r => if is_percent c then reverse r else unsigned
    | [] => unsigned
    end in
  negb (bool_decide (body = [])) && forallb is_num_char body.

(** The five filters in the specification's words. *)
Definition spec_accepts (m : Z) (stop : list pystr) (t : pystr) : bool :=
  bool_decide (t ∉ stop)
  && negb (contains [HYPHEN; HYPHEN] t)
  && negb (startswith [HYPHEN] t)
  && negb (spec_numeric t)
  && (m <=? Z.of_nat (length t)).

Definition spec_vocabulary (m : Z) (stop : list pystr) (tokens : list pystr)
  : list pystr :=
  sorted (remove_dups (filter (λ t, spec_accepts m stop t = true) tokens)).

End Corpus.

Section indexing_vocabulary.
Import Indexer Corpus.

(** A token is kept when it is no stopword and the filter does not reject it. *)
Definition code_accepts (m : Z) (stop : list pystr) (t : pystr) : Prop :=
  (t ∉ stop) ∧ (code_rejects m t = false).

(** A line can be processed when no empty token reaches the filter. *)
Definition line_ok (stop : list pystr) (s : pystr) : Prop :=
  [] ∈ doc_tokens s → [] ∈ stop.

#[global] Instance line_ok_dec (stop : list pystr) (s : pystr) :
  Decision (line_ok stop s).
Proof. unfold line_ok. apply _. Defined.

#[global] Instance code_accepts_dec (m : Z) (stop : list pystr) (t : pystr) :
  Decision (code_accepts m stop t).
Proof. unfold code_accepts. apply _. Defined.

(** The traversal opens no unreadable file, runs into no failing read and
    never reads [iAbstract] before a line has bound it. *)
Fixpoint traversal_ok (cap : Z) (files : list file) (prev : Z)
    (iAbstract : option Z) : Prop :=
  match files with
  | [] => True
  | f :: rest =>
      if prev >? cap then True
      else match f with
           | Unreadable => False
           | Opened ls e =>
               match match e with
                     | None => last_index cap ls prev iAbstract
                     | Some _ => break_index cap ls prev
                     end with
               | None => False
               | Some a => traversal_ok cap rest a (Some a)
               end
           end
  end.

(** The vocabulary the code builds from the tokens of the processed lines. *)
Definition code_vocabulary (m : Z) (stop : list pystr) (tokens : list pystr)
  : list pystr :=
  sorted (remove_dups (filter (code_accepts m stop) tokens)).

End indexing_vocabulary.

Section matrix_vocabulary.
Import Indexer MatrixBuilder Corpus.

(** How often a word occurs among the tokens of a document. *)
Definition occurrences (w : pystr) (tokens : list pystr) : Z :=
  Z.of_nat (length (filter (w =.) tokens)).

(** The count a [Counter] holds for a key, when it holds the key. *)
Fixpoint counter_get (w : pystr) (c : list (pystr * Z)) : option Z :=
  match c with
  | [] => None
  | (k, n) :: c' => if decide (w = k) then Some n else counter_get w c'
  end.

(** The counting pass over an explicit list of lines. *)
Fixpoint fill_all (WordIndex DocIndex : gmap pystr nat) (lines : list pystr)
    (M : lil_matrix) : result lil_matrix :=
  match lines with
  | [] => Ok M
  | s :: rest =>
      M' ← fill_line WordIndex DocIndex s M;
      fill_all WordIndex DocIndex rest M'
  end.

(** A file that can be opened and read to its end. *)
Definition readable (f : file) : Prop :=
  match f with
  | Lines _ => True
  | _ => False
  end.

(** A file that can be opened. *)
Definition opens (f : file) : Prop :=
  match f with
  | Unreadable => False
  | Opened _ _ => True
  end.

(** Total number of occurrences of a word in the processed documents. *)
Definition total_occurrences (w : pystr) (lines : list pystr) : Z :=
  Zsum ((λ s, occurrences w (doc_tokens s)) <$> lines).

(** Number of tokens of a document that are vocabulary words. *)
Definition vocabulary_words_in (W : list pystr) (s : pystr) : Z :=
  Z.of_nat (length (filter (.∈ W) (doc_tokens s))).

(** Row and column sums agree with the processed documents. *)
Definition consistent (files : list file) (cap : Z) (W : list pystr)
    (M : lil_matrix) : Prop :=
  (∀ r w, W !! r = Some w →
     row_sum M r = total_occurrences w (processed_lines files cap))
  ∧ (∀ c s, processed_lines files cap !! c = Some s →
       col_sum M c = vocabulary_words_in W s).

(** The number of cells the matrix stores. *)
Definition stored (M : lil_matrix) : nat := size (cells M).


End matrix_vocabulary.

Section assembler_vocabulary.
Import Assembler.
Context `{Builtins}.

(** The file derived from an identifier of the list. *)
Definition id_of (PubMedID : pystr) : pystr := strip_tag (py_lower PubMedID).
Definition file_of (sPubMedDir PubMedID : pystr) : pystr :=
  txt_name sPubMedDir (id_of PubMedID).

(** An identifier whose file is missing or empty. *)
Definition skipped (fs : pystr → fs_entry) (sPubMedDir PubMedID : pystr)
  : Prop :=
  match fs (file_of sPubMedDir PubMedID) with
  | Missing => True
  | Text s => strip (py_lower s) = []
  | _ => False
  end.

End assembler_vocabulary.

Section importer_vocabulary.
Import Importer.

(** The IDs written to the index and to the corpus by a run. *)
Definition index_written (st : streams) : list Z := (strIndex st).*1.*1.
Definition corpus_written (st : streams) : list Z := (strOut st).*1.

(** A line that holds nothing but whitespace (and is not the end of file). *)
Definition blank (l : pystr) : Prop := l ≠ [] ∧ strip l = [].

(** An index line ["<id>\t<authors>\t<title>\n"]. *)
Definition index_line (id authors title : string) : pystr :=
  str id ++ [TAB] ++ str authors ++ [TAB] ++ str title ++ [LF].

End importer_vocabulary.


Section sampler_vocabulary.
Import Sampler.
Context `{Builtins}.

(** A file that holds an abstract and whose name holds a number. *)
Definition good (f : txt_file) : Prop :=
  match data f with
  | Text s => strip (py_lower s) ≠ []
  | Unreadable => False
  end ∧ is_Some (file_key f).

#[global] Instance good_dec (f : txt_file) : Decision (good f).
Proof. unfold good. destruct (data f); apply _. Defined.

(** A subdirectory that can be listed and holds good files only. *)
Definition good_dir (d : subdir) : Prop :=
  match txt_files d with
  | Some files => Forall good files
  | None => False
  end.

#[global] Instance good_dir_dec (d : subdir) : Decision (good_dir d).
Proof. unfold good_dir. destruct (txt_files d); apply _. Defined.

(** The line written for a retained file. *)
Definition line_of (f : txt_file) : Z * pystr :=
  (default 0 (file_key f),
   join [SPACE]
     (findall_words
        (strip (py_lower match data f with Text s => s | Unreadable => [] end)))).

(** The files of a subdirectory in the order they are read. *)
Definition files_in_order (d : subdir) : list txt_file :=
  snd <$> sort_keyed Z.leb
            ((λ f, (default 0 (file_key f), f)) <$> default [] (txt_files d)).

(** The global traversal order of a tree. *)
Definition traversal (dirs : list subdir) : list txt_file :=
  sort_subdirs dirs ≫= files_in_order.

(** The files retained from a list when [n] files have been counted. *)
Fixpoint retained (Intervals : list Z) (d n : Z) (files : list txt_file)
  : list txt_file :=
  match files with
  | [] => []
  | f :: rest =>
      if bool_decide ((n + 1) `mod` d ∈ Intervals)
      then f :: retained Intervals d (n + 1) rest
      else retained Intervals d (n + 1) rest
  end.



(** All the files of a tree, in the order the file system lists them. *)
Definition listed (dirs : list subdir) : list txt_file :=
  dirs ≫= (λ d, default [] (txt_files d)).

End sampler_vocabulary.

(** A tree of ten subdirectories [0000] .. [0009], the [k]-th holding the
    thousand files numbered [10000 k + 1] .. [10000 k + 1000], every
    listing by decreasing number. *)
Definition demo_file (n : nat) : Sampler.txt_file :=
  {| Sampler.stem := str "PMID" ++ decimal (N.of_nat n);
     Sampler.data := Sampler.Text (str "Some Abstract text") |}.



(** ** Vocabulary of the further properties *)

Section further_indexing_vocabulary.
Import Indexer Corpus.

(** All the lines the files that can be opened yield, in order. *)
Definition all_lines (files : list file) : list pystr :=
  files ≫= (λ f, match f with Opened ls _ => ls | Unreadable => [] end).

(** The first file of the list, if any, can be opened and holds a line. *)
Definition first_file_nonempty (files : list file) : Prop :=
  match files with
  | [] => True
  | Unreadable :: _ => False
  | Opened ls _ :: _ => ls ≠ []
  end.

End further_indexing_vocabulary.

Section further_assembler_vocabulary.
Import Assembler.
Context `{Builtins}.

(** The line written for an identifier whose file holds text. *)
Definition out_line (fs : pystr → fs_entry) (sPubMedDir PubMedID : pystr)
  : option (Z * pystr) :=
  match fs (file_of sPubMedDir PubMedID) with
  | Text s =>
      match strip (py_lower s) with
      | [] => None
      | sData =>
          n ← py_int (id_of PubMedID);
          Some (n, join [SPACE] (findall_words sData))
      end
  | _ => None
  end.

(** An identifier that ends the run: its file cannot be opened or read, or
    holds text while the identifier is no integer literal. *)
Definition fatal (fs : pystr → fs_entry) (sPubMedDir PubMedID : pystr) : Prop :=
  match fs (file_of sPubMedDir PubMedID) with
  | Missing => False
  | OpenFails | ReadFails => True
  | Text s => strip (py_lower s) ≠ [] ∧ py_int (id_of PubMedID) = None
  end.

#[global] Instance fatal_dec (fs : pystr → fs_entry)
    (sPubMedDir PubMedID : pystr) : Decision (fatal fs sPubMedDir PubMedID).
Proof. unfold fatal. destruct (fs _); apply _. Defined.

(** The rows the loop reaches from row [iRow] on. *)
Definition within_cap (iMaxAbstracts iRow : Z) (rows : list pystr)
  : list pystr :=
  take (Z.to_nat (iMaxAbstracts - iRow)) rows.

End further_assembler_vocabulary.

(** A small file system for examples: the abstracts 123456 and 7, the
    empty file 5, the file 6 that cannot be opened and the file 8 that
    cannot be read. *)
Definition demo_fs (path : pystr) : Assembler.fs_entry :=
  if bool_decide (path = str "/pm/0012/PMID123456.txt")
  then Assembler.Text (str "Alpha beta" ++ [LF])
  else if bool_decide (path = str "/pm/0000/PMID7.txt")
  then Assembler.Text (str "Gamma" ++ [LF])
  else if bool_decide (path = str "/pm/0000/PMID5.txt")
  then Assembler.Text (str "  " ++ [LF])
  else if bool_decide (path = str "/pm/0000/PMID6.txt")
  then Assembler.OpenFails
  else if bool_decide (path = str "/pm/0000/PMID8.txt")
  then Assembler.ReadFails
  else Assembler.Missing.

(** A tree of two subdirectories and six files, listed out of order. *)
Definition small_tree : list Sampler.subdir :=
  [ {| Sampler.name := str "0002";
       Sampler.txt_files := Some [demo_file 21; demo_file 20] |};
    {| Sampler.name := str "0001";
       Sampler.txt_files :=
         Some [demo_file 10; demo_file 3; demo_file 12; demo_file 11] |} ].

Section further_sampler_vocabulary.
Import Sampler.

(** What the counters of a run never violate: no more lines than files
    processed, no more files processed than files counted. *)
Definition counters_ok (st : state) : Prop :=
  Z.of_nat (length (strOut st)) ≤ iProcessed st ≤ iFilesInAll st.

End further_sampler_vocabulary.

(** ["%i" % n] *)
Definition format_int (n : Z) : pystr :=
  if n <? 0 then HYPHEN :: decimal (Z.to_N (- n)) else decimal (Z.to_N n).

Section further_importer_vocabulary.
Import Importer.

(** The lines written to [strOut] (["%i %s\n"]) and to [strIndex]
    (["%i\t%s\t%s\n"]), as text. *)
Definition corpus_line (r : Z * pystr) : pystr :=
  format_int r.1 ++ [SPACE] ++ r.2 ++ [LF].

Definition index_record_line (r : Z * pystr * pystr) : pystr :=
  format_int r.1.1 ++ [TAB] ++ r.1.2 ++ [TAB] ++ r.2 ++ [LF].

(** A token as [str.split()] yields them: not empty, no whitespace. *)
Definition token (w : pystr) : Prop :=
  w ≠ [] ∧ Forall (λ c, isspace c = false) w.

(** A text made of tokens separated by single spaces. *)
Definition tokens_text (text : pystr) : Prop :=
  ∃ ws, ws ≠ [] ∧ Forall token ws ∧ text = join [SPACE] ws.

(** A field as [str.strip()] leaves it when it is not empty. *)
Definition stripped_field (s : pystr) : Prop := s ≠ [] ∧ strip s = s.

(** What a run never violates: the records written are complete, and
    the records reported are not. *)
Definition records_ok (st : streams) : Prop :=
  Forall (λ r, stripped_field r.1.2 ∧ stripped_field r.2) (strIndex st)
  ∧ Forall (λ r, tokens_text r.2) (strOut st)
  ∧ Forall (λ r, r.1.1 = [] ∨ r.1.2 = [] ∨ r.2 = []) (stderr st).

End further_importer_vocabulary.

(** ** [build_topic_model.py]: the stopword file and the main script *)

Module TopicModel.
Import Indexer MatrixBuilder.

(** The line boundaries of [str.splitlines]. *)
Definition is_linebreak (c : N) : bool :=
  ((10 <=? c) && (c <=? 13) || (28 <=? c) && (c <=? 30)
   || (c =? 133) || (c =? 8232) || (c =? 8233))%N.

(** [s.splitlines()]: every line boundary ends a line, a carriage return
    followed by a line feed is one boundary, and there is no empty last
    line. *)
Fixpoint splitlines_aux (cur s : pystr) : list pystr :=
  match s with
  | [] => match cur with [] => [] | _ => [reverse cur] end
  | c :: s' =>
      if is_linebreak c then
        reverse cur ::
        splitlines_aux []
          (if (c =? 13)%N
           then match s' with
                | c' :: s'' => if (c' =? 10)%N then s'' else s'
                | [] => s'
                end
           else s')
      else splitlines_aux (c :: cur) s'
  end.

Definition splitlines (s : pystr) : list pystr := splitlines_aux [] s.

(** What opening and reading a text file yields: [open] fails, or
    [read] fails, or it returns the text. *)
Inductive text_file :=
  | NoText
  | Garbled (e : fault)
  | TextOf (s : pystr).

(** [read_stopwords]: the set of the lines of the file; [exit(1)] when the
    file cannot be opened or the device fails, while the handler lets a
    [UnicodeDecodeError] pass. *)
Definition read_stopwords (o : hash_order) (sStopWordsFile : text_file)
  : result (list pystr) :=
  match sStopWordsFile with
  | NoText => Raise (SystemExit 1)
  | Garbled DecodeFault => Raise UnicodeDecodeError
  | Garbled ReadFault => Raise (SystemExit 1)
  | TextOf s => Ok (set_of o (splitlines s))
  end.

(** The main script up to the matrix: the stopwords, the vocabulary and
    the axis, the matrix. *)
Definition main (o : hash_order) (sStopWordsFName : text_file)
    (PathList : list file) (iMaxAbstracts iMinWordLength : Z)
  : result (list pystr * list pystr * lil_matrix) :=
  StopWords ← read_stopwords o sStopWordsFName;
  '(Words, Docs) ←
    get_words_and_documents o PathList iMaxAbstracts iMinWordLength StopWords;
  matrixWordDoc ← build_matrix PathList Words Docs iMaxAbstracts;
  Ok (Words, Docs, matrixWordDoc).

End TopicModel.

(** A file with one word on each line. *)
Definition one_per_line (words : list pystr) : pystr :=
  words ≫= (λ w, w ++ [LF]).

(** ** [build_topic_model_archaic.py] *)

Module Archaic.
Import Indexer.

Definition iMAX_N : Z := 6500.

(** [read_stopwords]: there is no handler around [open]. *)
Definition read_stopwords (o : hash_order)
    (sStopWordsFile : TopicModel.text_file) : result (list pystr) :=
  match sStopWordsFile with
  | TopicModel.NoText => Raise OSError
  | TopicModel.Garbled DecodeFault => Raise UnicodeDecodeError
  | TopicModel.Garbled ReadFault => Raise OSError
  | TopicModel.TextOf s => Ok (set_of o (TopicModel.splitlines s))
  end.

(** The condition of the [if] in the token loop:
    ['--' in item or item[0] == '-']. *)
Definition rejected (item : pystr) : result bool :=
  if contains [HYPHEN; HYPHEN] item then Ok true
  else match item with
       | [] => Raise IndexError
       | c :: _ => Ok (c =? HYPHEN)%N
       end.

Section with_hash_order.
Context (o : hash_order).

(** [for item in sorted(NewWords): if ...: NewWords.remove(item)] *)
Fixpoint filter_tokens (todo NewWords : list pystr) : result (list pystr) :=
  match todo with
  | [] => Ok NewWords
  | item :: todo' =>
      b ← rejected item;
      filter_tokens todo' (if b : bool then set_remove o item NewWords
                           else NewWords)
  end.

Definition process_line (StopWords : list pystr) (sAbstract : pystr)
    (Words Docs : list pystr) : result (list pystr * list pystr) :=
  match split_on SPACE (strip sAbstract) with
  | [] => Raise IndexError
  | sID :: Tokens =>
      let NewWords := set_difference o (set_of o Tokens) StopWords in
      NewWords' ← filter_tokens (sorted NewWords) NewWords;
      Ok (set_union o Words NewWords', Docs ++ [sID])
  end.

(** [for iAbstract, sAbstract in enumerate(strFile, start=...)] *)
Fixpoint read_lines (StopWords : list pystr) (ls : list pystr)
    (e : option fault) (i : Z) (iAbstract : option Z) (Words Docs : list pystr)
  : result (list pystr * list pystr * option Z) :=
  match ls with
  | [] =>
      match e with
      | None => Ok (Words, Docs, iAbstract)
      | Some DecodeFault => Raise UnicodeDecodeError
      | Some ReadFault => Raise OSError
      end
  | sAbstract :: ls' =>
      if i >? iMAX_N then Ok (Words, Docs, Some i)
      else
        '(Words', Docs') ← process_line StopWords sAbstract Words Docs;
        read_lines StopWords ls' e (i + 1) (Some i) Words' Docs'
  end.

(** [for iFile, sFileName in enumerate(PathList, start=1)]: no test on the
    counter before a file is opened, and no handler around [open]. *)
Fixpoint read_files (StopWords : list pystr) (PathList : list file)
    (iAbstractsPreviousFiles : Z) (iAbstract : option Z)
    (Words Docs : list pystr) : result (list pystr * list pystr) :=
  match PathList with
  | [] => Ok (Words, Docs)
  | Unreadable :: _ => Raise OSError
  | Opened ls e :: rest =>
      '(Words', Docs', iAbstract') ←
        read_lines StopWords ls e iAbstractsPreviousFiles iAbstract Words Docs;
      match iAbstract' with
      | None => Raise UnboundLocalError
      | Some a => read_files StopWords rest a iAbstract' Words' Docs'
      end
  end.

Definition get_words_and_documents (PathList : list file)
    (StopWords : list pystr) : result (list pystr * list pystr) :=
  '(Words, Docs) ← read_files StopWords PathList 0 None [] [];
  Ok (sorted Words, Docs).

End with_hash_order.

(** [build_matrix]: the counting pass of [build_topic_model.py] with the
    cap fixed to [iMAX_N]. *)
Definition build_matrix (PathList : list file) (Words Docs : list pystr)
  : result MatrixBuilder.lil_matrix :=
  MatrixBuilder.build_matrix PathList Words Docs iMAX_N.

(** The script up to the matrix. *)
Definition main (o : hash_order) (stopwords : TopicModel.text_file)
    (gsresults : file)
  : result (list pystr * list pystr * MatrixBuilder.lil_matrix) :=
  StopWords ← read_stopwords o stopwords;
  let PathList := [gsresults] in
  '(Words, Docs) ← get_words_and_documents o PathList StopWords;
  matrixWordDoc ← build_matrix PathList Words Docs;
  Ok (Words, Docs, matrixWordDoc).

End Archaic.

Section archaic_vocabulary.
Import Indexer Corpus.

(** The archaic filter on a token that is not a stopword. *)
Definition archaic_rejects (t : pystr) : bool :=
  contains [HYPHEN; HYPHEN] t || startswith [HYPHEN] t.

Definition archaic_accepts (stop : list pystr) (t : pystr) : Prop :=
  (t ∉ stop) ∧ (archaic_rejects t = false).

#[global] Instance archaic_accepts_dec (stop : list pystr) (t : pystr) :
  Decision (archaic_accepts stop t).
Proof. unfold archaic_accepts. apply _. Defined.

Definition archaic_vocabulary (stop : list pystr) (tokens : list pystr)
  : list pystr :=
  sorted (remove_dups (filter (archaic_accepts stop) tokens)).

End archaic_vocabulary.

Section further_matrix_vocabulary.
Import Indexer MatrixBuilder Corpus.

(** A line whose document ID the counting pass looks up: one with a
    vocabulary word among its tokens. *)
Definition counted (W : list pystr) (s : pystr) : Prop :=
  Exists (.∈ W) (doc_tokens s).

(** The ID of the line is on the axis if it is looked up. *)
Definition id_known (W D : list pystr) (s : pystr) : Prop :=
  counted W s → doc_id s ∈ D.

#[global] Instance counted_dec (W : list pystr) (s : pystr) :
  Decision (counted W s).
Proof. unfold counted. apply _. Defined.

#[global] Instance id_known_dec (W D : list pystr) (s : pystr) :
  Decision (id_known W D s).
Proof. unfold id_known. apply _. Defined.

End further_matrix_vocabulary.

Section importer_input_vocabulary.
Import Importer.

(** A record of the input: the blank lines before it and its three
    lines. *)
Record group := {
  blanks : list pystr;
  title : pystr;
  authors : pystr;
  text : pystr
}.

Definition group_lines (g : group) : list pystr :=
  blanks g ++ [title g; authors g; text g].

(** The lines before the title are blank and the title is not. *)
Definition well_formed (g : group) : Prop :=
  Forall blank (blanks g) ∧ strip (title g) ≠ [].

Definition complete (g : group) : Prop :=
  strip (authors g) ≠ [] ∧ strip (text g) ≠ [].

#[global] Instance complete_dec (g : group) : Decision (complete g).
Proof. unfold complete. apply _. Defined.

(** The complete records with the IDs they are given. *)
Fixpoint numbered (iID : Z) (gs : list group) : list (Z * group) :=
  match gs with
  | [] => []
  | g :: gs' =>
      if decide (complete g) then (iID, g) :: numbered (iID + 1) gs'
      else numbered iID gs'
  end.

Definition index_record (r : Z * group) : Z * pystr * pystr :=
  (r.1, strip (authors r.2), strip (title r.2)).

Definition corpus_record (r : Z * group) : Z * pystr :=
  (r.1, join [SPACE] (split_ws (strip (text r.2)))).

Definition report (g : group) : pystr * pystr * pystr :=
  (strip (authors g), strip (title g), strip (text g)).

End importer_input_vocabulary.

(** A corpus file of [n] documents of one word each, with the IDs 1 .. [n]. *)
Definition one_word_corpus (n : nat) : list pystr :=
  (λ k, corpus_line (k, str "w")) <$> seqZ 1 (Z.of_nat n).

Section assembler_reports_vocabulary.
Import Assembler.
Context `{Builtins}.

(** The message written to [strErr] for an identifier that is skipped:
    its file is missing, or holds nothing but whitespace. *)
Definition err_line (fs : pystr → fs_entry) (sPubMedDir PubMedID : pystr)
  : option err_msg :=
  match fs (file_of sPubMedDir PubMedID) with
  | Missing => Some (NotFound (id_of PubMedID))
  | Text s =>
      match strip (py_lower s) with
      | [] => Some (EmptyFile (file_of sPubMedDir PubMedID))
      | _ => None
      end
  | _ => None
  end.

End assembler_reports_vocabulary.

Section importer_format_vocabulary.
Import Importer.

(** A record of the input in the specification's words: the three lines
    of its title, its authors and its text, and the run of blank lines
    that follows it. *)
Record entry := {
  entry_title : pystr;
  entry_authors : pystr;
  entry_text : pystr;
  gap : list pystr
}.

Definition entry_lines (e : entry) : list pystr :=
  [entry_title e; entry_authors e; entry_text e] ++ gap e.

(** A valid record: none of its three fields is empty. *)
Definition valid_record (e : entry) : Prop :=
  strip (entry_title e) ≠ [] ∧ strip (entry_authors e) ≠ []
  ∧ strip (entry_text e) ≠ [].

#[global] Instance valid_record_dec (e : entry) : Decision (valid_record e).
Proof. unfold valid_record. apply _. Defined.

(** The three lines of a record are lines of the file (none is the empty
    string that [readline] returns at its end), they are not all blank,
    and the lines that follow them are blank. *)
Definition entry_ok (e : entry) : Prop :=
  entry_title e ≠ [] ∧ entry_authors e ≠ [] ∧ entry_text e ≠ []
  ∧ ¬ (strip (entry_title e) = [] ∧ strip (entry_authors e) = []
       ∧ strip (entry_text e) = [])
  ∧ Forall blank (gap e).

#[global] Instance entry_ok_dec (e : entry) : Decision (entry_ok e).
Proof. unfold entry_ok, blank. apply _. Defined.

(** Every record but the last is followed by a blank line at least. *)
Fixpoint separated (es : list entry) : Prop :=
  match es with
  | [] => True
  | e :: es' => (es' = [] ∨ gap e ≠ []) ∧ separated es'
  end.

(** The input format of the specification: records of three lines,
    separated by runs of blank lines. *)
Definition record_format (es : list entry) : Prop :=
  Forall entry_ok es ∧ separated es.

(** A record whose title and authors are both blank is followed by two
    blank lines at least, unless it is the last. *)
Fixpoint doubly_blank_spaced (es : list entry) : Prop :=
  match es with
  | [] => True
  | e :: es' =>
      (es' = [] ∨ strip (entry_title e) ≠ [] ∨ strip (entry_authors e) ≠ []
       ∨ (2 ≤ length (gap e))%nat)
      ∧ doubly_blank_spaced es'
  end.

(** The valid records with the IDs the specification gives them: each the
    next ID, and none for a record that is dropped. *)
Fixpoint spec_numbered (iID : Z) (es : list entry) : list (Z * entry) :=
  match es with
  | [] => []
  | e :: es' =>
      if decide (valid_record e) then (iID, e) :: spec_numbered (iID + 1) es'
      else spec_numbered iID es'
  end.

Definition spec_index_record (r : Z * entry) : Z * pystr * pystr :=
  (r.1, strip (entry_authors r.2), strip (entry_title r.2)).

Definition spec_corpus_record (r : Z * entry) : Z * pystr :=
  (r.1, join [SPACE] (split_ws (strip (entry_text r.2)))).

(** The number of blank lines a record starts with.  The blank lines
    before a title are skipped, so a record is read that many lines
    late. *)
Definition late (e : entry) : nat :=
  if decide (strip (entry_title e) ≠ []) then 0
  else if decide (strip (entry_authors e) ≠ []) then 1
  else 2.

(** How a record that is dropped is reported (authors, title, text): read
    from its first line that is not blank. *)
Definition reported (e : entry) : pystr * pystr * pystr :=
  if decide (strip (entry_title e) ≠ [])
  then (strip (entry_authors e), strip (entry_title e), strip (entry_text e))
  else if decide (strip (entry_authors e) ≠ [])
  then (strip (entry_text e), strip (entry_authors e), [])
  else ([], strip (entry_text e), []).

(** An index as the importer writes it: the IDs are not negative and
    increase. *)
Definition index_in_order (records : list (Z * pystr * pystr)) : Prop :=
  Forall (λ n, 0 ≤ n) records.*1.*1 ∧ StronglySorted Z.lt records.*1.*1.

(** The largest ID of an index (0 for an index without records). *)
Definition max_id (records : list (Z * pystr * pystr)) : Z :=
  foldr Z.max 0 records.*1.*1.

(** The index file: [None] when it does not exist, else its lines. *)
Definition index_file (index : option (list (Z * pystr * pystr)))
  : option (list pystr) :=
  match index with
  | None => None
  | Some records => Some (index_record_line <$> records)
  end.

(** The first ID in the specification's words: 1 without an index file,
    else one more than the largest ID of the index. *)
Definition spec_first_id (index : option (list (Z * pystr * pystr))) : Z :=
  match index with
  | None => 1
  | Some records => max_id records + 1
  end.

End importer_format_vocabulary.

(** * Properties *)

(** ** The order on strings and [sorted] *)

Lemma pystr_leb_total (s t : pystr) : pystr_leb s t = true ∨ pystr_leb t s = true.
Proof.
  revert t; induction s as [|a s IH]; intros [|b t]; simpl; auto.
  destruct (N.ltb_spec a b), (N.ltb_spec b a); auto; lia.
Qed.

Lemma pystr_leb_trans (s t u : pystr) :
  pystr_leb s t = true → pystr_leb t u = true → pystr_leb s u = true.
Proof.
  revert t u; induction s as [|a s IH]; intros [|b t] [|c u]; simpl; auto;
    try discriminate.
  destruct (N.ltb_spec a b), (N.ltb_spec b a), (N.ltb_spec b c),
    (N.ltb_spec c b), (N.ltb_spec a c), (N.ltb_spec c a);
    try discriminate; try lia; eauto.
Qed.

Lemma pystr_leb_antisym (s t : pystr) :
  pystr_leb s t = true → pystr_leb t s = true → s = t.
Proof.
  revert t; induction s as [|a s IH]; intros [|b t]; simpl; auto;
    try discriminate.
  destruct (N.ltb_spec a b), (N.ltb_spec b a); try discriminate; try lia.
  intros Hst Hts. assert (a = b) as -> by lia. f_equal; auto.
Qed.

#[global] Instance pystr_le_total : Total pystr_le.
Proof.
  intros s t. unfold pystr_le.
  destruct (pystr_leb_total s t) as [->| ->]; simpl; auto.
Qed.

#[global] Instance pystr_le_trans : Transitive pystr_le.
Proof.
  intros s t u Hst Htu. apply Is_true_true.
  eapply pystr_leb_trans; apply Is_true_true; eassumption.
Qed.

#[global] Instance pystr_le_antisym : AntiSymm (=) pystr_le.
Proof.
  intros s t Hst Hts. apply pystr_leb_antisym; apply Is_true_true; assumption.
Qed.

Lemma sorted_StronglySorted (l : list pystr) : StronglySorted pystr_le (sorted l).
Proof. apply StronglySorted_merge_sort; apply _. Qed.

Lemma sorted_Permutation (l : list pystr) : sorted l ≡ₚ l.
Proof. apply merge_sort_Permutation. Qed.

(** [sorted] forgets the order its argument is enumerated in. *)
Lemma sorted_unique (l k : list pystr) : l ≡ₚ k → sorted l = sorted k.
Proof.
  intros Hlk. apply (StronglySorted_unique pystr_le).
  - apply sorted_StronglySorted.
  - apply sorted_StronglySorted.
  - rewrite !sorted_Permutation. exact Hlk.
Qed.

Lemma elem_of_sorted (x : pystr) (l : list pystr) : x ∈ sorted l ↔ x ∈ l.
Proof. by rewrite sorted_Permutation. Qed.

Lemma NoDup_sorted (l : list pystr) : NoDup (sorted l) ↔ NoDup l.
Proof. by rewrite sorted_Permutation. Qed.

Lemma remove_dups_Permutation (l k : list pystr) :
  l ≡ₚ k → remove_dups l ≡ₚ remove_dups k.
Proof.
  intros Hlk. apply NoDup_Permutation; try apply NoDup_remove_dups.
  intros x. rewrite !elem_of_remove_dups. by rewrite Hlk.
Qed.

(** ** The indexing pass does not depend on the hash order *)

Section hash_order_independence.
Import Indexer.
Context (o1 o2 : hash_order).

Lemma set_of_agree (l : list pystr) : set_of o1 l ≡ₚ set_of o2 l.
Proof. unfold set_of. by rewrite !enum_perm. Qed.

Lemma set_difference_agree (X1 X2 Y : list pystr) :
  X1 ≡ₚ X2 → set_difference o1 X1 Y ≡ₚ set_difference o2 X2 Y.
Proof. intros HX. unfold set_difference. by rewrite !enum_perm, HX. Qed.

Lemma set_remove_agree (x : pystr) (X1 X2 : list pystr) :
  X1 ≡ₚ X2 → set_remove o1 x X1 ≡ₚ set_remove o2 x X2.
Proof. intros HX. unfold set_remove. by rewrite !enum_perm, HX. Qed.

Lemma set_union_agree (X1 X2 Y1 Y2 : list pystr) :
  X1 ≡ₚ X2 → Y1 ≡ₚ Y2 → set_union o1 X1 Y1 ≡ₚ set_union o2 X2 Y2.
Proof.
  intros HX HY. unfold set_union. rewrite !enum_perm.
  apply remove_dups_Permutation. by rewrite HX, HY.
Qed.

Lemma filter_tokens_agree (m : Z) (todo N1 N2 : list pystr) :
  N1 ≡ₚ N2 →
  agree (≡ₚ) (filter_tokens o1 m todo N1) (filter_tokens o2 m todo N2).
Proof.
  revert N1 N2; induction todo as [|t todo IH]; intros N1 N2 HN; simpl.
  - exact HN.
  - destruct (rejected m t) as [[]|e]; simpl; [| |done].
    + apply IH. by apply set_remove_agree.
    + by apply IH.
Qed.

Lemma process_line_agree (m : Z) (stop : list pystr) (s : pystr)
    (W1 W2 D : list pystr) :
  W1 ≡ₚ W2 →
  agree same_sets (process_line o1 m stop s W1 D) (process_line o2 m stop s W2 D).
Proof.
  intros HW. unfold process_line.
  destruct (split_on SPACE (strip s)) as [|sID Tokens]; [done|].
  pose proof (set_difference_agree _ _ stop (set_of_agree Tokens)) as HN.
  rewrite (sorted_unique _ _ HN).
  pose proof (filter_tokens_agree m
    (sorted (set_difference o2 (set_of o2 Tokens) stop)) _ _ HN) as HF.
  destruct (filter_tokens o1 _ _ _) as [N1|e1],
    (filter_tokens o2 _ _ _) as [N2|e2]; simpl in *; try done.
  split; simpl; [by apply set_union_agree|done].
Qed.

Lemma read_lines_agree (cap m : Z) (stop ls : list pystr)
    (flt : option fault) (i : Z) (iAbstract : option Z) (W1 W2 D : list pystr) :
  W1 ≡ₚ W2 →
  agree (λ r1 r2, same_sets r1.1 r2.1 ∧ r1.2 = r2.2)
    (read_lines o1 cap m stop ls flt i iAbstract W1 D)
    (read_lines o2 cap m stop ls flt i iAbstract W2 D).
Proof.
  revert i iAbstract W1 W2 D; induction ls as [|s ls IH];
    intros i iAbstract W1 W2 D HW; simpl.
  - by destruct flt as [[]|]; repeat split.
  - destruct (i >? cap); [by repeat split|].
    pose proof (process_line_agree m stop s W1 W2 D HW) as HP.
    destruct (process_line o1 m stop s W1 D) as [[W1' D1]|e1],
      (process_line o2 m stop s W2 D) as [[W2' D2]|e2]; simpl in *; try done.
    destruct HP as [HW' HD]; simpl in *; subst D2. by apply IH.
Qed.

Lemma read_files_agree (cap m : Z) (stop : list pystr) (files : list file)
    (prev : Z) (iAbstract : option Z) (W1 W2 D : list pystr) :
  W1 ≡ₚ W2 →
  agree same_sets
    (read_files o1 cap m stop files prev iAbstract W1 D)
    (read_files o2 cap m stop files prev iAbstract W2 D).
Proof.
  revert prev iAbstract W1 W2 D; induction files as [|f files IH];
    intros prev iAbstract W1 W2 D HW; simpl.
  - by split.
  - destruct (prev >? cap); [by split|].
    destruct f as [|ls flt]; [done|].
    pose proof (read_lines_agree cap m stop ls flt prev iAbstract W1 W2 D HW)
      as HL.
    destruct (read_lines o1 _ _ _ _ _ _ _ _ _) as [[[W1' D1] a1]|e1],
      (read_lines o2 _ _ _ _ _ _ _ _ _) as [[[W2' D2] a2]|e2]; simpl in *; try done.
    destruct HL as [[HW' HD] Ha]; simpl in *; subst D2 a2.
    destruct a1 as [a|]; [by apply IH|done].
Qed.

Lemma get_words_and_documents_agree
    (files : list file) (cap m : Z) (stop : list pystr) :
  get_words_and_documents o1 files cap m stop
  = get_words_and_documents o2 files cap m stop.
Proof.
  unfold get_words_and_documents.
  pose proof (read_files_agree cap m stop files 0 None [] [] []
    (reflexivity _)) as HR.
  destruct (read_files o1 _ _ _ _ _ _ _ _) as [[W1 D1]|e1],
    (read_files o2 _ _ _ _ _ _ _ _) as [[W2 D2]|e2]; simpl in *; try done.
  - destruct HR as [HW HD]; simpl in *; subst D2.
    by rewrite (sorted_unique _ _ HW).
  - by subst e2.
Qed.

End hash_order_independence.

(** ** [strip] and [split_on] *)

Lemma lstrip_app (x z : pystr) : has_field x → lstrip (x ++ z) = lstrip x ++ z.
Proof.
  intros (c & Hc & Hsp). induction x as [|a x IH]; [by apply elem_of_nil in Hc|].
  simpl. destruct (isspace a) eqn:Ha; [|done].
  apply IH. apply elem_of_cons in Hc as [->|Hc]; [congruence|done].
Qed.

Lemma lstrip_has_field (x : pystr) : has_field x → has_field (lstrip x).
Proof.
  intros (c & Hc & Hsp). induction x as [|a x IH]; [by apply elem_of_nil in Hc|].
  simpl. destruct (isspace a) eqn:Ha.
  - apply IH. apply elem_of_cons in Hc as [->|Hc]; [congruence|done].
  - exists a. split; [left|done].
Qed.

Lemma has_field_reverse (x : pystr) : has_field x → has_field (reverse x).
Proof. intros (c & Hc & Hsp). exists c. by rewrite elem_of_reverse. Qed.

Lemma rstrip_app (w y : pystr) : has_field y → rstrip (w ++ y) = w ++ rstrip y.
Proof.
  intros Hy. unfold rstrip. rewrite reverse_app.
  rewrite lstrip_app by by apply has_field_reverse.
  by rewrite reverse_app, reverse_involutive.
Qed.

Lemma has_field_nonempty (x : pystr) : has_field x → x ≠ [].
Proof. intros (c & Hc & _) ->. by apply elem_of_nil in Hc. Qed.

Lemma split_on_nonempty (sep : N) (s : pystr) : split_on sep s ≠ [].
Proof.
  induction s as [|c s IH]; simpl; [done|].
  destruct (c =? sep)%N; [done|]. by destruct (split_on sep s).
Qed.

Lemma split_on_app (sep : N) (a r : pystr) :
  split_on sep (a ++ sep :: r) = split_on sep a ++ split_on sep r.
Proof.
  induction a as [|c a IH]; simpl.
  - by rewrite N.eqb_refl.
  - destruct (c =? sep)%N; [by rewrite IH|].
    rewrite IH. pose proof (split_on_nonempty sep a).
    by destruct (split_on sep a).
Qed.

(** A line with two adjacent spaces between two fields has an empty string
    among its candidate tokens. *)
Lemma double_space_empty_token (x y : pystr) :
  has_field x → has_field y →
  [] ∈ tail (split_on SPACE (strip (x ++ [SPACE; SPACE] ++ y))).
Proof.
  intros Hx Hy. unfold strip.
  rewrite lstrip_app by done.
  rewrite rstrip_app by (destruct Hy as (c & Hc & Hsp); exists c;
    split; [by repeat right|done]).
  assert (rstrip ([SPACE; SPACE] ++ y) = [SPACE; SPACE] ++ rstrip y) as ->
    by by apply rstrip_app.
  simpl. rewrite split_on_app. simpl.
  pose proof (split_on_nonempty SPACE (lstrip x)) as Hne.
  pose proof (has_field_nonempty _ (lstrip_has_field x Hx)) as Hx'.
  destruct (lstrip x) as [|a l]; [done|]. simpl in *.
  destruct (a =? SPACE)%N.
  - simpl. apply elem_of_app. right. left.
  - pose proof (split_on_nonempty SPACE l). destruct (split_on SPACE l); [done|].
    simpl. apply elem_of_app. right. left.
Qed.

(** ** Lines of the indexing pass *)

Section indexing_lines.
Import Indexer.
Context (o : hash_order).

Lemma elem_of_enum (x : pystr) (l : list pystr) : x ∈ enum o l ↔ x ∈ l.
Proof. by rewrite enum_perm. Qed.

Lemma enum_nil : enum o [] = [].
Proof. apply Permutation_nil_r. by rewrite enum_perm. Qed.

Lemma elem_of_set_of (x : pystr) (l : list pystr) : x ∈ set_of o l ↔ x ∈ l.
Proof. unfold set_of. by rewrite elem_of_enum, elem_of_remove_dups. Qed.

Lemma elem_of_set_difference (x : pystr) (X Y : list pystr) :
  x ∈ set_difference o X Y ↔ x ∈ X ∧ x ∉ Y.
Proof. unfold set_difference. by rewrite elem_of_enum, list_elem_of_filter, (comm and). Qed.

Lemma elem_of_set_remove (x y : pystr) (X : list pystr) :
  x ∈ set_remove o y X ↔ x ∈ X ∧ x ≠ y.
Proof. unfold set_remove. by rewrite elem_of_enum, list_elem_of_filter, (comm and). Qed.

Lemma elem_of_set_union (x : pystr) (X Y : list pystr) :
  x ∈ set_union o X Y ↔ x ∈ X ∨ x ∈ Y.
Proof.
  unfold set_union. by rewrite elem_of_enum, elem_of_remove_dups, elem_of_app.
Qed.

Lemma NoDup_set_union (X Y : list pystr) : NoDup (set_union o X Y).
Proof. unfold set_union. rewrite enum_perm. apply NoDup_remove_dups. Qed.

(** The empty string sorts before every other string. *)
Lemma sorted_empty_first (l : list pystr) :
  [] ∈ l → ∃ rest, sorted l = [] :: rest.
Proof.
  intros Hin. pose proof (sorted_StronglySorted l) as Hs.
  apply elem_of_sorted in Hin.
  destruct (sorted l) as [|h rest]; [by apply elem_of_nil in Hin|].
  exists rest. f_equal.
  apply elem_of_cons in Hin as [<-|Hin]; [done|].
  apply StronglySorted_inv in Hs as [_ Hall].
  rewrite Forall_forall in Hall. specialize (Hall _ Hin).
  destruct h; [done|]. by simpl in Hall.
Qed.

Lemma filter_tokens_raises (m : Z) (todo N : list pystr) (e : exn) :
  filter_tokens o m todo N = Raise e → e = IndexError.
Proof.
  revert N; induction todo as [|t todo IH]; intros N; simpl; [done|].
  unfold rejected. destruct (contains _ t); simpl; [by apply IH|].
  destruct t; simpl; [congruence|]. by apply IH.
Qed.

(** A line raises no exception other than [IndexError]. *)
Lemma process_line_raises (m : Z) (stop : list pystr) (s : pystr)
    (W D : list pystr) (e : exn) :
  process_line o m stop s W D = Raise e → e = IndexError.
Proof.
  unfold process_line. destruct (split_on SPACE (strip s)); [congruence|].
  destruct (filter_tokens o m _ _) eqn:Hf; simpl; [done|].
  intros [= <-]. by eapply filter_tokens_raises.
Qed.

(** An empty candidate token that is not a stopword stops the line. *)
Lemma process_line_empty_token (m : Z) (stop : list pystr) (s : pystr)
    (W D : list pystr) :
  [] ∈ tail (split_on SPACE (strip s)) → [] ∉ stop →
  process_line o m stop s W D = Raise IndexError.
Proof.
  intros Hin Hstop. unfold process_line.
  destruct (split_on SPACE (strip s)) as [|sID Tokens]; [done|]. simpl in Hin.
  assert ([] ∈ set_difference o (set_of o Tokens) stop) as HN
    by by rewrite elem_of_set_difference, elem_of_set_of.
  destruct (sorted_empty_first _ HN) as [rest ->]. done.
Qed.

(** A line of whitespace only: one document with the empty ID, no token. *)
Lemma process_line_blank (m : Z) (stop : list pystr) (s : pystr)
    (W D : list pystr) :
  strip s = [] →
  process_line o m stop s W D = Ok (set_union o W [], D ++ [[]]).
Proof.
  intros Hs. unfold process_line. rewrite Hs. simpl.
  unfold set_of, set_difference. simpl.
  rewrite enum_nil, filter_nil, enum_nil. done.
Qed.

Lemma read_lines_reaches_IndexError (cap m : Z) (stop pre : list pystr)
    (s : pystr) (post : list pystr) (flt : option fault) (i : Z)
    (iAbstract : option Z) (W D : list pystr) :
  (∀ W D, process_line o m stop s W D = Raise IndexError) →
  i + Z.of_nat (length pre) ≤ cap →
  read_lines o cap m stop (pre ++ s :: post) flt i iAbstract W D
  = Raise IndexError.
Proof.
  intros Hs. revert i iAbstract W D.
  induction pre as [|p pre IH]; intros i iAbstract W D Hcap; simpl in *.
  - destruct (Z.gtb_spec i cap); [lia|]. by rewrite Hs.
  - destruct (Z.gtb_spec i cap); [lia|].
    destruct (process_line o m stop p W D) as [[W' D']|e] eqn:Hp; simpl.
    + apply IH. lia.
    + f_equal. by eapply process_line_raises.
Qed.

End indexing_lines.

(** C4.  For every file list, cap, minimum word length and stopword set, two
    runs of [get_words_and_documents] -- whatever order each run's string
    hash enumerates its sets in -- have the same outcome: the same exception,
    or the same vocabulary list and the same document list, element by
    element and in the same order. *)
Theorem get_words_and_documents_deterministic (run1 run2 : hash_order)
    (files : list Indexer.file) (cap m : Z) (stop : list pystr) :
  Indexer.get_words_and_documents run1 files cap m stop
  = Indexer.get_words_and_documents run2 files cap m stop.
Proof. apply get_words_and_documents_agree. Qed.

(** The two hash orders do enumerate sets differently. *)
Example hash_orders_differ :
  Indexer.set_of insertion_order [str "b"; str "a"]
  ≠ Indexer.set_of reversed_order [str "b"; str "a"].
Proof. by vm_compute. Qed.

Lemma has_field_existsb (s : pystr) :
  existsb (λ c, negb (isspace c)) s = true → has_field s.
Proof.
  rewrite existsb_exists. intros (c & Hc & Hsp). exists c. split.
  - by apply list_elem_of_In.
  - by destruct (isspace c).
Qed.

(** C10.  A line with two adjacent spaces between two fields, reached within
    the cap in the first file, makes [get_words_and_documents] raise
    [IndexError] (the empty string reaches [sToken[0]]) whenever the empty
    string is not a stopword, whatever the other lines and files are. *)
Theorem double_space_raises_IndexError (o : hash_order) (x y : pystr)
    (pre post : list pystr) (rest : list Indexer.file) (cap m : Z)
    (stop : list pystr) :
  has_field x → has_field y → [] ∉ stop → Z.of_nat (length pre) ≤ cap →
  Indexer.get_words_and_documents o
    (Indexer.Lines (pre ++ (x ++ [SPACE; SPACE] ++ y) :: post) :: rest)
    cap m stop
  = Raise IndexError.
Proof.
  intros Hx Hy Hstop Hcap. unfold Indexer.get_words_and_documents. simpl.
  destruct (Z.gtb_spec 0 cap); [lia|].
  rewrite read_lines_reaches_IndexError; [done| |lia].
  intros W D. apply process_line_empty_token; [|done].
  by apply double_space_empty_token.
Qed.

Lemma double_space_raises_IndexError_witness :
  Indexer.get_words_and_documents insertion_order
    [Indexer.Lines [str "7 alpha" ++ [LF]; str "8 beta  gamma" ++ [LF]]] 10 2
    [str "the"]
  = Raise IndexError.
Proof.
  apply (double_space_raises_IndexError insertion_order (str "8 beta")
           (str "gamma" ++ [LF]) [str "7 alpha" ++ [LF]] [] [] 10 2 [str "the"]).
  - by apply has_field_existsb.
  - by apply has_field_existsb.
  - apply (bool_decide_unpack _). by vm_compute.
  - simpl. lia.
Defined.

(** The pass on a file holding one empty line. *)
Example empty_line_pass (o : hash_order) :
  Indexer.get_words_and_documents o [Indexer.Lines [[LF]]] 10 2 []
  = Ok ([], [[]]).
Proof. by rewrite (get_words_and_documents_agree o insertion_order). Qed.

(** C3.  The document axis exceeds the cap: with cap 1, one file of three
    lines yields two documents (the test is [iAbstract > iMaxAbstracts] on a
    0-based index), and three files of one line each yield three (the
    counter carried to the next file is the last index, not the count). *)
Theorem document_axis_exceeds_cap (o : hash_order) :
  Indexer.get_words_and_documents o
    [Indexer.Lines [str "1 a" ++ [LF]; str "2 a" ++ [LF]; str "3 a" ++ [LF]]]
    1 1 []
  = Ok ([str "a"], [str "1"; str "2"])
  ∧ Indexer.get_words_and_documents o
      [Indexer.Lines [str "1 a" ++ [LF]]; Indexer.Lines [str "2 a" ++ [LF]];
       Indexer.Lines [str "3 a" ++ [LF]]]
      1 1 []
    = Ok ([str "a"], [str "1"; str "2"; str "3"]).
Proof. by rewrite !(get_words_and_documents_agree o insertion_order). Qed.

(** C2.  A token that begins with a digit but is not a number is dropped:
    on the one line [1 3d], with minimum length 2 and no stopwords, the
    vocabulary returned is empty, while [3d] passes the five filters as the
    specification words them, so that the specified vocabulary is [[3d]]. *)
Theorem numeric_prefix_drops_word (o : hash_order) :
  Indexer.get_words_and_documents o [Indexer.Lines [str "1 3d" ++ [LF]]] 10 2 []
  = Ok ([], [str "1"])
  ∧ Corpus.spec_vocabulary 2 []
      (Corpus.candidate_tokens
         (Corpus.processed_lines [Indexer.Lines [str "1 3d" ++ [LF]]] 10))
    = [str "3d"].
Proof.
  split; [by rewrite (get_words_and_documents_agree o insertion_order)|].
  by vm_compute.
Qed.

(** ** What the indexing pass returns *)

Section indexing_result.
Import Indexer Corpus.
Context (o : hash_order).

Lemma startswith_hyphen (c : N) (t : pystr) :
  startswith [HYPHEN] (c :: t) = (c =? HYPHEN)%N.
Proof.
  change (startswith [HYPHEN] (c :: t)) with ((HYPHEN =? c)%N && true).
  by rewrite andb_true_r, N.eqb_sym.
Qed.

Lemma rejected_nonempty (m : Z) (t : pystr) :
  t ≠ [] → rejected m t = Ok (code_rejects m t).
Proof.
  intros Ht. unfold rejected, code_rejects.
  destruct t as [|c t]; [done|]. rewrite startswith_hyphen.
  by destruct (contains _ (c :: t)).
Qed.

Lemma filter_tokens_ok (m : Z) (todo N : list pystr) :
  [] ∉ todo →
  ∃ N', filter_tokens o m todo N = Ok N'
    ∧ ∀ x, x ∈ N' ↔ x ∈ N ∧ ¬ (x ∈ todo ∧ code_rejects m x = true).
Proof.
  revert N; induction todo as [|t todo IH]; intros N Hne; simpl.
  - exists N. split; [done|]. intros x. rewrite elem_of_nil. tauto.
  - apply not_elem_of_cons in Hne as [Ht Hne].
    rewrite rejected_nonempty by done. simpl.
    destruct (IH (if code_rejects m t then set_remove o t N else N) Hne)
      as (N' & -> & HN').
    exists N'. split; [done|]. intros x. rewrite HN', elem_of_cons.
    destruct (code_rejects m t) eqn:Hr.
    + rewrite elem_of_set_remove. split.
      * intros [[HxN Hxt] Hrest]. split; [done|]. intros [[->|Hx] Hrx]; tauto.
      * intros [HxN Hrest]. split; [split; [done|]|].
        -- intros ->. apply Hrest. auto.
        -- intros [Hx Hrx]. apply Hrest. auto.
    + split.
      * intros [HxN Hrest]. split; [done|]. intros [[->|Hx] Hrx]; [congruence|tauto].
      * intros [HxN Hrest]. split; [done|]. intros [Hx Hrx]. apply Hrest. auto.
Qed.

Lemma process_line_ok (m : Z) (stop : list pystr) (s : pystr)
    (W D : list pystr) :
  line_ok stop s →
  ∃ W', process_line o m stop s W D = Ok (W', D ++ [doc_id s])
    ∧ NoDup W'
    ∧ ∀ x, x ∈ W' ↔ x ∈ W ∨ (x ∈ doc_tokens s ∧ code_accepts m stop x).
Proof.
  intros Hok. unfold process_line, line_ok, doc_id, doc_tokens in *.
  pose proof (split_on_nonempty SPACE (strip s)) as Hne.
  destruct (split_on SPACE (strip s)) as [|sID Tokens]; [done|]. simpl in *.
  set (N := set_difference o (set_of o Tokens) stop).
  assert ([] ∉ sorted N) as Hempty.
  { rewrite elem_of_sorted. unfold N.
    rewrite elem_of_set_difference, elem_of_set_of. tauto. }
  destruct (filter_tokens_ok m (sorted N) N Hempty) as (N' & -> & HN').
  simpl. eexists. split; [done|]. split; [apply NoDup_set_union|].
  intros x. rewrite elem_of_set_union, HN', elem_of_sorted. unfold N.
  rewrite elem_of_set_difference, elem_of_set_of. unfold code_accepts.
  destruct (code_rejects m x); intuition congruence.
Qed.

(** The loop over the lines of a file is left without an exception when
    the lines it processes are in order and it does not run into a failing
    read. *)
Lemma read_lines_ok (cap m : Z) (stop ls : list pystr) (flt : option fault)
    (i : Z) (iAbstract : option Z) (W D : list pystr) :
  Forall (line_ok stop) (visited_lines cap ls i) → NoDup W →
  flt = None ∨ is_Some (break_index cap ls i) →
  ∃ W', read_lines o cap m stop ls flt i iAbstract W D
        = Ok (W', D ++ (doc_id <$> visited_lines cap ls i),
              match flt with
              | None => last_index cap ls i iAbstract
              | Some _ => break_index cap ls i
              end)
    ∧ NoDup W'
    ∧ ∀ x, x ∈ W' ↔
        x ∈ W ∨ (x ∈ candidate_tokens (visited_lines cap ls i)
                 ∧ code_accepts m stop x).
Proof.
  revert i iAbstract W D; induction ls as [|s ls IH];
    intros i iAbstract W D Hok HW Hflt; simpl.
  - destruct Hflt as [->|[a Ha]]; [|done].
    exists W. rewrite app_nil_r. split; [done|]. split; [done|].
    intros x. unfold candidate_tokens. simpl. rewrite elem_of_nil. tauto.
  - revert Hok Hflt. simpl. destruct (i >? cap); intros Hok Hflt.
    + exists W. rewrite app_nil_r. split; [by destruct flt|]. split; [done|].
      intros x. unfold candidate_tokens. simpl. rewrite elem_of_nil. tauto.
    + apply Forall_cons in Hok as [Hs Hok].
      destruct (process_line_ok m stop s W D Hs) as (W1 & -> & HW1 & Hel1).
      simpl.
      destruct (IH (i + 1) (Some i) W1 (D ++ [doc_id s]) Hok HW1 Hflt)
        as (W2 & -> & HW2 & Hel2).
      exists W2. rewrite <- app_assoc. split; [done|]. split; [done|].
      intros x. rewrite Hel2, Hel1. unfold candidate_tokens. simpl.
      rewrite elem_of_app. tauto.
Qed.

Lemma read_lines_fails (cap m : Z) (stop ls : list pystr) (flt : option fault)
    (i : Z) (iAbstract : option Z) (W D : list pystr) :
  ¬ Forall (line_ok stop) (visited_lines cap ls i) →
  read_lines o cap m stop ls flt i iAbstract W D = Raise IndexError.
Proof.
  revert i iAbstract W D; induction ls as [|s ls IH];
    intros i iAbstract W D Hnok; simpl in *.
  - by destruct Hnok.
  - destruct (i >? cap); [by destruct Hnok|].
    destruct (process_line o m stop s W D) as [[W' D']|e] eqn:Hp; simpl.
    + apply IH. intros Hok. apply Hnok. constructor; [|done].
      intros Hin. destruct (decide ([] ∈ stop)) as [|Hstop]; [done|].
      by rewrite process_line_empty_token in Hp.
    + f_equal. by eapply process_line_raises.
Qed.

End indexing_result.

Section indexing_pass.
Import Indexer Corpus.
Context (o : hash_order).

Lemma read_files_ok (cap m : Z) (stop : list pystr) (files : list file)
    (prev : Z) (iAbstract : option Z) (W D : list pystr) :
  traversal_ok cap files prev iAbstract →
  Forall (line_ok stop) (visited cap files prev iAbstract) → NoDup W →
  ∃ W', read_files o cap m stop files prev iAbstract W D
        = Ok (W', D ++ (doc_id <$> visited cap files prev iAbstract))
    ∧ NoDup W'
    ∧ ∀ x, x ∈ W' ↔
        x ∈ W ∨ (x ∈ candidate_tokens (visited cap files prev iAbstract)
                 ∧ code_accepts m stop x).
Proof.
  revert prev iAbstract W D; induction files as [|f files IH];
    intros prev iAbstract W D; simpl.
  - intros _ _ HW. exists W. rewrite app_nil_r. split; [done|]. split; [done|].
    intros x. unfold candidate_tokens. simpl. rewrite elem_of_nil. tauto.
  - destruct (prev >? cap).
    { intros _ _ HW. exists W. rewrite app_nil_r. split; [done|]. split; [done|].
      intros x. unfold candidate_tokens. simpl. rewrite elem_of_nil. tauto. }
    destruct f as [|ls flt]; [done|].
    destruct (match flt with
              | None => last_index cap ls prev iAbstract
              | Some _ => break_index cap ls prev
              end) as [a|] eqn:Ha; [|done].
    intros Htrav Hok HW. apply Forall_app in Hok as [Hok1 Hok2].
    destruct (read_lines_ok o cap m stop ls flt prev iAbstract W D Hok1 HW)
      as (W1 & -> & HW1 & Hel1); [destruct flt; eauto|].
    simpl. rewrite Ha.
    destruct (IH a (Some a) W1 (D ++ (doc_id <$> visited_lines cap ls prev))
                Htrav Hok2 HW1) as (W2 & -> & HW2 & Hel2).
    exists W2. rewrite fmap_app, app_assoc. split; [done|]. split; [done|].
    intros x. rewrite Hel2, Hel1. unfold candidate_tokens.
    rewrite bind_app, elem_of_app. tauto.
Qed.

Lemma read_lines_last_index (cap m : Z) (stop ls : list pystr)
    (flt : option fault) (i : Z) (iAbstract : option Z)
    (W D W' D' : list pystr) (a : option Z) :
  read_lines o cap m stop ls flt i iAbstract W D = Ok (W', D', a) →
  a = match flt with
      | None => last_index cap ls i iAbstract
      | Some _ => break_index cap ls i
      end.
Proof.
  revert i iAbstract W D; induction ls as [|s ls IH];
    intros i iAbstract W D; simpl.
  - destruct flt as [[]|]; [done|done|]. by intros [= _ _ <-].
  - destruct (i >? cap); [destruct flt; by intros [= _ _ <-]|].
    destruct (process_line o m stop s W D) as [[W1 D1]|e]; simpl; [|done].
    apply IH.
Qed.

(** A pass that returns has traversed well and met no offending line. *)
Lemma read_files_returns (cap m : Z) (stop : list pystr) (files : list file)
    (prev : Z) (iAbstract : option Z) (W D W' D' : list pystr) :
  read_files o cap m stop files prev iAbstract W D = Ok (W', D') →
  traversal_ok cap files prev iAbstract
  ∧ Forall (line_ok stop) (visited cap files prev iAbstract).
Proof.
  revert prev iAbstract W D; induction files as [|f files IH];
    intros prev iAbstract W D; simpl; [done|].
  destruct (prev >? cap); [done|].
  destruct f as [|ls flt]; [done|].
  destruct (decide (Forall (line_ok stop) (visited_lines cap ls prev)))
    as [Hok|Hnok]; [|by rewrite read_lines_fails].
  destruct (read_lines o cap m stop ls flt prev iAbstract W D)
    as [[[W1 D1] a1]|e] eqn:Hr; simpl; [|done].
  apply read_lines_last_index in Hr as <-.
  destruct a1 as [a|]; [|done].
  intros [Htrav Hrest]%IH. split; [done|]. by apply Forall_app.
Qed.

(** Whenever the pass returns, the vocabulary is the sorted list of the
    distinct candidate tokens of the processed lines that the code accepts,
    and the axis lists the IDs of the processed lines in order. *)
Lemma get_words_and_documents_returns (files : list file) (cap m : Z)
    (stop W D : list pystr) :
  get_words_and_documents o files cap m stop = Ok (W, D) →
  W = code_vocabulary m stop (candidate_tokens (processed_lines files cap))
  ∧ D = doc_id <$> processed_lines files cap.
Proof.
  unfold get_words_and_documents.
  destruct (read_files o cap m stop files 0 None [] []) as [[W0 D0]|e] eqn:Hr;
    simpl; [|done].
  intros [= <- <-].
  destruct (read_files_returns _ _ _ _ _ _ _ _ _ _ Hr) as [Htrav Hok].
  destruct (read_files_ok cap m stop files 0 None [] [] Htrav Hok (NoDup_nil_2))
    as (W1 & Hr1 & HW1 & Hel1).
  rewrite Hr in Hr1. injection Hr1 as <- ->. split; [|done].
  apply sorted_unique. apply NoDup_Permutation; [done|apply NoDup_remove_dups|].
  intros x. rewrite Hel1, elem_of_remove_dups, list_elem_of_filter, elem_of_nil.
  unfold processed_lines. tauto.
Qed.

End indexing_pass.

(** ** How long the axis can get *)

Section axis_length.
Import Indexer Corpus.

Lemma visited_lines_length (cap : Z) (ls : list pystr) (i : Z)
    (iAbstract : option Z) :
  i ≤ cap + 1 →
  (ls = [] ∧ last_index cap ls i iAbstract = iAbstract)
  ∨ ∃ a, last_index cap ls i iAbstract = Some a ∧ i ≤ a ≤ cap + 1
      ∧ Z.of_nat (length (visited_lines cap ls i)) ≤ Z.min a cap - i + 1.
Proof.
  revert i iAbstract; induction ls as [|s ls IH]; intros i iAbstract Hi;
    [by left|].
  right. cbn [last_index visited_lines].
  destruct (Z.gtb_spec i cap) as [Hgt|Hle].
  - exists i. cbn. split; [done|]. lia.
  - destruct (IH (i + 1) (Some i)) as [[-> Hlast]|(a & Hlast & Ha & Hlen)];
      [lia| |].
    + exists i. cbn. split; [done|]. lia.
    + exists a. split; [done|]. cbn [length]. lia.
Qed.

(** A loop that is left by [break] has bound [iAbstract] to the index it
    is left at. *)
Lemma break_index_last (cap : Z) (ls : list pystr) (i : Z)
    (iAbstract : option Z) (a : Z) :
  break_index cap ls i = Some a → last_index cap ls i iAbstract = Some a.
Proof.
  revert i iAbstract; induction ls as [|s ls IH]; intros i iAbstract; [done|].
  cbn [break_index last_index]. destruct (i >? cap); [done|]. apply IH.
Qed.

Lemma visited_length_bound (cap : Z) (files : list file) (prev : Z) :
  prev ≤ cap + 1 →
  Z.of_nat (length (visited cap files prev (Some prev)))
  ≤ Z.max 0 (cap - prev) + Z.of_nat (length files).
Proof.
  revert prev; induction files as [|f files IH]; intros prev Hprev;
    [cbn; lia|].
  cbn [visited length]. destruct (Z.gtb_spec prev cap); [cbn; lia|].
  destruct f as [|ls flt]; [cbn; lia|]. rewrite length_app.
  destruct (visited_lines_length cap ls prev (Some prev))
    as [[-> Hlast]|(a & Hlast & Ha & Hlen)]; [lia| |].
  - destruct flt; [cbn; lia|]. rewrite Hlast.
    specialize (IH prev Hprev). cbn [visited_lines length]. lia.
  - destruct flt.
    + destruct (break_index cap ls prev) as [b|] eqn:Hb; [|cbn [length]; lia].
      rewrite (break_index_last _ _ _ (Some prev) _ Hb) in Hlast.
      injection Hlast as ->. specialize (IH a). lia.
    + rewrite Hlast. specialize (IH a). lia.
Qed.

(** The axis is never longer than the cap plus the number of files (and is
    empty when the cap is negative). *)
Lemma processed_lines_length (files : list file) (cap : Z) :
  Z.of_nat (length (processed_lines files cap))
  ≤ Z.max 0 (cap + Z.of_nat (length files)).
Proof.
  unfold processed_lines. destruct files as [|f files]; [cbn; lia|].
  cbn [visited length]. destruct (Z.gtb_spec 0 cap); [cbn; lia|].
  destruct f as [|ls flt]; [cbn; lia|]. rewrite length_app.
  destruct (visited_lines_length cap ls 0 None)
    as [[-> Hlast]|(a & Hlast & Ha & Hlen)]; [lia| |].
  - destruct flt; [cbn; lia|]. rewrite Hlast. cbn. lia.
  - pose proof (visited_length_bound cap files a).
    destruct flt.
    + destruct (break_index cap ls 0) as [b|] eqn:Hb; [|cbn [length]; lia].
      rewrite (break_index_last _ _ _ None _ Hb) in Hlast.
      injection Hlast as ->. lia.
    + rewrite Hlast. lia.
Qed.

Lemma axis_length_bound (o : hash_order) (files : list file) (cap m : Z)
    (stop W D : list pystr) :
  get_words_and_documents o files cap m stop = Ok (W, D) →
  Z.of_nat (length D) ≤ Z.max 0 (cap + Z.of_nat (length files)).
Proof.
  intros [_ ->]%get_words_and_documents_returns. rewrite length_fmap.
  apply processed_lines_length.
Qed.

End axis_length.

(** ** Dictionaries, counters and matrix cells *)

Section counting.
Import Indexer MatrixBuilder Corpus.

Lemma enumerate_dict_notin (i : nat) (keys : list pystr) (d : gmap pystr nat)
    (k : pystr) :
  k ∉ keys → enumerate_dict i keys d !! k = d !! k.
Proof.
  revert i d; induction keys as [|k0 keys IH]; intros i d Hk; simpl; [done|].
  apply not_elem_of_cons in Hk as [Hne Hk].
  rewrite IH by done. by rewrite lookup_insert_ne.
Qed.

Lemma enumerate_dict_lookup (i : nat) (keys : list pystr) (d : gmap pystr nat)
    (j : nat) (k : pystr) :
  NoDup keys → keys !! j = Some k →
  enumerate_dict i keys d !! k = Some (i + j)%nat.
Proof.
  revert i d j; induction keys as [|k0 keys IH]; intros i d j Hnd Hj;
    [done|]. simpl.
  apply NoDup_cons in Hnd as [Hk0 Hnd].
  destruct j as [|j]; simpl in Hj.
  - injection Hj as ->. rewrite enumerate_dict_notin by done.
    rewrite lookup_insert_eq. f_equal. lia.
  - rewrite (IH (S i) _ j) by done. f_equal. lia.
Qed.

Lemma enumerate_dict_elem_of (keys : list pystr) (k : pystr) :
  is_Some (enumerate_dict 0 keys ∅ !! k) → k ∈ keys.
Proof.
  intros Hk. destruct (decide (k ∈ keys)) as [|Hn]; [done|].
  rewrite enumerate_dict_notin, lookup_empty in Hk by done.
  by destruct Hk.
Qed.

(** The row of a word in the index built from a duplicate-free vocabulary. *)
Lemma word_index_row (W : list pystr) (w : pystr) (r : nat) :
  NoDup W → enumerate_dict 0 W ∅ !! w = Some r ↔ W !! r = Some w.
Proof.
  intros Hnd. split.
  - intros Hw. assert (w ∈ W) as Hin by (apply enumerate_dict_elem_of; eauto).
    apply list_elem_of_lookup in Hin as [r' Hr'].
    rewrite (enumerate_dict_lookup 0 W ∅ r' w Hnd Hr') in Hw.
    injection Hw as <-. done.
  - intros Hr. by rewrite (enumerate_dict_lookup 0 W ∅ r w Hnd Hr).
Qed.

Lemma counter_get_add (w k : pystr) (c : list (pystr * Z)) :
  counter_get w (counter_add k c)
  = if decide (w = k) then Some (default 0 (counter_get k c) + 1)
    else counter_get w c.
Proof.
  induction c as [|[k' n] c IH]; simpl.
  - destruct (decide (w = k)); done.
  - destruct (decide (k = k')) as [->|Hkk']; simpl.
    + destruct (decide (w = k')); simpl; done.
    + destruct (decide (w = k')) as [->|Hwk'].
      * by rewrite decide_False by done.
      * rewrite IH. destruct (decide (w = k)); [|done].
        by try rewrite decide_False by done.
Qed.

Lemma counter_add_keys (k : pystr) (c : list (pystr * Z)) :
  (counter_add k c).*1 = if decide (k ∈ c.*1) then c.*1 else c.*1 ++ [k].
Proof.
  induction c as [|[k' n] c IH]; [done|]. cbn [counter_add].
  destruct (decide (k = k')) as [->|Hkk']; rewrite !fmap_cons; cbn [fst].
  - rewrite decide_True by left. done.
  - rewrite IH. destruct (decide (k ∈ c.*1)) as [Hin|Hnin].
    + rewrite decide_True by by right. done.
    + rewrite decide_False; [done|]. intros [?|?]%elem_of_cons; done.
Qed.

Lemma Counter_fold (w : pystr) (l : list pystr) (c : list (pystr * Z)) :
  let c' := foldl (λ c k, counter_add k c) c l in
  NoDup c.*1 →
  NoDup c'.*1
  ∧ (∀ k, k ∈ c'.*1 ↔ k ∈ c.*1 ∨ k ∈ l)
  ∧ default 0 (counter_get w c')
    = default 0 (counter_get w c) + occurrences w l.
Proof.
  revert c; induction l as [|t l IH]; intros c; simpl.
  - intros Hnd. split; [done|]. split.
    + intros k. rewrite elem_of_nil. tauto.
    + unfold occurrences. simpl. lia.
  - intros Hnd.
    assert (NoDup (counter_add t c).*1) as Hnd'.
    { rewrite counter_add_keys. destruct (decide (t ∈ c.*1)); [done|].
      apply NoDup_app. split; [done|]. split; [|apply NoDup_singleton].
      intros x Hx ->%list_elem_of_singleton. done. }
    destruct (IH (counter_add t c) Hnd') as (Hnd'' & Hkeys & Hget).
    split; [done|]. split.
    + intros k. rewrite Hkeys, counter_add_keys, elem_of_cons.
      destruct (decide (t ∈ c.*1)) as [Hin|Hnin].
      * split; [tauto|]. intros [?|[->|?]]; auto.
      * rewrite elem_of_app, list_elem_of_singleton. tauto.
    + rewrite Hget, counter_get_add. unfold occurrences.
      rewrite filter_cons. destruct (decide (w = t)) as [->|Hne]; simpl; lia.
Qed.

Lemma counter_get_None (w : pystr) (c : list (pystr * Z)) :
  counter_get w c = None ↔ w ∉ c.*1.
Proof.
  induction c as [|[k n] c IH]; simpl.
  - split; [intros _; apply not_elem_of_nil|done].
  - destruct (decide (w = k)) as [->|Hne].
    + split; [done|]. intros Hn. destruct Hn. left.
    + rewrite IH, not_elem_of_cons. tauto.
Qed.

(** [Counter(tokens)] holds each token once, with its number of occurrences. *)
Lemma Counter_spec (l : list pystr) :
  NoDup (Counter l).*1
  ∧ (∀ k, k ∈ (Counter l).*1 ↔ k ∈ l)
  ∧ ∀ w, default 0 (counter_get w (Counter l)) = occurrences w l.
Proof.
  unfold Counter. split; [|split].
  - apply (Counter_fold [] l []). constructor.
  - intros k. destruct (Counter_fold [] l [] (NoDup_nil_2)) as (_ & Hk & _).
    rewrite Hk. simpl. rewrite elem_of_nil. tauto.
  - intros w. destruct (Counter_fold w l [] (NoDup_nil_2)) as (_ & _ & Hg).
    rewrite Hg. simpl. lia.
Qed.

End counting.

(** ** Filling the matrix *)

Section filling.
Import Indexer MatrixBuilder Corpus.

Lemma lil_set_ok (M : lil_matrix) (r c : nat) (v : Z) :
  (r < (shape M).1)%nat → (c < (shape M).2)%nat →
  ∃ M', lil_set M r c v = Ok M' ∧ shape M' = shape M
    ∧ ∀ r' c', lil_get M' r' c'
        = if decide ((r', c') = (r, c)) then v else lil_get M r' c'.
Proof.
  intros Hr Hc. unfold lil_set. rewrite decide_True by done.
  eexists. split; [done|]. split; [done|].
  intros r' c'. unfold lil_get. simpl.
  destruct (decide ((r', c') = (r, c))) as [->|Hne].
  - by rewrite lookup_insert_eq.
  - by rewrite lookup_insert_ne.
Qed.

Lemma write_counts_spec (WI DI : gmap pystr nat) (Tokens : list pystr)
    (C : list (pystr * Z)) (M : lil_matrix) (id : pystr) (c : nat) :
  head Tokens = Some id → DI !! id = Some c → (c < (shape M).2)%nat →
  NoDup C.*1 →
  (∀ k, k ∈ C.*1 → ∃ r, WI !! k = Some r ∧ (r < (shape M).1)%nat) →
  (∀ k k' r, WI !! k = Some r → WI !! k' = Some r → k = k') →
  ∃ M', write_counts WI DI Tokens C M = Ok M' ∧ shape M' = shape M
    ∧ (∀ k r, WI !! k = Some r →
         lil_get M' r c = default (lil_get M r c) (counter_get k C))
    ∧ (∀ r c', c' ≠ c → lil_get M' r c' = lil_get M r c').
Proof.
  intros Hid Hc Hcols Hnd Hkeys Hinj. revert M Hcols Hkeys.
  induction C as [|[k0 n0] C IH]; intros M Hcols Hkeys.
  - exists M. by repeat split.
  - rewrite fmap_cons in Hnd, Hkeys. cbn [fst] in *.
    apply NoDup_cons in Hnd as [Hk0 Hnd].
    destruct (Hkeys k0) as (r0 & Hr0 & Hrows); [left|].
    cbn [write_counts]. unfold getitem. rewrite Hr0.
    destruct Tokens as [|id' Tokens']; [done|]. injection Hid as ->.
    cbn. rewrite Hc. cbn.
    destruct (lil_set_ok M r0 c n0 Hrows Hcols) as (M1 & -> & Hsh1 & Hget1).
    cbn.
    destruct (IH Hnd M1) as (M' & -> & Hsh' & Hcol & Hoth).
    { by rewrite Hsh1. }
    { intros k Hk. rewrite Hsh1. apply Hkeys. by right. }
    exists M'. split; [done|]. split; [by rewrite Hsh', Hsh1|]. split.
    + intros k r Hk. rewrite (Hcol k r Hk), Hget1. cbn [counter_get].
      destruct (decide (k = k0)) as [->|Hne].
      * assert (r = r0) as -> by congruence.
        rewrite decide_True by done.
        apply counter_get_None in Hk0. by rewrite Hk0.
      * rewrite decide_False; [done|].
        intros [= ->]. apply Hne. by eapply Hinj.
    + intros r c' Hne. rewrite (Hoth r c' Hne), Hget1.
      rewrite decide_False; [done|]. by intros [= _ ->].
Qed.

Lemma occurrences_filter (P : pystr → Prop) `{∀ x, Decision (P x)}
    (w : pystr) (l : list pystr) :
  P w → occurrences w (filter P l) = occurrences w l.
Proof.
  intros Hw. unfold occurrences. f_equal. f_equal.
  induction l as [|t l IH]; [done|].
  rewrite !filter_cons. destruct (decide (P t)) as [Ht|Ht].
  - rewrite filter_cons. destruct (decide (w = t)); by rewrite IH.
  - rewrite IH. destruct (decide (w = t)) as [->|]; done.
Qed.

Lemma head_split_on (s : pystr) :
  head (split_on SPACE (strip s)) = Some (doc_id s).
Proof.
  unfold doc_id. pose proof (split_on_nonempty SPACE (strip s)).
  by destruct (split_on SPACE (strip s)).
Qed.

(** One line fills its column with the counts of the vocabulary words. *)
Lemma fill_line_spec (W : list pystr) (DI : gmap pystr nat) (s : pystr)
    (M : lil_matrix) (c : nat) :
  NoDup W → (shape M).1 = length W →
  DI !! doc_id s = Some c → (c < (shape M).2)%nat →
  (∀ r, lil_get M r c = 0) →
  ∃ M', fill_line (enumerate_dict 0 W ∅) DI s M = Ok M' ∧ shape M' = shape M
    ∧ (∀ r w, W !! r = Some w → lil_get M' r c = occurrences w (doc_tokens s))
    ∧ (∀ r c', c' ≠ c → lil_get M' r c' = lil_get M r c').
Proof.
  intros HW Hrows Hc Hcols Hzero. unfold fill_line.
  set (WI := enumerate_dict 0 W ∅).
  set (toks := filter (λ t, is_Some (WI !! t)) (tail (split_on SPACE (strip s)))).
  destruct (Counter_spec toks) as (Hnd & Hkeys & Hcount).
  destruct (write_counts_spec WI DI (split_on SPACE (strip s)) (Counter toks)
              M (doc_id s) c) as (M' & -> & Hsh & Hcol & Hoth); try done.
  - apply head_split_on.
  - intros k Hk. apply Hkeys in Hk. unfold toks in Hk.
    apply list_elem_of_filter in Hk as [[r Hr] _]. exists r. split; [done|].
    rewrite Hrows. apply word_index_row in Hr; [|done].
    by eapply lookup_lt_Some.
  - intros k k' r Hk Hk'. apply word_index_row in Hk, Hk'; try done. congruence.
  - exists M'. split; [done|]. split; [done|]. split; [|done].
    intros r w Hr. apply word_index_row in Hr; [|done].
    rewrite (Hcol w r Hr), Hzero, Hcount. unfold toks.
    apply (occurrences_filter (λ t, is_Some (WI !! t))). by eexists.
Qed.

(** The lines of the axis, filled in order, give every cell the count of its
    word in its document. *)
Lemma fill_all_spec (W D : list pystr) (L1 L2 : list pystr) (M : lil_matrix) :
  NoDup W → NoDup D → D = doc_id <$> (L1 ++ L2) →
  shape M = (length W, length D) →
  (∀ r c, (length L1 ≤ c)%nat → lil_get M r c = 0) →
  ∃ M', fill_all (enumerate_dict 0 W ∅) (enumerate_dict 0 D ∅) L2 M = Ok M'
    ∧ shape M' = shape M
    ∧ (∀ r w c s, W !! r = Some w → L2 !! c = Some s →
         lil_get M' r (length L1 + c) = occurrences w (doc_tokens s))
    ∧ (∀ r c, (c < length L1)%nat → lil_get M' r c = lil_get M r c).
Proof.
  intros HW HD. revert L1 M. induction L2 as [|s L2 IH];
    intros L1 M HDL Hsh Hzero.
  - exists M. by repeat split.
  - cbn [fill_all].
    assert (D !! length L1 = Some (doc_id s)) as Hcol.
    { rewrite HDL, fmap_app, lookup_app_r by by rewrite length_fmap.
      by rewrite length_fmap, Nat.sub_diag. }
    destruct (fill_line_spec W (enumerate_dict 0 D ∅) s M (length L1))
      as (M1 & -> & Hsh1 & Hcell1 & Hoth1); try done.
    + by rewrite Hsh.
    + by rewrite (enumerate_dict_lookup 0 D ∅ (length L1) (doc_id s)).
    + rewrite Hsh. simpl. by eapply lookup_lt_Some.
    + intros r. by apply Hzero.
    + cbn.
      destruct (IH (L1 ++ [s]) M1) as (M' & -> & Hsh' & Hcell' & Hoth').
      * by rewrite <- app_assoc.
      * by rewrite Hsh1.
      * intros r c Hc. rewrite length_app in Hc. simpl in Hc.
        rewrite Hoth1 by lia. apply Hzero. lia.
      * exists M'. split; [done|]. split; [by rewrite Hsh', Hsh1|]. split.
        -- intros r w c s' Hr Hs'. destruct c as [|c]; simpl in Hs'.
           ++ injection Hs' as ->. rewrite Nat.add_0_r.
              rewrite Hoth' by (rewrite length_app; simpl; lia).
              by apply Hcell1.
           ++ rewrite <- (Hcell' r w c s' Hr Hs'). f_equal.
              rewrite length_app. simpl. lia.
        -- intros r c Hc. rewrite Hoth' by (rewrite length_app; lia).
           apply Hoth1. lia.
Qed.

End filling.

(** ** The counting pass visits the lines of the indexing pass *)

Section second_pass.
Import Indexer MatrixBuilder Corpus.

Lemma fill_all_app (WI DI : gmap pystr nat) (l1 l2 : list pystr)
    (M : lil_matrix) :
  fill_all WI DI (l1 ++ l2) M
  = fill_all WI DI l1 M ≫= fill_all WI DI l2.
Proof.
  revert M; induction l1 as [|s l1 IH]; intros M; [done|].
  cbn [app fill_all]. destruct (fill_line WI DI s M) as [M'|e]; cbn; [|done].
  apply IH.
Qed.

Lemma fill_lines_visited (cap : Z) (WI DI : gmap pystr nat) (ls : list pystr)
    (i : Z) (iAbstract : option Z) (M : lil_matrix) :
  fill_lines cap WI DI ls None i iAbstract M
  = M' ← fill_all WI DI (visited_lines cap ls i) M;
    Ok (M', last_index cap ls i iAbstract).
Proof.
  revert i iAbstract M; induction ls as [|s ls IH]; intros i iAbstract M;
    [done|].
  cbn [fill_lines visited_lines last_index].
  destruct (i >? cap); [done|]. cbn [fill_all].
  destruct (fill_line WI DI s M) as [M'|e]; cbn; [|done]. apply IH.
Qed.

Lemma visited_lines_past_cap (cap : Z) (ls : list pystr) (i : Z) :
  cap < i → visited_lines cap ls i = [].
Proof.
  intros Hi. destruct ls as [|s ls]; [done|]. simpl.
  by destruct (Z.gtb_spec i cap); [|lia].
Qed.

Lemma last_index_past_cap (cap : Z) (ls : list pystr) (i : Z) :
  cap < i → last_index cap ls i (Some i) = Some i.
Proof.
  intros Hi. destruct ls as [|s ls]; [done|]. simpl.
  by destruct (Z.gtb_spec i cap); [|lia].
Qed.

Lemma last_index_bound (cap : Z) (ls : list pystr) (i : Z) (a : Z) :
  is_Some (last_index cap ls i (Some a)).
Proof.
  revert i a; induction ls as [|s ls IH]; intros i a; simpl; [by eexists|].
  destruct (i >? cap); [by eexists|]. apply IH.
Qed.

Lemma visited_past_cap (cap : Z) (files : list file) (prev : Z)
    (iAbstract : option Z) :
  cap < prev → visited cap files prev iAbstract = [].
Proof.
  intros Hi. destruct files as [|f files]; [done|]. simpl.
  by destruct (Z.gtb_spec prev cap); [|lia].
Qed.

(** Once a line has bound [iAbstract], the counting pass visits the lines
    the indexing pass visits. *)
Lemma fill_files_bound (cap : Z) (WI DI : gmap pystr nat) (files : list file)
    (prev : Z) (M : lil_matrix) :
  Forall readable files →
  fill_files cap WI DI files prev (Some prev) M
  = fill_all WI DI (visited cap files prev (Some prev)) M.
Proof.
  intros Hr. revert prev M. induction Hr as [|f files Hf Hr IH];
    intros prev M; [done|].
  destruct f as [|ls [flt|]]; [done|done|]. cbn [fill_files visited].
  rewrite fill_lines_visited.
  destruct (Z.gtb_spec prev cap) as [Hgt|Hle].
  - rewrite visited_lines_past_cap, last_index_past_cap by done. cbn.
    rewrite IH. by rewrite visited_past_cap.
  - rewrite fill_all_app.
    destruct (fill_all WI DI (visited_lines cap ls prev) M) as [M'|e]; cbn;
      [|done].
    destruct (last_index_bound cap ls prev prev) as [a ->]. apply IH.
Qed.

Lemma fill_files_visited (cap : Z) (WI DI : gmap pystr nat)
    (files : list file) (M : lil_matrix) :
  0 ≤ cap → Forall readable files → traversal_ok cap files 0 None →
  fill_files cap WI DI files 0 None M
  = fill_all WI DI (processed_lines files cap) M.
Proof.
  intros Hcap Hr Htrav. unfold processed_lines.
  destruct Hr as [|f files Hf Hr]; [done|].
  destruct f as [|ls [flt|]]; [done|done|].
  cbn [fill_files visited traversal_ok] in *.
  rewrite fill_lines_visited.
  destruct (Z.gtb_spec 0 cap) as [Hgt|Hle]; [lia|].
  rewrite fill_all_app.
  destruct (fill_all WI DI (visited_lines cap ls 0) M) as [M'|e]; cbn; [|done].
  destruct (last_index cap ls 0 None) as [a|]; [|done].
  by apply fill_files_bound.
Qed.

Lemma Zsum_seq_lookup {A} (f : nat → Z) (g : A → Z) (L : list A) (k : nat) :
  (∀ c s, L !! c = Some s → f (k + c)%nat = g s) →
  Zsum (f <$> seq k (length L)) = Zsum (g <$> L).
Proof.
  revert k; induction L as [|s L IH]; intros k Hfg; [done|].
  cbn [length seq]. rewrite !fmap_cons. cbn [Zsum foldr].
  change (foldr Z.add 0 ?l) with (Zsum l).
  rewrite (IH (S k)).
  - rewrite <- (Hfg 0%nat s) by done. by rewrite Nat.add_0_r.
  - intros c s' Hc. rewrite <- (Hfg (S c) s') by done. f_equal. lia.
Qed.

Lemma Zsum_indicator (W : list pystr) (t : pystr) :
  NoDup W →
  Zsum ((λ w, if decide (w = t) then 1 else 0) <$> W)
  = if decide (t ∈ W) then 1 else 0.
Proof.
  induction 1 as [|w W Hw Hnd IH]; [done|].
  rewrite fmap_cons. cbn [Zsum foldr]. change (foldr Z.add 0 ?l) with (Zsum l).
  rewrite IH. destruct (decide (w = t)) as [->|Hne].
  - rewrite (decide_False (P := t ∈ W)) by done.
    by rewrite (decide_True (P := t ∈ t :: W)) by left.
  - destruct (decide (t ∈ W)) as [Hin|Hnin].
    + by rewrite (decide_True (P := t ∈ w :: W)) by by right.
    + rewrite (decide_False (P := t ∈ w :: W)); [done|].
      intros [?|?]%elem_of_cons; done.
Qed.

Lemma Zsum_add {A} (f g : A → Z) (l : list A) :
  Zsum ((λ x, f x + g x) <$> l) = Zsum (f <$> l) + Zsum (g <$> l).
Proof.
  induction l as [|x l IH]; [done|]. rewrite !fmap_cons. cbn [Zsum foldr].
  change (foldr Z.add 0 ?l) with (Zsum l). lia.
Qed.

Lemma Zsum_ext {A} (f g : A → Z) (l : list A) :
  (∀ x, f x = g x) → Zsum (f <$> l) = Zsum (g <$> l).
Proof.
  intros Hfg. induction l as [|x l IH]; [done|]. rewrite !fmap_cons.
  cbn [Zsum foldr]. change (foldr Z.add 0 ?l) with (Zsum l). by rewrite Hfg, IH.
Qed.

(** Summed over a duplicate-free vocabulary, the counts of a document are
    the number of its tokens that are vocabulary words. *)
Lemma Zsum_occurrences (W l : list pystr) :
  NoDup W →
  Zsum ((λ w, occurrences w l) <$> W) = Z.of_nat (length (filter (.∈ W) l)).
Proof.
  intros HW. induction l as [|t l IH].
  - unfold occurrences. simpl. induction W as [|w W IHW]; [done|].
    rewrite fmap_cons. cbn [Zsum foldr]. change (foldr Z.add 0 ?l) with (Zsum l).
    apply NoDup_cons in HW as [_ HW]. by rewrite IHW.
  - rewrite filter_cons.
    rewrite (Zsum_ext _ (λ w, (if decide (w = t) then 1 else 0)
                               + occurrences w l)).
    + rewrite Zsum_add, Zsum_indicator, IH by done.
      destruct (decide (t ∈ W)); simpl; lia.
    + intros w. unfold occurrences. rewrite filter_cons.
      destruct (decide (w = t)); simpl; lia.
Qed.

End second_pass.

(** C1 (amended).  When every file of the list can be opened and read to
    its end, the cap is not negative, the indexing pass returns a
    vocabulary and an axis, and the document IDs on the axis are pairwise
    distinct, then [build_matrix] run
    on the same files and cap with that vocabulary and axis returns a matrix
    with one row per vocabulary word and one column per document in which
    every word's row sums to its number of occurrences in the processed
    documents and every processed document's column sums to the number of
    its tokens that are vocabulary words. *)
Theorem build_matrix_consistent (o : hash_order) (files : list Indexer.file)
    (cap m : Z) (stop W D : list pystr) :
  0 ≤ cap → Forall readable files →
  Indexer.get_words_and_documents o files cap m stop = Ok (W, D) →
  NoDup D →
  ∃ M, MatrixBuilder.build_matrix files W D cap = Ok M
    ∧ MatrixBuilder.shape M = (length W, length D)
    ∧ consistent files cap W M.
Proof.
  intros Hcap Hread Hgwd HD.
  destruct (get_words_and_documents_returns o files cap m stop W D Hgwd)
    as [HWeq HDeq].
  assert (NoDup W) as HW.
  { rewrite HWeq. apply NoDup_sorted, NoDup_remove_dups. }
  assert (traversal_ok cap files 0 None) as Htrav.
  { unfold Indexer.get_words_and_documents in Hgwd.
    destruct (Indexer.read_files o cap m stop files 0 None [] [])
      as [[W0 D0]|e] eqn:Hr; [|done].
    by destruct (read_files_returns _ _ _ _ _ _ _ _ _ _ _ Hr). }
  unfold MatrixBuilder.build_matrix.
  rewrite fill_files_visited by done.
  destruct (fill_all_spec W D [] (Corpus.processed_lines files cap)
              (MatrixBuilder.lil_zeros (length W) (length D)))
    as (M & -> & Hsh & Hcell & _); try done.
  exists M. split; [done|]. split; [done|].
  assert (length D = length (Corpus.processed_lines files cap)) as Hlen
    by by rewrite HDeq, length_fmap.
  split.
  - intros r w Hr. unfold MatrixBuilder.row_sum, total_occurrences.
    rewrite Hsh. cbn [snd MatrixBuilder.shape MatrixBuilder.lil_zeros].
    rewrite Hlen. apply Zsum_seq_lookup.
    intros c s Hs. by apply (Hcell r w c s).
  - intros c s Hs. unfold MatrixBuilder.col_sum, vocabulary_words_in.
    rewrite Hsh. cbn [fst MatrixBuilder.shape MatrixBuilder.lil_zeros].
    rewrite <- (Zsum_occurrences W) by done.
    apply Zsum_seq_lookup. intros r w Hr. by apply (Hcell r w c s).
Qed.

Lemma build_matrix_consistent_witness :
  ∃ M, MatrixBuilder.build_matrix
         [Indexer.Lines [str "1 foo bar foo" ++ [LF]; str "2 foo zed" ++ [LF]]]
         [str "bar"; str "foo"; str "zed"] [str "1"; str "2"] 10 = Ok M
    ∧ MatrixBuilder.shape M = (3%nat, 2%nat)
    ∧ consistent
        [Indexer.Lines [str "1 foo bar foo" ++ [LF]; str "2 foo zed" ++ [LF]]]
        10 [str "bar"; str "foo"; str "zed"] M.
Proof.
  apply (build_matrix_consistent insertion_order
           [Indexer.Lines [str "1 foo bar foo" ++ [LF]; str "2 foo zed" ++ [LF]]]
           10 2 [] [str "bar"; str "foo"; str "zed"] [str "1"; str "2"]).
  - lia.
  - repeat constructor.
  - reflexivity.
  - apply (bool_decide_unpack _). by vm_compute.
Defined.

(** The other two premises are needed as well: the counting pass opens the
    files the indexing pass left unopened after reaching the cap, and with a
    negative cap it still reads [iAbstract] after an empty first file. *)
Example build_matrix_opens_every_file :
  Indexer.get_words_and_documents insertion_order
    [Indexer.Lines [str "1 a" ++ [LF]; str "2 a" ++ [LF]; str "3 a" ++ [LF]];
     Indexer.Unreadable] 1 1 []
  = Ok ([str "a"], [str "1"; str "2"])
  ∧ MatrixBuilder.build_matrix
      [Indexer.Lines [str "1 a" ++ [LF]; str "2 a" ++ [LF]; str "3 a" ++ [LF]];
       Indexer.Unreadable] [str "a"] [str "1"; str "2"] 1
    = Raise OSError.
Proof. split; reflexivity. Qed.

Example build_matrix_negative_cap :
  Indexer.get_words_and_documents insertion_order [Indexer.Lines []] (-1) 1 []
  = Ok ([], [])
  ∧ MatrixBuilder.build_matrix [Indexer.Lines []] [] [] (-1)
    = Raise UnboundLocalError.
Proof. split; reflexivity. Qed.

(** C1 as stated fails when two processed lines carry the same document ID:
    both lines write to the column of the later one, so the word's row sums
    to 1 although it occurs twice, and the first column sums to 0. *)
Lemma duplicate_ids_not_consistent :
  ∃ M, Indexer.get_words_and_documents insertion_order
         [Indexer.Lines [str "1 foo" ++ [LF]; str "1 foo" ++ [LF]]] 10 2 []
       = Ok ([str "foo"], [str "1"; str "1"])
    ∧ MatrixBuilder.build_matrix
        [Indexer.Lines [str "1 foo" ++ [LF]; str "1 foo" ++ [LF]]]
        [str "foo"] [str "1"; str "1"] 10 = Ok M
    ∧ MatrixBuilder.row_sum M 0 = 1
    ∧ total_occurrences (str "foo")
        (Corpus.processed_lines
           [Indexer.Lines [str "1 foo" ++ [LF]; str "1 foo" ++ [LF]]] 10) = 2
    ∧ ¬ consistent
          [Indexer.Lines [str "1 foo" ++ [LF]; str "1 foo" ++ [LF]]] 10
          [str "foo"] M.
Proof.
  eexists. split; [reflexivity|]. split; [reflexivity|].
  split; [reflexivity|]. split; [reflexivity|].
  intros [Hrow _]. specialize (Hrow 0%nat (str "foo") eq_refl).
  vm_compute in Hrow. discriminate.
Qed.

(** ** The counting pass keeps the shape of the matrix *)

Section matrix_shape.
Import Indexer MatrixBuilder.

Lemma enumerate_dict_bound (i : nat) (keys : list pystr) (d : gmap pystr nat)
    (k : pystr) (r : nat) :
  enumerate_dict i keys d !! k = Some r →
  (i ≤ r < i + length keys)%nat ∨ d !! k = Some r.
Proof.
  revert i d; induction keys as [|k0 keys IH]; intros i d; simpl; [by right|].
  intros [Hr|Hr]%IH; [left; lia|].
  destruct (decide (k0 = k)) as [->|Hne].
  - rewrite lookup_insert_eq in Hr. injection Hr as <-. left. lia.
  - rewrite lookup_insert_ne in Hr by done. by right.
Qed.

Lemma write_counts_shape (WI DI : gmap pystr nat) (Tokens : list pystr)
    (C : list (pystr * Z)) (M M' : lil_matrix) :
  write_counts WI DI Tokens C M = Ok M' → shape M' = shape M.
Proof.
  revert M. induction C as [|[w n] C IH]; intros M; [by intros [= ->]|].
  cbn [write_counts]. unfold getitem.
  destruct (WI !! w) as [r|]; cbn; [|done].
  destruct Tokens as [|sID Tokens']; [done|]. cbn.
  destruct (DI !! sID) as [c|]; cbn; [|done].
  unfold lil_set. destruct (decide _); cbn; [|done].
  intros Hw. by rewrite (IH _ Hw).
Qed.

Lemma fill_lines_shape (cap : Z) (WI DI : gmap pystr nat) (ls : list pystr)
    (flt : option fault) (i : Z) (iAbstract a : option Z) (M M' : lil_matrix) :
  fill_lines cap WI DI ls flt i iAbstract M = Ok (M', a) → shape M' = shape M.
Proof.
  revert i iAbstract M; induction ls as [|s ls IH]; intros i iAbstract M.
  - cbn. destruct flt as [[]|]; [done|done|]. by intros [= -> _].
  - cbn [fill_lines]. destruct (i >? cap); [by intros [= -> _]|].
    destruct (fill_line WI DI s M) as [M1|e] eqn:Hs; cbn; [|done].
    intros Hl. rewrite (IH _ _ _ Hl). by eapply write_counts_shape.
Qed.

(** The counting pass keeps the shape the matrix is created with. *)
Lemma fill_files_shape (cap : Z) (WI DI : gmap pystr nat) (files : list file)
    (prev : Z) (iAbstract : option Z) (M M' : lil_matrix) :
  fill_files cap WI DI files prev iAbstract M = Ok M' → shape M' = shape M.
Proof.
  revert prev iAbstract M; induction files as [|f files IH];
    intros prev iAbstract M; [by intros [= ->]|].
  destruct f as [|ls flt]; cbn [fill_files]; [done|].
  destruct (fill_lines cap WI DI ls flt prev iAbstract M) as [[M1 a]|e] eqn:Hl;
    cbn; [|done].
  destruct a as [a|]; [|done].
  intros Hf. rewrite (IH _ _ _ Hf). by eapply fill_lines_shape.
Qed.

End matrix_shape.

(** ** [BuildSubset]: the policy per identifier *)

Section assembler.
Import Assembler.
Context `{Builtins}.
Context (fs : pystr → fs_entry) (sPubMedDir : pystr) (iMaxAbstracts : Z).

(** A list of identifiers that are all skipped is read to its end or to the
    cap: the run returns normally, writes no output line, and reports each
    identifier it reads. *)
Lemma BuildSubset_rows_skipped (rows : list pystr) (iRow : Z) (st : streams) :
  Forall (skipped fs sPubMedDir) rows → iRow + Z.of_nat (length rows) ≤ iMaxAbstracts →
  ∃ msgs, BuildSubset_rows fs sPubMedDir iMaxAbstracts rows iRow st
          = ({| strOut := strOut st; strErr := strErr st ++ msgs |}, None)
    ∧ length msgs = length rows.
Proof.
  intros Hs. revert iRow st. induction Hs as [|id rows Hid Hs IH];
    intros iRow st Hcap.
  - exists []. rewrite app_nil_r. by destruct st.
  - cbn [BuildSubset_rows]. cbn [length] in Hcap.
    destruct (Z.geb_spec iRow iMaxAbstracts); [lia|].
    unfold skipped, file_of, id_of in Hid.
    destruct (fs _) as [| | |s]; try done.
    + destruct (IH (iRow + 1)
                  (write_err (NotFound (strip_tag (py_lower id))) st))
        as (msgs & -> & Hlen); [lia|].
      exists (NotFound (strip_tag (py_lower id)) :: msgs). cbn.
      rewrite <- app_assoc. split; [done|]. by rewrite Hlen.
    + rewrite Hid.
      destruct (IH (iRow + 1)
                  (write_err
                     (EmptyFile (txt_name sPubMedDir (strip_tag (py_lower id))))
                     st))
        as (msgs & -> & Hlen); [lia|].
      exists (EmptyFile (txt_name sPubMedDir (strip_tag (py_lower id))) :: msgs).
      cbn. rewrite <- app_assoc. split; [done|]. by rewrite Hlen.
Qed.

End assembler.

(** The subdirectories of the identifiers 7, 123456, 1234567 and of the
    tagged identifier [pmid00099999]. *)
Example subdir_examples :
  Assembler.subdir_of (str "7") = str "0000"
  ∧ Assembler.subdir_of (str "123456") = str "0012"
  ∧ Assembler.subdir_of (str "1234567") = str "0123"
  ∧ Assembler.subdir_of (id_of (H := ascii_builtins) (str "pmid00099999"))
    = str "0009".
Proof. repeat split; reflexivity. Qed.

(** ** The importer's identifiers *)

Section importer.
Import Importer.

Lemma skip_empty_lines_shorter (sTitle : pystr) (unread : list pystr)
    (t : pystr) (rest : list pystr) :
  skip_empty_lines sTitle unread = Some (t, rest) →
  (length rest ≤ length unread)%nat.
Proof.
  revert sTitle; induction unread as [|l unread IH]; intros sTitle.
  - destruct sTitle; simpl; [done|]. by intros [= _ <-].
  - destruct sTitle as [|c sTitle]; simpl; [|intros [= _ <-]; simpl; lia].
    destruct l as [|c l]; [done|]. intros Hs%IH. simpl. lia.
Qed.

(** One call: at end of file nothing is written; otherwise at least one
    line is consumed, and either one record is written under [iID] and
    [iID + 1] is returned, or nothing is written and [iID] is returned. *)
Lemma ProcessNextAbstract_step (st : streams) (iID : Z) :
  let '(r, st') := ProcessNextAbstract st iID in
  match r with
  | None => index_written st' = index_written st
            ∧ corpus_written st' = corpus_written st
  | Some n =>
      (length (strIn st') < length (strIn st))%nat
      ∧ ((n = iID + 1 ∧ index_written st' = index_written st ++ [iID]
          ∧ corpus_written st' = corpus_written st ++ [iID])
         ∨ (n = iID ∧ index_written st' = index_written st
            ∧ corpus_written st' = corpus_written st))
  end.
Proof.
  unfold ProcessNextAbstract, readline at 1.
  destruct (strIn st) as [|l unread] eqn:Hin; [done|].
  destruct l as [|c l]; [done|]. cbn [strIn].
  destruct (skip_empty_lines (strip (c :: l)) unread) as [[t rest]|] eqn:Hs;
    [|done].
  apply skip_empty_lines_shorter in Hs.
  unfold set_unread, readline. cbn [strIn strOut strIndex stderr].
  destruct rest as [|a rest]; cbn [strIn strOut strIndex stderr].
  { destruct t; cbn; (split; [simpl in *; lia|right; done]). }
  destruct rest as [|x rest]; cbn [strIn strOut strIndex stderr].
  { destruct t, (strip a); cbn; (split; [simpl in *; lia|right; done]). }
  unfold index_written, corpus_written.
  destruct t, (strip a), (strip x); cbn [strIn strOut strIndex stderr];
    (split; [simpl in *; lia|]); try (right; done).
  left. by rewrite !fmap_app.
Qed.

Lemma seqZ_snoc (m k : Z) : 0 ≤ k → seqZ m (k + 1) = seqZ m k ++ [m + k].
Proof.
  intros Hk. by rewrite seqZ_app by lia.
Qed.

(** The loop returns, and the IDs it writes continue the sequence. *)
Lemma main_loop_sequential (fuel : nat) (iNewID : option Z) (st : streams)
    (first : Z) :
  (length (strIn st) < fuel)%nat ∨ iNewID = None →
  (∀ n, iNewID = Some n → 1 ≤ first ≤ n
        ∧ index_written st = seqZ first (n - first)
        ∧ corpus_written st = seqZ first (n - first)) →
  (iNewID = None → ∃ k, 0 ≤ k ∧ index_written st = seqZ first k
                        ∧ corpus_written st = seqZ first k) →
  ∃ st' k, main_loop fuel iNewID st = Some st' ∧ 0 ≤ k
    ∧ index_written st' = seqZ first k ∧ corpus_written st' = seqZ first k.
Proof.
  revert iNewID st. induction fuel as [|fuel IH]; intros iNewID st Hfuel Hsome Hnone.
  - destruct Hfuel as [Hfuel| ->]; [lia|].
    destruct (Hnone eq_refl) as (k & Hk & Hi & Hc). by exists st, k.
  - destruct iNewID as [n|].
    2:{ destruct (Hnone eq_refl) as (k & Hk & Hi & Hc). by exists st, k. }
    destruct (Hsome n eq_refl) as (Hn & Hi & Hc).
    destruct n as [|p|p]; [lia| |lia]. cbn [main_loop].
    pose proof (ProcessNextAbstract_step st (Z.pos p)) as Hstep.
    destruct (ProcessNextAbstract st (Z.pos p)) as [r st'].
    destruct r as [n'|].
    + destruct Hstep as [Hlen Hcases]. apply IH.
      * left. destruct Hfuel as [Hfuel|]; [lia|done].
      * intros ? [= <-].
        destruct Hcases as [(-> & Hi' & Hc')|(-> & Hi' & Hc')].
        -- rewrite Hi', Hc', Hi, Hc.
           replace (Z.pos p + 1 - first) with (Z.pos p - first + 1) by lia.
           rewrite seqZ_snoc by lia.
           replace (first + (Z.pos p - first)) with (Z.pos p) by lia.
           split; [lia|done].
        -- rewrite Hi', Hc'. split; [lia|done].
      * done.
    + destruct Hstep as [Hi' Hc']. apply IH.
      * by right.
      * done.
      * intros _. exists (Z.pos p - first). rewrite Hi', Hc'.
        split; [lia|done].
Qed.

End importer.

Section importer_records.
Import Importer.

Lemma skip_empty_lines_title (sTitle : pystr) (unread : list pystr) :
  sTitle ≠ [] → skip_empty_lines sTitle unread = Some (sTitle, unread).
Proof. intros Ht. by destruct unread, sTitle. Qed.

Lemma skip_blank_lines (blanks : list pystr) (title : pystr)
    (rest : list pystr) :
  Forall blank blanks → strip title ≠ [] →
  skip_empty_lines [] (blanks ++ title :: rest) = Some (strip title, rest).
Proof.
  intros Hb Ht. induction Hb as [|b blanks [Hne Hb] _ IH]; cbn.
  - destruct title as [|c title]; [done|].
    by apply skip_empty_lines_title.
  - destruct b as [|c b]; [done|]. by rewrite Hb.
Qed.

(** The title of the next record, after the blank lines before it. *)
Lemma read_title (blanks : list pystr) (title : pystr) (rest : list pystr)
    (st : streams) :
  Forall blank blanks → strip title ≠ [] →
  strIn st = blanks ++ title :: rest →
  ∃ l unread, strIn st = l :: unread ∧ l ≠ []
    ∧ skip_empty_lines (strip l) unread = Some (strip title, rest).
Proof.
  intros Hb Ht Hin. destruct Hb as [|b blanks [Hne Hb] Hbs].
  - exists title, rest. split; [done|]. split; [by intros ->|].
    by apply skip_empty_lines_title.
  - exists b, (blanks ++ title :: rest). split; [done|]. split; [done|].
    rewrite Hb. by apply skip_blank_lines.
Qed.

End importer_records.

(** The example of the specification: the index ends with ID 42, a record
    with a blank authors line is dropped, and the next record gets ID 43. *)
Example importer_example :
  Importer.initial_id (H := ascii_builtins)
    (Some [index_line "41" "Ann" "First"; index_line "42" "Bob" "Second"])
  = Ok 43
  ∧ (Importer.strIndex <$>
       Importer.main
         [str "Title one" ++ [LF]; [LF]; str "text one" ++ [LF]; [LF]; [LF];
          str "Title two" ++ [LF]; str "Cy" ++ [LF]; str "text  two" ++ [LF]]
         43)
    = Some [(43, str "Cy", str "Title two")].
Proof. split; reflexivity. Qed.

(** ** Sorting by key *)

Section sort_keyed.
Context {K A : Type} (leb : K → K → bool).
Context (leb_total : ∀ x y, leb x y = true ∨ leb y x = true).
Context (leb_trans : ∀ x y z, leb x y = true → leb y z = true → leb x z = true).

Lemma insert_by_Permutation (x : K * A) (l : list (K * A)) :
  insert_by leb x l ≡ₚ x :: l.
Proof.
  induction l as [|y l IH]; [done|]. cbn [insert_by].
  destruct (leb x.1 y.1); [done|]. rewrite IH. apply Permutation_swap.
Qed.

Lemma sort_keyed_Permutation (l : list (K * A)) : sort_keyed leb l ≡ₚ l.
Proof.
  induction l as [|x l IH]; [done|]. unfold sort_keyed in *. cbn [foldr].
  by rewrite insert_by_Permutation, IH.
Qed.



End sort_keyed.

(** ** The sampling tool *)

Section sampler.
Import Sampler.
Context `{Builtins}.

Lemma retained_app (Iv : list Z) (d n : Z) (l1 l2 : list txt_file) :
  retained Iv d n (l1 ++ l2)
  = retained Iv d n l1 ++ retained Iv d (n + Z.of_nat (length l1)) l2.
Proof.
  revert n; induction l1 as [|f l1 IH]; intros n.
  - cbn. by rewrite Z.add_0_r.
  - cbn [app retained length]. rewrite IH.
    replace (n + 1 + Z.of_nat (length l1)) with (n + Z.of_nat (S (length l1)))
      by lia.
    by destruct (bool_decide _).
Qed.


Lemma sort_files_good (files : list txt_file) :
  Forall good files →
  sort_files files
  = Some (snd <$> sort_keyed Z.leb
                    ((λ f, (default 0 (file_key f), f)) <$> files)).
Proof.
  intros Hg. unfold sort_files.
  assert (mapM (λ f, k ← file_key f; Some (k, f)) files
          = Some ((λ f, (default 0 (file_key f), f)) <$> files)) as ->; [|done].
  induction Hg as [|f files [_ [k Hk]] Hg IH]; [done|].
  cbn. rewrite Hk. cbn. by rewrite IH.
Qed.

Lemma files_in_order_Permutation (d : subdir) :
  files_in_order d ≡ₚ default [] (txt_files d).
Proof.
  unfold files_in_order. rewrite sort_keyed_Permutation.
  rewrite <- list_fmap_compose. by rewrite list_fmap_id.
Qed.

Lemma sort_subdirs_Permutation (dirs : list subdir) :
  sort_subdirs dirs ≡ₚ dirs.
Proof.
  unfold sort_subdirs. rewrite sort_keyed_Permutation.
  rewrite <- list_fmap_compose. by rewrite list_fmap_id.
Qed.

End sampler.

Section sampler_scan.
Import Sampler.
Context `{Builtins}.

(** Reading a list of good files: every file is counted, and the retained
    ones are written in order. *)
Lemma scan_files_good (Iv : list Z) (d iNthDir iSubdirs : Z)
    (files : list txt_file) (st : state) :
  d ≠ 0 → Forall good files →
  ∃ msgs,
    scan_files Iv d iNthDir iSubdirs files st
    = ({| iFilesInAll := iFilesInAll st + Z.of_nat (length files);
          iProcessed :=
            iProcessed st
            + Z.of_nat (length (retained Iv d (iFilesInAll st) files));
          strOut :=
            strOut st ++ (line_of <$> retained Iv d (iFilesInAll st) files);
          stderr := stderr st ++ msgs |}, None).
Proof.
  intros Hd Hg. revert st. induction Hg as [|f files Hf Hg IH]; intros st.
  - exists []. destruct st; cbn. rewrite !app_nil_r, !Z.add_0_r. done.
  - cbn [scan_files retained length].
    destruct (Z.eqb_spec d 0) as [|_]; [done|].
    set (msgs0 := if (iFilesInAll st + 1) `mod` iUpdateInterval =? 0
                  then [Progress iNthDir iSubdirs (iFilesInAll st + 1)
                          (iProcessed st)]
                  else []).
    assert ((if (iFilesInAll st + 1) `mod` iUpdateInterval =? 0
             then stderr st ++ [Progress iNthDir iSubdirs (iFilesInAll st + 1)
                                  (iProcessed st)]
             else stderr st) = stderr st ++ msgs0) as ->.
    { unfold msgs0. destruct (_ =? 0); [done|by rewrite app_nil_r]. }
    destruct (bool_decide ((iFilesInAll st + 1) `mod` d ∈ Iv)); cbn [negb].
    + destruct Hf as [Hdata [id Hid]].
      destruct (data f) as [|s] eqn:Hs; [done|].
      destruct (strip (py_lower s)) as [|c sData] eqn:Hstrip; [done|].
      rewrite Hid.
      cbn [iFilesInAll iProcessed strOut stderr].
      edestruct IH as [msgs ->].
      exists (msgs0 ++ msgs).
      cbn [iFilesInAll iProcessed strOut stderr length fmap list_fmap].
      unfold line_of at 2. rewrite Hs, Hstrip, Hid. cbn [default].
      f_equal. f_equal; [lia|lia| |]; by rewrite <- app_assoc.
    + edestruct IH as [msgs ->].
      exists (msgs0 ++ msgs).
      cbn [iFilesInAll iProcessed strOut stderr].
      f_equal. f_equal; [lia|by rewrite <- app_assoc].
Qed.

(** Reading a list of good subdirectories in the order given. *)
Lemma scan_dirs_good (Iv : list Z) (d iSubdirs : Z) (dirs : list subdir)
    (iNthDir : Z) (st : state) :
  d ≠ 0 → Forall good_dir dirs →
  ∃ msgs,
    scan_dirs Iv d iSubdirs dirs iNthDir st
    = ({| iFilesInAll :=
            iFilesInAll st + Z.of_nat (length (dirs ≫= files_in_order));
          iProcessed :=
            iProcessed st
            + Z.of_nat (length (retained Iv d (iFilesInAll st)
                                  (dirs ≫= files_in_order)));
          strOut :=
            strOut st
            ++ (line_of <$> retained Iv d (iFilesInAll st)
                              (dirs ≫= files_in_order));
          stderr := stderr st ++ msgs |}, None).
Proof.
  intros Hd Hg. revert iNthDir st.
  induction Hg as [|dir dirs Hdir Hg IH]; intros iNthDir st.
  - exists []. destruct st; cbn. rewrite !app_nil_r, !Z.add_0_r. done.
  - cbn [scan_dirs]. unfold good_dir in Hdir.
    destruct (txt_files dir) as [files|] eqn:Hfiles; [|done].
    cbn [mbind option_bind]. rewrite sort_files_good by done.
    assert (snd <$> sort_keyed Z.leb
                      ((λ f, (default 0 (file_key f), f)) <$> files)
            = files_in_order dir) as ->.
    { unfold files_in_order. by rewrite Hfiles. }
    assert (Forall good (files_in_order dir)) as Hgo.
    { rewrite files_in_order_Permutation, Hfiles. done. }
    destruct (scan_files_good Iv d iNthDir iSubdirs (files_in_order dir) st
                Hd Hgo) as [msgs1 ->].
    edestruct IH as [msgs2 ->].
    exists (msgs1 ++ msgs2).
    cbn [iFilesInAll iProcessed strOut stderr].
    rewrite bind_cons, retained_app, length_app, fmap_app, length_app.
    f_equal. f_equal; [lia|lia| |]; by rewrite <- app_assoc.
Qed.

End sampler_scan.

Section sampler_order.
Import Sampler.
Context `{Builtins}.







Lemma bind_Permutation_pointwise {A B} (f g : A → list B) (l : list A) :
  (∀ x, f x ≡ₚ g x) → l ≫= f ≡ₚ l ≫= g.
Proof.
  intros Hfg. induction l as [|x l IH]; [done|].
  by rewrite !bind_cons, Hfg, IH.
Qed.

(** The traversal reads every listed file once. *)
Lemma traversal_Permutation (dirs : list subdir) : traversal dirs ≡ₚ listed dirs.
Proof.
  unfold traversal, listed. rewrite sort_subdirs_Permutation.
  apply bind_Permutation_pointwise. apply files_in_order_Permutation.
Qed.

End sampler_order.


(** ** The demonstration tree *)

Section demo_tree.
Import Ascii_builtins.

Lemma decimal_aux_digits (fuel : nat) (n : N) (acc : pystr) :
  Forall (λ c, is_digit c = true) acc →
  Forall (λ c, is_digit c = true) (decimal_aux fuel n acc).
Proof.
  revert n acc; induction fuel as [|fuel IH]; intros n acc Hacc; [done|].
  cbn [decimal_aux].
  assert (Forall (λ c, is_digit c = true) ((DIGIT0 + n `mod` 10)%N :: acc))
    as Hacc'.
  { constructor; [|done]. unfold is_digit, DIGIT0, DIGIT9.
    assert (n `mod` 10 < 10)%N as Hlt by by apply N.mod_upper_bound.
    revert Hlt. generalize (n `mod` 10)%N. intros x Hx.
    apply andb_true_iff. rewrite !N.leb_le. lia. }
  destruct (n <? 10)%N; [done|]. by apply IH.
Qed.

Lemma decimal_aux_nonempty (fuel : nat) (n : N) (acc : pystr) :
  decimal_aux (S fuel) n acc ≠ [].
Proof.
  revert n acc; induction fuel as [|fuel IH]; intros n acc.
  - cbn. by destruct (n <? 10)%N.
  - cbn [decimal_aux]. destruct (n <? 10)%N; [done|]. apply IH.
Qed.

Lemma lstrip_digits (s : pystr) :
  Forall (λ c, is_digit c = true) s → lstrip s = s.
Proof.
  intros [|c s' Hc _]; [done|]. cbn [lstrip].
  assert (isspace c = false) as ->; [|done].
  unfold is_digit, DIGIT0, DIGIT9 in Hc.
  apply andb_true_iff in Hc as [H1 H2]. apply N.leb_le in H1, H2.
  unfold isspace.
  rewrite (proj2 (N.leb_gt c 13)), (proj2 (N.leb_gt c 32)),
    (proj2 (N.leb_gt 8192 c)) by lia.
  rewrite !(proj2 (N.eqb_neq c _)) by lia.
  by rewrite !andb_false_r.
Qed.

Lemma strip_digits (s : pystr) :
  Forall (λ c, is_digit c = true) s → strip s = s.
Proof.
  intros Hs. unfold strip, rstrip. rewrite (lstrip_digits s Hs).
  rewrite lstrip_digits by by apply Forall_reverse.
  apply reverse_involutive.
Qed.

Lemma digits_value_Some (acc : Z) (s : pystr) :
  Forall (λ c, is_digit c = true) s → is_Some (digits_value acc s).
Proof.
  intros Hs. revert acc. induction Hs as [|c s Hc Hs IH]; intros acc;
    [by eexists|].
  cbn [digits_value]. rewrite Hc. apply IH.
Qed.

Lemma int_of_digits (s : pystr) :
  s ≠ [] → Forall (λ c, is_digit c = true) s → is_Some (int_of s).
Proof.
  intros Hne Hs. unfold int_of. rewrite strip_digits by done.
  destruct Hs as [|c s Hc Hs]; [done|].
  assert ((c =? HYPHEN)%N = false ∧ (c =? PLUS)%N = false) as [-> ->].
  { unfold is_digit, DIGIT0, DIGIT9, HYPHEN, PLUS in *.
    apply andb_true_iff in Hc as [H1 H2]. apply N.leb_le in H1, H2.
    split; apply N.eqb_neq; lia. }
  apply digits_value_Some. by constructor.
Qed.

Lemma lstrip_chars_tag (s : pystr) :
  Forall (λ c, is_digit c = true) s →
  lstrip_chars (str "PMID") (str "PMID" ++ s) = s.
Proof.
  intros Hs. change (str "PMID") with [80; 77; 73; 68]%N.
  cbn [app lstrip_chars].
  rewrite !bool_decide_eq_true_2 by (rewrite !elem_of_cons; tauto).
  destruct Hs as [|c s Hc Hs]; [done|]. cbn [lstrip_chars].
  rewrite bool_decide_eq_false_2; [done|].
  unfold is_digit, DIGIT0, DIGIT9 in Hc.
  apply andb_true_iff in Hc as [H1 H2]. apply N.leb_le in H1, H2.
  rewrite !elem_of_cons, elem_of_nil. lia.
Qed.

Lemma demo_file_good (n : nat) : good (H := ascii_builtins) (demo_file n).
Proof.
  split; [done|]. unfold Sampler.file_key, demo_file, decimal.
  cbn [Sampler.stem py_int ascii_builtins].
  rewrite lstrip_chars_tag by (apply decimal_aux_digits; constructor).
  apply int_of_digits; [apply decimal_aux_nonempty|].
  apply decimal_aux_digits. constructor.
Qed.




End demo_tree.


(** The tool on a small tree, keeping one file in two: the files are read
    as 3, 10, 11, 20, 21 and the second and fourth are retained. *)
Example build_subset_small :
  (Sampler.strOut
     (Sampler.build_subset (H := ascii_builtins)
        (Some [ {| Sampler.name := str "0002";
                   Sampler.txt_files := Some [demo_file 21; demo_file 20] |};
                {| Sampler.name := str "0001";
                   Sampler.txt_files :=
                     Some [demo_file 10; demo_file 3; demo_file 11] |} ])
        1 2).1).*1
  = [10; 20].
Proof. reflexivity. Qed.

(** * Further properties *)

(** ** The indexing pass: outcomes *)

Section indexing_outcomes.
Import Indexer Corpus.
Context (o : hash_order).

Lemma traversal_ok_bound (cap : Z) (files : list file) (prev a : Z) :
  Forall readable files → traversal_ok cap files prev (Some a).
Proof.
  intros Hr. revert prev a. induction Hr as [|f files Hf Hr IH]; intros prev a;
    [done|].
  cbn [traversal_ok]. destruct (prev >? cap); [done|].
  destruct f as [|ls [flt|]]; [done|done|].
  destruct (last_index_bound cap ls prev a) as [b ->]. apply IH.
Qed.

Lemma traversal_ok_readable (cap : Z) (files : list file) :
  Forall readable files → first_file_nonempty files →
  traversal_ok cap files 0 None.
Proof.
  intros Hr Hne. destruct Hr as [|f files Hf Hr]; [done|].
  cbn [traversal_ok]. destruct (0 >? cap) eqn:Hcap; [done|].
  destruct f as [|ls [flt|]]; [done|done|]. cbn in Hne.
  destruct ls as [|l ls]; [done|]. cbn [last_index]. rewrite Hcap.
  destruct (last_index_bound cap ls (0 + 1) 0) as [b ->].
  by apply traversal_ok_bound.
Qed.

Lemma read_files_fails (cap m : Z) (stop : list pystr) (files : list file)
    (prev : Z) (iAbstract : option Z) (W D : list pystr) :
  NoDup W →
  ¬ Forall (line_ok stop) (visited cap files prev iAbstract) →
  read_files o cap m stop files prev iAbstract W D = Raise IndexError.
Proof.
  revert prev iAbstract W D; induction files as [|f files IH];
    intros prev iAbstract W D HW Hnok; cbn [read_files visited] in *.
  - by destruct Hnok.
  - destruct (prev >? cap); [by destruct Hnok|].
    destruct f as [|ls flt]; [by destruct Hnok|].
    destruct (decide (Forall (line_ok stop) (visited_lines cap ls prev)))
      as [Hok|Hbad]; [|by rewrite read_lines_fails].
    destruct (match flt with
              | None => last_index cap ls prev iAbstract
              | Some _ => break_index cap ls prev
              end) as [a|] eqn:Ha.
    + destruct (read_lines_ok o cap m stop ls flt prev iAbstract W D Hok HW)
        as (W1 & -> & HW1 & _); [destruct flt; eauto|]. cbn. rewrite Ha.
      apply IH; [done|]. intros Hrest. apply Hnok. by apply Forall_app.
    + destruct Hnok. rewrite app_nil_r. done.
Qed.

(** A loop that is not left by [break] runs into the failing read. *)
Lemma read_lines_fault (cap m : Z) (stop ls : list pystr) (e : fault) (i : Z)
    (iAbstract : option Z) (W D : list pystr) :
  Forall (line_ok stop) (visited_lines cap ls i) →
  break_index cap ls i = None →
  read_lines o cap m stop ls (Some e) i iAbstract W D
  = Raise match e with
          | DecodeFault => UnicodeDecodeError
          | ReadFault => SystemExit 1
          end.
Proof.
  revert i iAbstract W D; induction ls as [|s ls IH];
    intros i iAbstract W D; cbn [read_lines visited_lines break_index].
  - by destruct e.
  - destruct (i >? cap); [done|]. intros [Hs Hok]%Forall_cons Hb.
    destruct (process_line_ok o m stop s W D Hs) as (W1 & -> & _). cbn.
    by apply IH.
Qed.

Lemma read_files_faults (cap m : Z) (stop : list pystr) (files : list file)
    (prev : Z) (iAbstract : option Z) (W D : list pystr) :
  NoDup W →
  Forall (line_ok stop) (visited cap files prev iAbstract) →
  ¬ traversal_ok cap files prev iAbstract →
  read_files o cap m stop files prev iAbstract W D = Raise UnboundLocalError
  ∨ read_files o cap m stop files prev iAbstract W D = Raise (SystemExit 1)
  ∨ read_files o cap m stop files prev iAbstract W D
    = Raise UnicodeDecodeError.
Proof.
  revert prev iAbstract W D; induction files as [|f files IH];
    intros prev iAbstract W D HW Hok Hnt;
    cbn [read_files visited traversal_ok] in *.
  - by destruct Hnt.
  - destruct (prev >? cap); [by destruct Hnt|].
    destruct f as [|ls flt]; [by right; left|].
    apply Forall_app in Hok as [Hok1 Hok2].
    destruct (match flt with
              | None => last_index cap ls prev iAbstract
              | Some _ => break_index cap ls prev
              end) as [a|] eqn:Ha.
    + destruct (read_lines_ok o cap m stop ls flt prev iAbstract W D Hok1 HW)
        as (W1 & -> & HW1 & _); [destruct flt; eauto|]. cbn. rewrite Ha.
      by apply IH.
    + destruct flt as [e|].
      * rewrite read_lines_fault by done. destruct e; auto.
      * destruct (read_lines_ok o cap m stop ls None prev iAbstract W D Hok1 HW)
          as (W1 & -> & HW1 & _); [auto|]. cbn. rewrite Ha. by left.
Qed.

Lemma get_words_and_documents_lines_ok (files : list file) (cap m : Z)
    (stop W D : list pystr) :
  get_words_and_documents o files cap m stop = Ok (W, D) →
  traversal_ok cap files 0 None
  ∧ Forall (line_ok stop) (processed_lines files cap).
Proof.
  unfold get_words_and_documents.
  destruct (read_files o cap m stop files 0 None [] []) as [[W0 D0]|e] eqn:Hr;
    [|done].
  intros _. by eapply read_files_returns.
Qed.

Lemma get_words_and_documents_ok (files : list file) (cap m : Z)
    (stop : list pystr) :
  traversal_ok cap files 0 None →
  Forall (line_ok stop) (processed_lines files cap) →
  get_words_and_documents o files cap m stop
  = Ok (code_vocabulary m stop (candidate_tokens (processed_lines files cap)),
        doc_id <$> processed_lines files cap).
Proof.
  intros Htrav Hok. unfold get_words_and_documents.
  destruct (read_files_ok o cap m stop files 0 None [] [] Htrav Hok NoDup_nil_2)
    as (W1 & -> & HW1 & Hel1). cbn. f_equal. f_equal.
  apply sorted_unique. apply NoDup_Permutation; [done|apply NoDup_remove_dups|].
  intros x. rewrite Hel1, elem_of_remove_dups, list_elem_of_filter, elem_of_nil.
  unfold processed_lines. tauto.
Qed.

End indexing_outcomes.

(** ** The indexing pass: empty lines *)

Section empty_lines.
Import Indexer Corpus.

Lemma doc_tokens_blank (s : pystr) : strip s = [] → doc_tokens s = [].
Proof. unfold doc_tokens. by intros ->. Qed.

Lemma doc_id_blank (s : pystr) : strip s = [] → doc_id s = [].
Proof. unfold doc_id. by intros ->. Qed.

(** A line without tokens adds nothing to the candidate tokens. *)
Lemma candidate_tokens_delete (lines : list pystr) (c : nat) (s : pystr) :
  lines !! c = Some s → doc_tokens s = [] →
  candidate_tokens (delete c lines) = candidate_tokens lines.
Proof.
  intros Hc Hs. unfold candidate_tokens.
  rewrite <- (take_drop_middle lines c s Hc) at 2.
  rewrite delete_take_drop, !bind_app, bind_cons, Hs. done.
Qed.

Lemma line_ok_blank (stop : list pystr) (s : pystr) :
  strip s = [] → line_ok stop s.
Proof.
  intros Hs. unfold line_ok. rewrite doc_tokens_blank by done.
  by intros ?%elem_of_nil.
Qed.

End empty_lines.

(** C6.  An empty line (a line of whitespace only) among the processed
    lines does not stop the indexing pass, whatever the corpus.  Either
    [get_words_and_documents] returns, and then the axis lists the IDs of
    all the processed lines in order, those after the empty line included,
    with the empty string at the position of the empty line, and the
    vocabulary is the one drawn from the other processed lines; or it
    raises, and then the traversal of the files is not in order or another
    processed line has an empty token that is not a stopword. *)
Theorem empty_line_takes_a_slot (o : hash_order) (files : list Indexer.file)
    (cap m : Z) (stop : list pystr) (c : nat) (s : pystr) :
  Corpus.processed_lines files cap !! c = Some s → strip s = [] →
  match Indexer.get_words_and_documents o files cap m stop with
  | Ok (W, D) =>
      D = Corpus.doc_id <$> Corpus.processed_lines files cap
      ∧ D !! c = Some []
      ∧ W = code_vocabulary m stop
              (Corpus.candidate_tokens
                 (delete c (Corpus.processed_lines files cap)))
  | Raise e =>
      ¬ (traversal_ok cap files 0 None
         ∧ Forall (line_ok stop) (delete c (Corpus.processed_lines files cap)))
  end.
Proof.
  intros Hc Hs.
  destruct (Indexer.get_words_and_documents o files cap m stop)
    as [[W D]|e] eqn:Hg.
  - apply get_words_and_documents_returns in Hg as [-> ->].
    split; [done|]. split.
    + by rewrite list_lookup_fmap, Hc, <- (doc_id_blank s Hs).
    + by rewrite (candidate_tokens_delete _ c s Hc (doc_tokens_blank s Hs)).
  - intros [Htrav Hok].
    assert (Forall (line_ok stop) (Corpus.processed_lines files cap)) as Hall.
    { rewrite <- (take_drop_middle _ c s Hc).
      rewrite delete_take_drop in Hok. apply Forall_app in Hok as [Hpre Hpost].
      apply Forall_app. split; [done|]. constructor; [|done].
      by apply line_ok_blank. }
    by rewrite (get_words_and_documents_ok o files cap m stop Htrav Hall) in Hg.
Qed.

Lemma empty_line_takes_a_slot_witness :
  match Indexer.get_words_and_documents insertion_order
          [Indexer.Lines [str "7 alpha" ++ [LF]; [LF]; str "9 word" ++ [LF]]]
          10 2 [] with
  | Ok (W, D) =>
      D = Corpus.doc_id <$>
            Corpus.processed_lines
              [Indexer.Lines [str "7 alpha" ++ [LF]; [LF]; str "9 word" ++ [LF]]]
              10
      ∧ D !! 1%nat = Some []
      ∧ W = code_vocabulary 2 []
              (Corpus.candidate_tokens
                 (delete 1%nat
                    (Corpus.processed_lines
                       [Indexer.Lines
                          [str "7 alpha" ++ [LF]; [LF]; str "9 word" ++ [LF]]]
                       10)))
  | Raise e =>
      ¬ (traversal_ok 10
           [Indexer.Lines [str "7 alpha" ++ [LF]; [LF]; str "9 word" ++ [LF]]]
           0 None
         ∧ Forall (line_ok [])
             (delete 1%nat
                (Corpus.processed_lines
                   [Indexer.Lines
                      [str "7 alpha" ++ [LF]; [LF]; str "9 word" ++ [LF]]]
                   10)))
  end.
Proof.
  apply (empty_line_takes_a_slot insertion_order
           [Indexer.Lines [str "7 alpha" ++ [LF]; [LF]; str "9 word" ++ [LF]]]
           10 2 [] 1 [LF]).
  - reflexivity.
  - reflexivity.
Defined.

(** The run of the witness: the empty line stands between the two IDs. *)
Example empty_line_between_two (o : hash_order) :
  Indexer.get_words_and_documents o
    [Indexer.Lines [str "7 alpha" ++ [LF]; [LF]; str "9 word" ++ [LF]]] 10 2 []
  = Ok ([str "alpha"; str "word"], [str "7"; []; str "9"]).
Proof. by rewrite (get_words_and_documents_agree o insertion_order). Qed.

(** A file whose bytes cannot be decoded stops both passes with
    [UnicodeDecodeError] once its decoded lines are used up, unless the cap
    ends the loop before; a read that fails on the device makes the
    indexing pass exit and the counting pass raise [OSError]. *)
Example undecodable_file :
  Indexer.get_words_and_documents insertion_order
    [Indexer.Opened [str "1 alpha" ++ [LF]] (Some Indexer.DecodeFault)] 10 2 []
  = Raise UnicodeDecodeError
  ∧ MatrixBuilder.build_matrix
      [Indexer.Opened [str "1 alpha" ++ [LF]] (Some Indexer.DecodeFault)]
      [str "alpha"] [str "1"] 10
    = Raise UnicodeDecodeError
  ∧ Indexer.get_words_and_documents insertion_order
      [Indexer.Opened [str "1 alpha" ++ [LF]; str "2 beta" ++ [LF]]
         (Some Indexer.DecodeFault)] 0 2 []
    = Ok ([str "alpha"], [str "1"])
  ∧ Indexer.get_words_and_documents insertion_order
      [Indexer.Opened [str "1 alpha" ++ [LF]] (Some Indexer.ReadFault)] 10 2 []
    = Raise (SystemExit 1)
  ∧ MatrixBuilder.build_matrix
      [Indexer.Opened [str "1 alpha" ++ [LF]] (Some Indexer.ReadFault)]
      [str "alpha"] [str "1"] 10
    = Raise OSError.
Proof. repeat split; reflexivity. Qed.

(** X1.  When every file can be opened and read to its end, the first file
    holds a line, and no processed line has an empty token that is not a
    stopword,
    [get_words_and_documents] returns: the vocabulary is the sorted list of
    the distinct tokens of the processed lines that are no stopwords and
    pass the filter, and the axis lists the IDs of the processed lines in
    order. *)
Theorem indexing_pass_result (o : hash_order) (files : list Indexer.file)
    (cap m : Z) (stop : list pystr) :
  Forall readable files → first_file_nonempty files →
  Forall (line_ok stop) (Corpus.processed_lines files cap) →
  Indexer.get_words_and_documents o files cap m stop
  = Ok (code_vocabulary m stop
          (Corpus.candidate_tokens (Corpus.processed_lines files cap)),
        Corpus.doc_id <$> Corpus.processed_lines files cap).
Proof.
  intros Hr Hne Hok. apply get_words_and_documents_ok; [|done].
  by apply traversal_ok_readable.
Qed.

Lemma indexing_pass_result_witness :
  Indexer.get_words_and_documents insertion_order
    [Indexer.Lines [str "7 beta alpha 12 beta" ++ [LF]];
     Indexer.Lines [str "8 the gamma -x" ++ [LF]]] 10 2 [str "the"]
  = Ok ([str "alpha"; str "beta"; str "gamma"], [str "7"; str "8"]).
Proof.
  apply (indexing_pass_result insertion_order
           [Indexer.Lines [str "7 beta alpha 12 beta" ++ [LF]];
            Indexer.Lines [str "8 the gamma -x" ++ [LF]]] 10 2 [str "the"]).
  - repeat constructor.
  - done.
  - apply (bool_decide_unpack _). by vm_compute.
Defined.

(** X2.  The indexing pass fails in four ways only.  It raises [IndexError]
    exactly when a processed line has an empty token that is not a
    stopword; otherwise it raises [UnboundLocalError], exits with status 1
    or raises [UnicodeDecodeError] exactly when the traversal meets an
    empty first file, a file that cannot be opened or a read that fails (on
    the device, or on bytes that are not UTF-8) before the loop over the
    file is left; otherwise it returns. *)
Theorem indexing_pass_failures (o : hash_order) (files : list Indexer.file)
    (cap m : Z) (stop : list pystr) :
  match Indexer.get_words_and_documents o files cap m stop with
  | Ok _ =>
      Forall (line_ok stop) (Corpus.processed_lines files cap)
      ∧ traversal_ok cap files 0 None
  | Raise e =>
      (e = IndexError
       ∧ ¬ Forall (line_ok stop) (Corpus.processed_lines files cap))
      ∨ ((e = UnboundLocalError ∨ e = SystemExit 1 ∨ e = UnicodeDecodeError)
         ∧ Forall (line_ok stop) (Corpus.processed_lines files cap)
         ∧ ¬ traversal_ok cap files 0 None)
  end.
Proof.
  destruct (Indexer.get_words_and_documents o files cap m stop)
    as [[W D]|e] eqn:Hg.
  - apply get_words_and_documents_lines_ok in Hg. tauto.
  - destruct (decide (Forall (line_ok stop) (Corpus.processed_lines files cap)))
      as [Hok|Hbad].
    + right.
      assert (¬ traversal_ok cap files 0 None) as Hnt.
      { intros Htrav.
        by rewrite (get_words_and_documents_ok o files cap m stop Htrav Hok)
          in Hg. }
      unfold Indexer.get_words_and_documents in Hg.
      destruct (read_files_faults o cap m stop files 0 None [] []
                  NoDup_nil_2 Hok Hnt) as [Hr|[Hr|Hr]];
        rewrite Hr in Hg; injection Hg as <-; auto.
    + left. unfold Indexer.get_words_and_documents in Hg.
      rewrite (read_files_fails o cap m stop files 0 None [] [] NoDup_nil_2 Hbad)
        in Hg.
      injection Hg as <-. done.
Qed.

(** X3.  The document axis the indexing pass returns is never longer than
    the cap plus the number of files (and is empty when that sum is
    negative). *)
Theorem axis_no_longer_than_cap_plus_files (o : hash_order)
    (files : list Indexer.file) (cap m : Z) (stop W D : list pystr) :
  Indexer.get_words_and_documents o files cap m stop = Ok (W, D) →
  Z.of_nat (length D) ≤ Z.max 0 (cap + Z.of_nat (length files)).
Proof.
  intros [_ ->]%get_words_and_documents_returns. rewrite length_fmap.
  apply processed_lines_length.
Qed.

Lemma axis_no_longer_than_cap_plus_files_witness :
  Z.of_nat (length [str "7"; str "8"; str "9"])
  ≤ Z.max 0 (1 + Z.of_nat (length
      [Indexer.Lines [str "7 alpha" ++ [LF]; str "8 beta" ++ [LF]];
       Indexer.Lines [str "9 gamma" ++ [LF]]])).
Proof.
  apply (axis_no_longer_than_cap_plus_files insertion_order
           [Indexer.Lines [str "7 alpha" ++ [LF]; str "8 beta" ++ [LF]];
            Indexer.Lines [str "9 gamma" ++ [LF]]] 1 2 []
           [str "alpha"; str "beta"; str "gamma"]).
  by vm_compute.
Defined.

(** ** The indexing pass: the shape of the vocabulary *)

Section vocabulary_words.
Import Indexer Corpus.

Lemma rx_match_optional_last (p : N → bool) (s : pystr) :
  rx_match [Opt p] s = true.
Proof. destruct s as [|c s]; [done|]. cbn. by rewrite orb_true_r. Qed.

Lemma rx_match_rxNum_false (c : N) (t : pystr) :
  rx_match rxNum (c :: t) = false → is_num_char c = false.
Proof.
  change (rx_match rxNum (c :: t))
    with (is_sign c && rx_match [One is_num_char; Opt is_percent] t
          || is_num_char c && rx_match [Opt is_percent] t).
  rewrite rx_match_optional_last, andb_true_r.
  by intros [_ ?]%orb_false_iff.
Qed.

Lemma code_rejects_false (m : Z) (t : pystr) :
  code_rejects m t = false →
  contains [HYPHEN; HYPHEN] t = false
  ∧ m ≤ Z.of_nat (length t)
  ∧ ∀ c, head t = Some c → c ≠ HYPHEN ∧ is_num_char c = false.
Proof.
  unfold code_rejects. rewrite !orb_false_iff.
  intros [[[Hdd Hh] Hnum] Hlen]. split; [done|]. split; [lia|].
  intros c Hc. destruct t as [|c' t]; [done|]. injection Hc as ->.
  rewrite startswith_hyphen in Hh. apply N.eqb_neq in Hh.
  split; [done|]. by apply rx_match_rxNum_false in Hnum.
Qed.

Lemma empty_token_is_stopword (stop : list pystr) (lines : list pystr) :
  Forall (line_ok stop) lines → [] ∈ candidate_tokens lines → [] ∈ stop.
Proof.
  intros Hok (s & Hin & Hs)%list_elem_of_bind.
  rewrite Forall_forall in Hok. by apply (Hok s).
Qed.

End vocabulary_words.

(** X4.  A vocabulary the indexing pass returns is strictly ordered, so it
    has no duplicates, and each of its words is a token of a processed
    line that is no stopword, is not empty, has at least [iMinWordLength]
    characters, holds no double hyphen and starts with neither a hyphen,
    a digit, a period nor a comma. *)
Theorem vocabulary_shape (o : hash_order) (files : list Indexer.file)
    (cap m : Z) (stop W D : list pystr) :
  Indexer.get_words_and_documents o files cap m stop = Ok (W, D) →
  StronglySorted pystr_le W ∧ NoDup W
  ∧ ∀ w, w ∈ W →
      w ∈ Corpus.candidate_tokens (Corpus.processed_lines files cap)
      ∧ (w ∉ stop) ∧ w ≠ [] ∧ m ≤ Z.of_nat (length w)
      ∧ contains [HYPHEN; HYPHEN] w = false
      ∧ ∀ c, head w = Some c → c ≠ HYPHEN ∧ Indexer.is_num_char c = false.
Proof.
  intros Hg.
  destruct (get_words_and_documents_lines_ok o files cap m stop W D Hg)
    as [_ Hok].
  apply get_words_and_documents_returns in Hg as [-> _].
  unfold code_vocabulary.
  split; [apply sorted_StronglySorted|].
  split; [apply NoDup_sorted, NoDup_remove_dups|].
  intros w.
  rewrite elem_of_sorted, elem_of_remove_dups, list_elem_of_filter.
  intros [[Hstop Hrej] Hin].
  apply code_rejects_false in Hrej as (Hdd & Hlen & Hhead).
  repeat split; try done; try by apply Hhead.
  intros ->. apply Hstop. by eapply empty_token_is_stopword.
Qed.

Lemma vocabulary_shape_witness :
  StronglySorted pystr_le [str "alpha"; str "beta"; str "gamma"]
  ∧ NoDup [str "alpha"; str "beta"; str "gamma"]
  ∧ ∀ w, w ∈ [str "alpha"; str "beta"; str "gamma"] →
      w ∈ Corpus.candidate_tokens (Corpus.processed_lines
            [Indexer.Lines [str "7 beta alpha 12 beta" ++ [LF]];
             Indexer.Lines [str "8 the gamma -x" ++ [LF]]] 10)
      ∧ (w ∉ [str "the"]) ∧ w ≠ [] ∧ 2 ≤ Z.of_nat (length w)
      ∧ contains [HYPHEN; HYPHEN] w = false
      ∧ ∀ c, head w = Some c → c ≠ HYPHEN ∧ Indexer.is_num_char c = false.
Proof.
  apply (vocabulary_shape insertion_order
           [Indexer.Lines [str "7 beta alpha 12 beta" ++ [LF]];
            Indexer.Lines [str "8 the gamma -x" ++ [LF]]] 10 2 [str "the"]
           [str "alpha"; str "beta"; str "gamma"] [str "7"; str "8"]).
  by vm_compute.
Defined.

(** ** The indexing pass: the cap and the files *)

Section cap_and_files.
Import Indexer Corpus.

Lemma last_index_long (cap : Z) (ls : list pystr) (i : Z)
    (iAbstract : option Z) :
  i ≤ cap + 1 → cap + 1 - i < Z.of_nat (length ls) →
  last_index cap ls i iAbstract = Some (cap + 1).
Proof.
  revert i iAbstract; induction ls as [|s ls IH]; intros i iAbstract Hi Hlen;
    cbn [last_index length] in *; [lia|].
  destruct (Z.gtb_spec i cap); [f_equal; lia|].
  apply IH; lia.
Qed.

Lemma visited_lines_short (cap : Z) (ls : list pystr) (i : Z) :
  Z.of_nat (length ls) ≤ cap + 1 - i → visited_lines cap ls i = ls.
Proof.
  revert i; induction ls as [|s ls IH]; intros i Hlen;
    cbn [visited_lines length] in *; [done|].
  destruct (Z.gtb_spec i cap); [lia|]. f_equal. apply IH. lia.
Qed.

Lemma last_index_short (cap : Z) (ls : list pystr) (i : Z)
    (iAbstract : option Z) :
  Z.of_nat (length ls) ≤ cap + 1 - i →
  last_index cap ls i iAbstract
  = match ls with
    | [] => iAbstract
    | _ :: _ => Some (i + Z.of_nat (length ls) - 1)
    end.
Proof.
  revert i iAbstract; induction ls as [|s ls IH]; intros i iAbstract Hlen;
    cbn [last_index length] in *; [done|].
  destruct (Z.gtb_spec i cap); [lia|]. rewrite IH by lia.
  destruct ls; cbn [length]; f_equal; lia.
Qed.

Lemma all_lines_cons (ls : list pystr) (files : list file) :
  all_lines (Lines ls :: files) = ls ++ all_lines files.
Proof. done. Qed.

Lemma visited_short (cap : Z) (files : list file) (prev : Z) :
  Forall readable files →
  Z.of_nat (length (all_lines files)) ≤ cap + 1 - prev →
  visited cap files prev (Some prev) = all_lines files.
Proof.
  intros Hr. revert prev; induction Hr as [|f files Hf Hr IH]; intros prev Hlen;
    [done|].
  destruct f as [|ls [flt|]]; [done|done|]. rewrite all_lines_cons in *.
  rewrite length_app in Hlen. cbn [visited].
  destruct (Z.gtb_spec prev cap).
  { symmetry. apply nil_length_inv. rewrite length_app. lia. }
  rewrite visited_lines_short, last_index_short by lia. f_equal.
  destruct ls as [|l ls]; [apply IH; cbn [length] in *; lia|].
  apply IH. cbn [length] in *. lia.
Qed.

Lemma processed_lines_short (cap : Z) (files : list file) :
  Forall readable files → first_file_nonempty files →
  Z.of_nat (length (all_lines files)) ≤ cap + 1 →
  processed_lines files cap = all_lines files.
Proof.
  intros Hr Hne Hlen. unfold processed_lines.
  destruct Hr as [|f files Hf Hr]; [done|].
  destruct f as [|ls [flt|]]; [done|done|]. cbn in Hne.
  rewrite all_lines_cons in *.
  rewrite length_app in Hlen. cbn [visited].
  destruct ls as [|l ls]; [done|].
  destruct (Z.gtb_spec 0 cap); [cbn [length] in *; lia|].
  rewrite visited_lines_short, last_index_short by lia. f_equal.
  apply visited_short; [done|]. cbn [length] in *. lia.
Qed.

End cap_and_files.

(** X5.  Once a file has more lines than the cap admits, the files listed
    after it are never opened: the result is that of the first file
    alone, whatever follows it, readable or not. *)
Theorem files_after_cap_not_opened (o : hash_order) (ls : list pystr)
    (rest : list Indexer.file) (cap m : Z) (stop : list pystr) :
  0 ≤ cap → cap + 1 < Z.of_nat (length ls) →
  Indexer.get_words_and_documents o (Indexer.Lines ls :: rest) cap m stop
  = Indexer.get_words_and_documents o [Indexer.Lines ls] cap m stop.
Proof.
  intros Hcap Hlen. unfold Indexer.get_words_and_documents.
  cbn [Indexer.read_files]. destruct (Z.gtb_spec 0 cap); [lia|].
  destruct (Indexer.read_lines o cap m stop ls None 0 None [] [])
    as [[[W' D'] a]|e] eqn:Hr; [|done].
  apply read_lines_last_index in Hr.
  rewrite last_index_long in Hr by lia. subst a. cbn.
  destruct rest as [|f rest]; [done|]. cbn [Indexer.read_files].
  by destruct (Z.gtb_spec (cap + 1) cap); [|lia].
Qed.

Lemma files_after_cap_not_opened_witness :
  Indexer.get_words_and_documents insertion_order
    [Indexer.Lines [str "1 alpha" ++ [LF]; str "2 beta" ++ [LF];
                    str "3 gamma" ++ [LF]];
     Indexer.Unreadable] 1 2 []
  = Indexer.get_words_and_documents insertion_order
      [Indexer.Lines [str "1 alpha" ++ [LF]; str "2 beta" ++ [LF];
                      str "3 gamma" ++ [LF]]] 1 2 [].
Proof.
  apply (files_after_cap_not_opened insertion_order
           [str "1 alpha" ++ [LF]; str "2 beta" ++ [LF]; str "3 gamma" ++ [LF]]
           [Indexer.Unreadable] 1 2 []); [lia|cbn; lia].
Defined.

(** X6.  A corpus whose files can all be opened and read to the end, whose
    first file holds a line and which has at most [iMaxAbstracts + 1]
    lines altogether is read whole: if none of its lines has an empty token that is not a
    stopword, the axis lists the IDs of all lines in order and the
    vocabulary is drawn from all of them. *)
Theorem corpus_within_cap_read_whole (o : hash_order)
    (files : list Indexer.file) (cap m : Z) (stop : list pystr) :
  Forall readable files → first_file_nonempty files →
  Z.of_nat (length (all_lines files)) ≤ cap + 1 →
  Forall (line_ok stop) (all_lines files) →
  Indexer.get_words_and_documents o files cap m stop
  = Ok (code_vocabulary m stop (Corpus.candidate_tokens (all_lines files)),
        Corpus.doc_id <$> all_lines files).
Proof.
  intros Hr Hne Hlen Hok.
  rewrite <- (processed_lines_short cap files Hr Hne Hlen) in *.
  apply get_words_and_documents_ok; [|done].
  by apply traversal_ok_readable.
Qed.

Lemma corpus_within_cap_read_whole_witness :
  Indexer.get_words_and_documents insertion_order
    [Indexer.Lines [str "7 beta alpha" ++ [LF]; str "8 delta" ++ [LF]];
     Indexer.Lines [];
     Indexer.Lines [str "9 the gamma" ++ [LF]]] 2 2 [str "the"]
  = Ok ([str "alpha"; str "beta"; str "delta"; str "gamma"],
        [str "7"; str "8"; str "9"]).
Proof.
  apply (corpus_within_cap_read_whole insertion_order
           [Indexer.Lines [str "7 beta alpha" ++ [LF]; str "8 delta" ++ [LF]];
            Indexer.Lines [];
            Indexer.Lines [str "9 the gamma" ++ [LF]]] 2 2 [str "the"]).
  - repeat constructor.
  - done.
  - cbn. lia.
  - apply (bool_decide_unpack _). by vm_compute.
Defined.

(** ** The counting pass: cells, totality, duplicate IDs *)

Section counting_cells.
Import Indexer MatrixBuilder Corpus.

Lemma enumerate_dict_is_Some (i : nat) (keys : list pystr)
    (d : gmap pystr nat) (k : pystr) :
  k ∈ keys → is_Some (enumerate_dict i keys d !! k).
Proof.
  revert i d; induction keys as [|k0 keys IH]; intros i d Hk;
    [by apply elem_of_nil in Hk|].
  cbn [enumerate_dict]. destruct (decide (k ∈ keys)) as [Hin|Hnin];
    [by apply IH|].
  apply elem_of_cons in Hk as [->|Hk]; [|done].
  rewrite enumerate_dict_notin by done. rewrite lookup_insert_eq. by eexists.
Qed.

(** The index stored for a key is the position of its last occurrence. *)
Lemma enumerate_dict_last (i : nat) (keys : list pystr) (d : gmap pystr nat)
    (k : pystr) (c j : nat) :
  enumerate_dict i keys d !! k = Some c → keys !! j = Some k →
  (i + j ≤ c)%nat.
Proof.
  revert i d j; induction keys as [|k0 keys IH]; intros i d j Hc Hj; [done|].
  cbn [enumerate_dict] in Hc. destruct j as [|j]; cbn in Hj.
  - injection Hj as ->.
    apply enumerate_dict_bound in Hc as [Hc|Hc]; [lia|].
    rewrite lookup_insert_eq in Hc. injection Hc as <-. lia.
  - pose proof (IH (S i) _ j Hc Hj). lia.
Qed.

Lemma enumerate_dict_position (i : nat) (keys : list pystr)
    (d : gmap pystr nat) (k : pystr) (c : nat) :
  enumerate_dict i keys d !! k = Some c →
  (∃ j, c = (i + j)%nat ∧ keys !! j = Some k) ∨ d !! k = Some c.
Proof.
  revert i d; induction keys as [|k0 keys IH]; intros i d Hc; [by right|].
  cbn [enumerate_dict] in Hc. apply IH in Hc as [(j & -> & Hj)|Hc].
  - left. exists (S j). split; [lia|done].
  - destruct (decide (k0 = k)) as [->|Hne].
    + rewrite lookup_insert_eq in Hc. injection Hc as <-.
      left. exists 0%nat. split; [lia|done].
    + rewrite lookup_insert_ne in Hc by done. by right.
Qed.

Lemma write_counts_total (WI DI : gmap pystr nat) (Tokens : list pystr)
    (C : list (pystr * Z)) (M : lil_matrix) (id : pystr) (c : nat) :
  head Tokens = Some id → DI !! id = Some c → (c < (shape M).2)%nat →
  (∀ k, k ∈ C.*1 → ∃ r, WI !! k = Some r ∧ (r < (shape M).1)%nat) →
  ∃ M', write_counts WI DI Tokens C M = Ok M' ∧ shape M' = shape M.
Proof.
  intros Hid Hc. revert M. induction C as [|[k n] C IH]; intros M Hcol HC.
  - by exists M.
  - rewrite fmap_cons in HC. cbn [fst] in HC.
    destruct (HC k) as (r & Hr & Hrow); [left|].
    cbn [write_counts]. unfold getitem. rewrite Hr.
    destruct Tokens as [|id' T]; [done|]. injection Hid as ->.
    cbn. rewrite Hc. cbn.
    destruct (lil_set_ok M r c n Hrow Hcol) as (M1 & -> & Hsh & _). cbn.
    destruct (IH M1) as (M' & -> & Hsh').
    { by rewrite Hsh. }
    { intros k' Hk'. rewrite Hsh. apply HC. by right. }
    exists M'. split; [done|]. by rewrite Hsh'.
Qed.

Lemma head_tokens (s : pystr) :
  head (split_on SPACE (strip s)) = Some (doc_id s).
Proof.
  unfold doc_id. pose proof (split_on_nonempty SPACE (strip s)).
  by destruct (split_on SPACE (strip s)).
Qed.

Lemma fill_line_total (WI DI : gmap pystr nat) (s : pystr) (M : lil_matrix)
    (c : nat) :
  (∀ k r, WI !! k = Some r → (r < (shape M).1)%nat) →
  DI !! doc_id s = Some c → (c < (shape M).2)%nat →
  ∃ M', fill_line WI DI s M = Ok M' ∧ shape M' = shape M.
Proof.
  intros HWI Hc Hcol. unfold fill_line.
  apply (write_counts_total _ _ _ _ _ (doc_id s) c);
    [apply head_tokens|done|done|].
  intros k Hk.
  destruct (Counter_spec (filter (λ t, is_Some (WI !! t))
              (tail (split_on SPACE (strip s))))) as (_ & Hkeys & _).
  apply Hkeys, list_elem_of_filter in Hk as [[r Hr] _].
  exists r. split; [done|]. by eapply HWI.
Qed.

Lemma fill_all_total (WI DI : gmap pystr nat) (lines : list pystr)
    (M : lil_matrix) :
  (∀ k r, WI !! k = Some r → (r < (shape M).1)%nat) →
  Forall (λ s, ∃ c, DI !! doc_id s = Some c ∧ (c < (shape M).2)%nat) lines →
  ∃ M', fill_all WI DI lines M = Ok M' ∧ shape M' = shape M.
Proof.
  intros HWI Hlines. revert M HWI Hlines.
  induction lines as [|s lines IH]; intros M HWI Hlines; [by exists M|].
  apply Forall_cons in Hlines as [(c & Hc & Hcol) Hlines].
  cbn [fill_all].
  destruct (fill_line_total WI DI s M c HWI Hc Hcol) as (M1 & -> & Hsh). cbn.
  destruct (IH M1) as (M' & -> & Hsh').
  { intros k r Hr. rewrite Hsh. by eapply HWI. }
  { by rewrite Hsh. }
  exists M'. split; [done|]. by rewrite Hsh'.
Qed.

Lemma index_in_shape (keys : list pystr) (k : pystr) (r : nat) :
  enumerate_dict 0 keys ∅ !! k = Some r → (r < length keys)%nat.
Proof.
  intros [Hr|Hr]%enumerate_dict_bound; [lia|]. by rewrite lookup_empty in Hr.
Qed.

Lemma build_matrix_total (files : list file) (W D : list pystr) (cap : Z) :
  0 ≤ cap → Forall readable files → traversal_ok cap files 0 None →
  Forall (λ s, doc_id s ∈ D) (processed_lines files cap) →
  ∃ M, build_matrix files W D cap = Ok M
    ∧ shape M = (length W, length D).
Proof.
  intros Hcap Hr Htrav Hids. unfold build_matrix.
  rewrite fill_files_visited by done.
  apply (fill_all_total _ _ _ (lil_zeros (length W) (length D))).
  - intros k r Hk. by apply index_in_shape in Hk.
  - eapply Forall_impl; [exact Hids|]. intros s Hs.
    destruct (enumerate_dict_is_Some 0 D ∅ (doc_id s) Hs) as [c Hc].
    exists c. split; [done|]. by apply index_in_shape in Hc.
Qed.

Lemma lil_set_get (M M' : lil_matrix) (r c : nat) (v : Z) :
  lil_set M r c v = Ok M' →
  ∀ r' c', lil_get M' r' c'
    = if decide ((r', c') = (r, c)) then v else lil_get M r' c'.
Proof.
  intros Hset. pose proof Hset as Hset'. unfold lil_set in Hset'.
  destruct (decide _) as [[Hr Hc]|]; [|done].
  destruct (lil_set_ok M r c v Hr Hc) as (M1 & Heq & _ & Hget).
  rewrite Hset in Heq. by injection Heq as <-.
Qed.

(** A column that no document ID is mapped to is never written. *)
Lemma write_counts_frame (WI DI : gmap pystr nat) (Tokens : list pystr)
    (C : list (pystr * Z)) (M M' : lil_matrix) (c : nat) :
  (∀ k, DI !! k ≠ Some c) →
  write_counts WI DI Tokens C M = Ok M' →
  ∀ r, lil_get M' r c = lil_get M r c.
Proof.
  intros Hc. revert M. induction C as [|[k n] C IH]; intros M.
  - by intros [= <-].
  - cbn [write_counts]. unfold getitem.
    destruct (WI !! k) as [r0|]; cbn; [|done].
    destruct Tokens as [|id T]; cbn; [done|].
    destruct (DI !! id) as [c0|] eqn:Hc0; cbn; [|done].
    destruct (lil_set M r0 c0 n) as [M1|e] eqn:Hset; cbn; [|done].
    intros HM' r. rewrite (IH M1 HM' r), (lil_set_get _ _ _ _ _ Hset).
    rewrite decide_False; [done|]. intros [= _ ->]. by apply (Hc id).
Qed.

Lemma fill_lines_frame (cap : Z) (WI DI : gmap pystr nat) (ls : list pystr)
    (flt : option fault) (i : Z) (iAbstract a : option Z) (M M' : lil_matrix)
    (c : nat) :
  (∀ k, DI !! k ≠ Some c) →
  fill_lines cap WI DI ls flt i iAbstract M = Ok (M', a) →
  ∀ r, lil_get M' r c = lil_get M r c.
Proof.
  intros Hc. revert i iAbstract M. induction ls as [|s ls IH];
    intros i iAbstract M; cbn [fill_lines].
  - destruct flt as [[]|]; [done|done|]. by intros [= <- _].
  - destruct (i >? cap); [by intros [= <- _]|].
    destruct (fill_line WI DI s M) as [M1|e] eqn:Hline; cbn; [|done].
    intros HM' r. rewrite (IH _ _ _ HM' r).
    by eapply write_counts_frame.
Qed.

Lemma fill_files_frame (cap : Z) (WI DI : gmap pystr nat) (files : list file)
    (prev : Z) (iAbstract : option Z) (M M' : lil_matrix) (c : nat) :
  (∀ k, DI !! k ≠ Some c) →
  fill_files cap WI DI files prev iAbstract M = Ok M' →
  ∀ r, lil_get M' r c = lil_get M r c.
Proof.
  intros Hc. revert prev iAbstract M. induction files as [|f files IH];
    intros prev iAbstract M; cbn [fill_files].
  - by intros [= <-].
  - destruct f as [|ls flt]; [done|].
    destruct (fill_lines cap WI DI ls flt prev iAbstract M) as [[M1 a]|e]
      eqn:Hls; cbn; [|done].
    destruct a as [a|]; [|done].
    intros HM' r. rewrite (IH _ _ _ HM' r). by eapply fill_lines_frame.
Qed.

Lemma fill_files_opens (cap : Z) (WI DI : gmap pystr nat)
    (files : list file) (prev : Z) (iAbstract : option Z) (M M' : lil_matrix) :
  fill_files cap WI DI files prev iAbstract M = Ok M' →
  Forall opens files.
Proof.
  revert prev iAbstract M. induction files as [|f files IH];
    intros prev iAbstract M; cbn [fill_files]; [done|].
  destruct f as [|ls flt]; [done|].
  destruct (fill_lines cap WI DI ls flt prev iAbstract M) as [[M1 a]|e];
    cbn; [|done].
  destruct a as [a|]; [|done].
  intros HM'. constructor; [done|]. by eapply IH.
Qed.

End counting_cells.

(** X7.  For files that can all be opened and read to the end and whose
    first file holds a line, a cap that is not negative, a duplicate-free vocabulary and an axis that lists the
    IDs of the processed lines without repetition, [build_matrix] returns
    a matrix in which the cell of each vocabulary word and each processed
    line holds the number of occurrences of the word among the tokens of
    the line. *)
Theorem build_matrix_cells (files : list Indexer.file) (W D : list pystr)
    (cap : Z) :
  0 ≤ cap → Forall readable files → first_file_nonempty files →
  NoDup W → NoDup D →
  D = Corpus.doc_id <$> Corpus.processed_lines files cap →
  ∃ M, MatrixBuilder.build_matrix files W D cap = Ok M
    ∧ MatrixBuilder.shape M = (length W, length D)
    ∧ ∀ r w c s, W !! r = Some w →
        Corpus.processed_lines files cap !! c = Some s →
        MatrixBuilder.lil_get M r c
        = occurrences w (Corpus.doc_tokens s).
Proof.
  intros Hcap Hr Hne HW HD HDeq.
  unfold MatrixBuilder.build_matrix.
  rewrite fill_files_visited by (try done; by apply traversal_ok_readable).
  destruct (fill_all_spec W D [] (Corpus.processed_lines files cap)
              (MatrixBuilder.lil_zeros (length W) (length D)))
    as (M & -> & Hsh & Hcell & _); try done.
  exists M. split; [done|]. split; [done|].
  intros r w c s Hw Hs. by apply (Hcell r w c s).
Qed.

Lemma build_matrix_cells_witness :
  ∃ M, MatrixBuilder.build_matrix
         [Indexer.Lines [str "1 foo bar foo" ++ [LF]; str "2 foo zed" ++ [LF]]]
         [str "bar"; str "foo"; str "zed"] [str "1"; str "2"] 10 = Ok M
    ∧ MatrixBuilder.shape M = (3%nat, 2%nat)
    ∧ ∀ r w c s, [str "bar"; str "foo"; str "zed"] !! r = Some w →
        Corpus.processed_lines
          [Indexer.Lines [str "1 foo bar foo" ++ [LF]; str "2 foo zed" ++ [LF]]]
          10 !! c = Some s →
        MatrixBuilder.lil_get M r c
        = occurrences w (Corpus.doc_tokens s).
Proof.
  apply (build_matrix_cells
           [Indexer.Lines [str "1 foo bar foo" ++ [LF]; str "2 foo zed" ++ [LF]]]
           [str "bar"; str "foo"; str "zed"] [str "1"; str "2"] 10).
  - lia.
  - repeat constructor.
  - done.
  - apply (bool_decide_unpack _). by vm_compute.
  - apply (bool_decide_unpack _). by vm_compute.
  - reflexivity.
Defined.

(** X8.  The two passes compose: when the cap is not negative and every
    file can be opened and read to its end, [build_matrix] run on the
    vocabulary and the axis
    that [get_words_and_documents] returned for the same files and cap
    returns a matrix with one row per word and one column per axis entry,
    also when document IDs repeat. *)
Theorem build_matrix_returns_on_index (o : hash_order)
    (files : list Indexer.file) (cap m : Z) (stop W D : list pystr) :
  0 ≤ cap → Forall readable files →
  Indexer.get_words_and_documents o files cap m stop = Ok (W, D) →
  ∃ M, MatrixBuilder.build_matrix files W D cap = Ok M
    ∧ MatrixBuilder.shape M = (length W, length D).
Proof.
  intros Hcap Hr Hg.
  destruct (get_words_and_documents_lines_ok o files cap m stop W D Hg)
    as [Htrav _].
  apply get_words_and_documents_returns in Hg as [_ ->].
  apply build_matrix_total; try done.
  apply Forall_forall. intros s Hs. by apply list_elem_of_fmap_2.
Qed.

Lemma build_matrix_returns_on_index_witness :
  ∃ M, MatrixBuilder.build_matrix
         [Indexer.Lines [str "1 foo" ++ [LF]; str "1 bar" ++ [LF]]]
         [str "bar"; str "foo"] [str "1"; str "1"] 10 = Ok M
    ∧ MatrixBuilder.shape M = (2%nat, 2%nat).
Proof.
  apply (build_matrix_returns_on_index insertion_order
           [Indexer.Lines [str "1 foo" ++ [LF]; str "1 bar" ++ [LF]]]
           10 2 [] [str "bar"; str "foo"] [str "1"; str "1"]).
  - lia.
  - repeat constructor.
  - reflexivity.
Defined.

(** X9.  When a document ID stands at two positions of the axis, the
    column of the earlier position is never written: in every matrix
    [build_matrix] returns, all its cells are 0. *)
Theorem duplicate_id_column_stays_zero (files : list Indexer.file)
    (W D : list pystr) (cap : Z) (M : MatrixBuilder.lil_matrix)
    (id : pystr) (c c' : nat) :
  MatrixBuilder.build_matrix files W D cap = Ok M →
  D !! c = Some id → D !! c' = Some id → (c < c')%nat →
  ∀ r, MatrixBuilder.lil_get M r c = 0.
Proof.
  intros HM Hc Hc' Hlt r. unfold MatrixBuilder.build_matrix in HM.
  assert (∀ k, MatrixBuilder.enumerate_dict 0 D ∅ !! k ≠ Some c) as Hfree.
  { intros k Hk.
    pose proof Hk as [(j & Hj & Hkj)|Hk']%enumerate_dict_position;
      [|by rewrite lookup_empty in Hk'].
    cbn in Hj. subst j. assert (k = id) as -> by congruence.
    pose proof (enumerate_dict_last 0 D ∅ id c c' Hk Hc'). lia. }
  by rewrite (fill_files_frame _ _ _ _ _ _ _ _ c Hfree HM).
Qed.

Lemma duplicate_id_column_stays_zero_witness :
  MatrixBuilder.lil_get
    {| MatrixBuilder.shape := (1%nat, 2%nat);
       MatrixBuilder.cells := {[ (0%nat, 1%nat) := 1 ]} |} 0 0 = 0.
Proof.
  apply (duplicate_id_column_stays_zero
           [Indexer.Lines [str "1 foo" ++ [LF]; str "1 foo" ++ [LF]]]
           [str "foo"] [str "1"; str "1"] 10
           {| MatrixBuilder.shape := (1%nat, 2%nat);
              MatrixBuilder.cells := {[ (0%nat, 1%nat) := 1 ]} |}
           (str "1") 0 1).
  - by vm_compute.
  - reflexivity.
  - reflexivity.
  - lia.
Defined.

(** X10.  [build_matrix] returns only if every file of the list can be
    opened, whether or not the cap was reached before it, and the first
    file holds a line. *)
Theorem build_matrix_opens_all_files (files : list Indexer.file)
    (W D : list pystr) (cap : Z) (M : MatrixBuilder.lil_matrix) :
  MatrixBuilder.build_matrix files W D cap = Ok M →
  Forall opens files ∧ first_file_nonempty files.
Proof.
  unfold MatrixBuilder.build_matrix. intros HM. split.
  - by eapply fill_files_opens.
  - destruct files as [|[|ls flt] files]; [done|done|].
    destruct ls as [|l ls]; [by destruct flt as [[]|]|]. done.
Qed.

Lemma build_matrix_opens_all_files_witness :
  Forall opens
    [Indexer.Lines [str "1 foo" ++ [LF]]; Indexer.Lines [str "2 foo" ++ [LF]]]
  ∧ first_file_nonempty
      [Indexer.Lines [str "1 foo" ++ [LF]]; Indexer.Lines [str "2 foo" ++ [LF]]].
Proof.
  apply (build_matrix_opens_all_files
           [Indexer.Lines [str "1 foo" ++ [LF]];
            Indexer.Lines [str "2 foo" ++ [LF]]]
           [str "foo"] [str "1"; str "2"] 0
           {| MatrixBuilder.shape := (1%nat, 2%nat);
              MatrixBuilder.cells :=
                {[ (0%nat, 0%nat) := 1; (0%nat, 1%nat) := 1 ]} |}).
  by vm_compute.
Defined.

(** ** [BuildSubset]: whole runs *)

Section assembler_runs.
Import Assembler.
Context `{Builtins}.
Context (fs : pystr → fs_entry) (sPubMedDir : pystr) (iMaxAbstracts : Z).

Lemma within_cap_stop (iRow : Z) (rows : list pystr) :
  iMaxAbstracts ≤ iRow → within_cap iMaxAbstracts iRow rows = [].
Proof.
  intros Hle. unfold within_cap.
  replace (Z.to_nat (iMaxAbstracts - iRow)) with 0%nat by lia. done.
Qed.

Lemma within_cap_cons (iRow : Z) (id : pystr) (rows : list pystr) :
  iRow < iMaxAbstracts →
  within_cap iMaxAbstracts iRow (id :: rows)
  = id :: within_cap iMaxAbstracts (iRow + 1) rows.
Proof.
  intros Hlt. unfold within_cap.
  replace (Z.to_nat (iMaxAbstracts - iRow))
    with (S (Z.to_nat (iMaxAbstracts - (iRow + 1)))) by lia.
  done.
Qed.

Lemma omap_cons_match {A B} (f : A → option B) (x : A) (l : list A) :
  omap f (x :: l)
  = match f x with Some y => y :: omap f l | None => omap f l end.
Proof. done. Qed.

(** One turn of the loop below the cap, by the kind of the identifier. *)
Lemma BuildSubset_rows_turn (id : pystr) (rows : list pystr) (iRow : Z)
    (st : streams) :
  iRow < iMaxAbstracts →
  BuildSubset_rows fs sPubMedDir iMaxAbstracts (id :: rows) iRow st
  = match fs (file_of sPubMedDir id) with
    | Missing =>
        BuildSubset_rows fs sPubMedDir iMaxAbstracts rows (iRow + 1)
          (write_err (NotFound (id_of id)) st)
    | OpenFails => (st, Some OSError)
    | ReadFails =>
        (write_err (ReadFailure (file_of sPubMedDir id)) st,
         Some (SystemExit 1))
    | Text s =>
        if decide (strip (py_lower s) = [])
        then BuildSubset_rows fs sPubMedDir iMaxAbstracts rows (iRow + 1)
               (write_err (EmptyFile (file_of sPubMedDir id)) st)
        else match out_line fs sPubMedDir id with
             | None => (st, Some ValueError)
             | Some l =>
                 BuildSubset_rows fs sPubMedDir iMaxAbstracts rows (iRow + 1)
                   (write_out l st)
             end
    end.
Proof.
  intros Hlt. cbn [BuildSubset_rows].
  destruct (Z.geb_spec iRow iMaxAbstracts); [lia|].
  unfold out_line, file_of, id_of.
  destruct (fs _) as [| | |s]; try done.
  destruct (strip (py_lower s)) as [|c sData]; [done|].
  rewrite decide_False by done.
  by destruct (py_int (strip_tag (py_lower id))).
Qed.

Lemma out_line_fatal (id : pystr) :
  fatal fs sPubMedDir id → out_line fs sPubMedDir id = None.
Proof.
  unfold fatal, out_line. destruct (fs _) as [| | |s]; try done.
  intros [Hs ->]. by destruct (strip (py_lower s)).
Qed.

Lemma out_line_not_fatal (id : pystr) (s : pystr) :
  fs (file_of sPubMedDir id) = Text s → strip (py_lower s) ≠ [] →
  ¬ fatal fs sPubMedDir id → is_Some (out_line fs sPubMedDir id).
Proof.
  unfold fatal, out_line. intros -> Hs Hid.
  destruct (strip (py_lower s)) as [|c sData]; [done|].
  destruct (py_int (id_of id)) as [n|]; [by eexists|].
  by destruct Hid.
Qed.

Lemma out_line_empty (id : pystr) (s : pystr) :
  fs (file_of sPubMedDir id) = Text s → strip (py_lower s) = [] →
  out_line fs sPubMedDir id = None.
Proof. unfold out_line. by intros -> ->. Qed.

Lemma out_line_missing (id : pystr) :
  fs (file_of sPubMedDir id) = Missing → out_line fs sPubMedDir id = None.
Proof. unfold out_line. by intros ->. Qed.

(** What one run of the loop writes to [strOut]: the lines of the rows
    within the cap, up to the first fatal one. *)
Lemma BuildSubset_rows_complete (rows : list pystr) (iRow : Z) (st : streams) :
  Forall (λ id, ¬ fatal fs sPubMedDir id) (within_cap iMaxAbstracts iRow rows) →
  ∃ msgs, BuildSubset_rows fs sPubMedDir iMaxAbstracts rows iRow st
    = ({| strOut := strOut st
            ++ omap (out_line fs sPubMedDir) (within_cap iMaxAbstracts iRow rows);
          strErr := strErr st ++ msgs |}, None).
Proof.
  revert iRow st; induction rows as [|id rows IH]; intros iRow st Hok.
  - exists []. unfold within_cap. rewrite take_nil. cbn.
    rewrite !app_nil_r. by destruct st.
  - destruct (Z.le_gt_cases iMaxAbstracts iRow) as [Hge|Hlt].
    + cbn [BuildSubset_rows]. destruct (Z.geb_spec iRow iMaxAbstracts); [|lia].
      rewrite within_cap_stop by lia. exists [Stopping iRow].
      cbn. by rewrite app_nil_r.
    + rewrite within_cap_cons in * by done.
      apply Forall_cons in Hok as [Hid Hok].
      rewrite BuildSubset_rows_turn, omap_cons_match by done.
      destruct (fs (file_of sPubMedDir id)) as [| | |s] eqn:Hfs.
      * rewrite out_line_missing by done.
        destruct (IH (iRow + 1) (write_err (NotFound (id_of id)) st) Hok)
          as (msgs & ->).
        eexists (_ :: msgs). cbn. by rewrite <- app_assoc.
      * destruct Hid. unfold fatal. by rewrite Hfs.
      * destruct Hid. unfold fatal. by rewrite Hfs.
      * destruct (decide (strip (py_lower s) = [])) as [Hs|Hs].
        -- rewrite (out_line_empty id s) by done.
           destruct (IH (iRow + 1)
                       (write_err (EmptyFile (file_of sPubMedDir id)) st) Hok)
             as (msgs & ->).
           eexists (_ :: msgs). cbn. by rewrite <- app_assoc.
        -- destruct (out_line_not_fatal id s Hfs Hs Hid) as [l ->].
           destruct (IH (iRow + 1) (write_out l st) Hok) as (msgs & ->).
           exists msgs. cbn. by rewrite <- app_assoc.
Qed.

Lemma BuildSubset_rows_fatal (pre : list pystr) (id : pystr)
    (post : list pystr) (iRow : Z) (st : streams) :
  Forall (λ id, ¬ fatal fs sPubMedDir id) pre → fatal fs sPubMedDir id →
  iRow + Z.of_nat (length pre) < iMaxAbstracts →
  ∃ msgs e, BuildSubset_rows fs sPubMedDir iMaxAbstracts (pre ++ id :: post)
              iRow st
    = ({| strOut := strOut st ++ omap (out_line fs sPubMedDir) pre;
          strErr := strErr st ++ msgs |}, Some e)
    ∧ (e = OSError ∨ e = SystemExit 1 ∨ e = ValueError).
Proof.
  intros Hpre Hid. revert iRow st.
  induction Hpre as [|id0 pre Hid0 Hpre IH]; intros iRow st Hlt;
    cbn [length app] in *.
  - rewrite BuildSubset_rows_turn by lia. rewrite (out_line_fatal id Hid).
    cbn [omap list_omap]. rewrite app_nil_r. unfold fatal in Hid.
    destruct (fs (file_of sPubMedDir id)) as [| | |s]; try done.
    + exists [], OSError. rewrite app_nil_r. split; [by destruct st|auto].
    + eexists [_], (SystemExit 1). split; [done|auto].
    + destruct Hid as [Hs Hn]. rewrite decide_False by done.
      exists [], ValueError. rewrite app_nil_r. split; [by destruct st|auto].
  - rewrite BuildSubset_rows_turn, omap_cons_match by lia.
    destruct (fs (file_of sPubMedDir id0)) as [| | |s] eqn:Hfs.
    + rewrite out_line_missing by done.
      destruct (IH (iRow + 1) (write_err (NotFound (id_of id0)) st))
        as (msgs & e & -> & He); [lia|].
      eexists (_ :: msgs), e. cbn. by rewrite <- app_assoc.
    + destruct Hid0. unfold fatal. by rewrite Hfs.
    + destruct Hid0. unfold fatal. by rewrite Hfs.
    + destruct (decide (strip (py_lower s) = [])) as [Hs|Hs].
      * rewrite (out_line_empty id0 s) by done.
        destruct (IH (iRow + 1)
                    (write_err (EmptyFile (file_of sPubMedDir id0)) st))
          as (msgs & e & -> & He); [lia|].
        eexists (_ :: msgs), e. cbn. by rewrite <- app_assoc.
      * destruct (out_line_not_fatal id0 s Hfs Hs Hid0) as [l ->].
        destruct (IH (iRow + 1) (write_out l st)) as (msgs & e & -> & He);
          [lia|].
        exists msgs, e. cbn. by rewrite <- app_assoc.
Qed.

Lemma BuildSubset_rows_output (rows : list pystr) (iRow : Z) (st : streams) :
  ∃ new, strOut (BuildSubset_rows fs sPubMedDir iMaxAbstracts rows iRow st).1
         = strOut st ++ new
    ∧ (length new ≤ length (within_cap iMaxAbstracts iRow rows))%nat.
Proof.
  revert iRow st; induction rows as [|id rows IH]; intros iRow st.
  - exists []. rewrite app_nil_r. split; [done|cbn; lia].
  - destruct (Z.le_gt_cases iMaxAbstracts iRow) as [Hge|Hlt].
    { cbn [BuildSubset_rows]. destruct (Z.geb_spec iRow iMaxAbstracts); [|lia].
      exists []. rewrite app_nil_r. split; [done|cbn; lia]. }
    rewrite within_cap_cons, BuildSubset_rows_turn by done. cbn [length].
    destruct (fs (file_of sPubMedDir id)) as [| | |s].
    + destruct (IH (iRow + 1) (write_err (NotFound (id_of id)) st))
        as (new & -> & Hlen).
      exists new. split; [done|lia].
    + exists []. rewrite app_nil_r. split; [done|cbn; lia].
    + exists []. rewrite app_nil_r. split; [done|cbn; lia].
    + destruct (decide (strip (py_lower s) = [])).
      * destruct (IH (iRow + 1)
                    (write_err (EmptyFile (file_of sPubMedDir id)) st))
          as (new & -> & Hlen).
        exists new. split; [done|lia].
      * destruct (out_line fs sPubMedDir id) as [l|].
        -- destruct (IH (iRow + 1) (write_out l st)) as (new & -> & Hlen).
           eexists (_ :: new). cbn. rewrite <- app_assoc.
           split; [done|lia].
        -- exists []. rewrite app_nil_r. split; [done|cbn; lia].
Qed.

End assembler_runs.

(** ** [BuildSubset]: what is reported *)

Section assembler_reports.
Import Assembler.
Context `{Builtins}.
Context (fs : pystr → fs_entry) (sPubMedDir : pystr) (iMaxAbstracts : Z).

Lemma err_line_missing (id : pystr) :
  fs (file_of sPubMedDir id) = Missing →
  err_line fs sPubMedDir id = Some (NotFound (id_of id)).
Proof. unfold err_line. by intros ->. Qed.

Lemma err_line_empty (id : pystr) (s : pystr) :
  fs (file_of sPubMedDir id) = Text s → strip (py_lower s) = [] →
  err_line fs sPubMedDir id = Some (EmptyFile (file_of sPubMedDir id)).
Proof. unfold err_line. by intros -> ->. Qed.

Lemma err_line_text (id : pystr) (s : pystr) :
  fs (file_of sPubMedDir id) = Text s → strip (py_lower s) ≠ [] →
  err_line fs sPubMedDir id = None.
Proof. unfold err_line. intros -> Hs. by destruct (strip (py_lower s)). Qed.

(** The loop over identifiers none of which is fatal, all below the cap:
    it reaches the identifiers after them with one output line for each
    file that holds text and one message for each file that is missing or
    empty, in the order of the list. *)
Lemma BuildSubset_rows_prefix (pre rest : list pystr) (iRow : Z)
    (st : streams) :
  Forall (λ id, ¬ fatal fs sPubMedDir id) pre →
  iRow + Z.of_nat (length pre) ≤ iMaxAbstracts →
  BuildSubset_rows fs sPubMedDir iMaxAbstracts (pre ++ rest) iRow st
  = BuildSubset_rows fs sPubMedDir iMaxAbstracts rest
      (iRow + Z.of_nat (length pre))
      {| strOut := strOut st ++ omap (out_line fs sPubMedDir) pre;
         strErr := strErr st ++ omap (err_line fs sPubMedDir) pre |}.
Proof.
  intros Hpre. revert iRow st.
  induction Hpre as [|id pre Hid Hpre IH]; intros iRow st Hcap.
  - cbn. rewrite !app_nil_r, Z.add_0_r. by destruct st.
  - cbn [length app] in *.
    replace (iRow + Z.of_nat (S (length pre)))
      with (iRow + 1 + Z.of_nat (length pre)) by lia.
    rewrite BuildSubset_rows_turn, !omap_cons_match by lia.
    destruct (fs (file_of sPubMedDir id)) as [| | |s] eqn:Hfs.
    + rewrite out_line_missing, err_line_missing by done.
      rewrite IH by lia. cbn. by rewrite <- app_assoc.
    + destruct Hid. unfold fatal. by rewrite Hfs.
    + destruct Hid. unfold fatal. by rewrite Hfs.
    + destruct (decide (strip (py_lower s) = [])) as [Hs|Hs].
      * rewrite (out_line_empty _ _ id s), (err_line_empty id s) by done.
        rewrite IH by lia. cbn. by rewrite <- app_assoc.
      * rewrite (err_line_text id s) by done.
        destruct (out_line_not_fatal _ _ id s Hfs Hs Hid) as [l ->].
        rewrite IH by lia. cbn. by rewrite <- app_assoc.
Qed.

End assembler_reports.

(** C7.  For the identifiers of the list up to the first one that ends
    the run, all below the cap: each identifier whose file is missing is
    reported on the error stream by its own message and skipped, each
    whose file is empty (nothing but whitespace) is reported by its own
    message and skipped, and the run goes on after either, so that the
    output holds the line of every identifier whose file holds text and
    the error stream one message for every identifier skipped, both in the
    order of the list; when these are all the identifiers, the run returns
    normally.  When the next identifier's file is present but cannot be
    opened, the run ends at once with the exception of [open]; when it
    can be opened but not read, the failure is reported and the run ends
    with [exit(1)]: in both cases nothing of the identifiers after it is
    read or written. *)
Theorem BuildSubset_failure_policy `{Builtins} (fs : pystr → Assembler.fs_entry)
    (sPubMedDir : pystr) (iMaxAbstracts : Z) (pre : list pystr)
    (st : Assembler.streams) :
  Forall (λ id, ¬ fatal fs sPubMedDir id) pre →
  Z.of_nat (length pre) ≤ iMaxAbstracts →
  let run := Assembler.BuildSubset fs sPubMedDir iMaxAbstracts true in
  let st' :=
    {| Assembler.strOut :=
         Assembler.strOut st ++ omap (out_line fs sPubMedDir) pre;
       Assembler.strErr :=
         Assembler.strErr st ++ omap (err_line fs sPubMedDir) pre |} in
  run pre st = (st', None)
  ∧ (∀ id post,
       Z.of_nat (length pre) < iMaxAbstracts →
       fs (file_of sPubMedDir id) = Assembler.OpenFails →
       run (pre ++ id :: post) st = (st', Some OSError))
  ∧ (∀ id post,
       Z.of_nat (length pre) < iMaxAbstracts →
       fs (file_of sPubMedDir id) = Assembler.ReadFails →
       run (pre ++ id :: post) st
       = (Assembler.write_err
            (Assembler.ReadFailure (file_of sPubMedDir id)) st',
          Some (SystemExit 1))).
Proof.
  intros Hpre Hcap run st'. unfold run, Assembler.BuildSubset.
  split; [|split].
  - rewrite <- (app_nil_r pre) at 1.
    by rewrite BuildSubset_rows_prefix by (try done; lia).
  - intros id post Hlt Hfs.
    rewrite BuildSubset_rows_prefix by (try done; lia).
    rewrite BuildSubset_rows_turn by lia. by rewrite Hfs.
  - intros id post Hlt Hfs.
    rewrite BuildSubset_rows_prefix by (try done; lia).
    rewrite BuildSubset_rows_turn by lia. by rewrite Hfs.
Qed.

Lemma BuildSubset_failure_policy_witness :
  let run := Assembler.BuildSubset (H := ascii_builtins) demo_fs (str "/pm/")
               10 true in
  let st' :=
    {| Assembler.strOut :=
         [(123456, str "alpha beta"); (7, str "gamma")];
       Assembler.strErr :=
         [Assembler.NotFound (str "99");
          Assembler.EmptyFile (str "/pm/0000/PMID5.txt")] |} in
  run [str "PMID123456"; str "99"; str "5"; str "7"]
    {| Assembler.strOut := []; Assembler.strErr := [] |}
  = (st', None)
  ∧ (∀ id post,
       Z.of_nat (length [str "PMID123456"; str "99"; str "5"; str "7"]) < 10 →
       demo_fs (file_of (H := ascii_builtins) (str "/pm/") id)
       = Assembler.OpenFails →
       run ([str "PMID123456"; str "99"; str "5"; str "7"] ++ id :: post)
         {| Assembler.strOut := []; Assembler.strErr := [] |}
       = (st', Some OSError))
  ∧ (∀ id post,
       Z.of_nat (length [str "PMID123456"; str "99"; str "5"; str "7"]) < 10 →
       demo_fs (file_of (H := ascii_builtins) (str "/pm/") id)
       = Assembler.ReadFails →
       run ([str "PMID123456"; str "99"; str "5"; str "7"] ++ id :: post)
         {| Assembler.strOut := []; Assembler.strErr := [] |}
       = (Assembler.write_err
            (Assembler.ReadFailure
               (file_of (H := ascii_builtins) (str "/pm/") id)) st',
          Some (SystemExit 1))).
Proof.
  apply (BuildSubset_failure_policy (H := ascii_builtins) demo_fs (str "/pm/")
           10 [str "PMID123456"; str "99"; str "5"; str "7"]
           {| Assembler.strOut := []; Assembler.strErr := [] |}).
  - apply (bool_decide_unpack _). by vm_compute.
  - cbn. lia.
Defined.

(** The three endings on the small file system: the list is read to its
    end; the file of identifier 6 cannot be opened; the file of identifier
    8 cannot be read. *)
Example BuildSubset_three_endings :
  let run := Assembler.BuildSubset (H := ascii_builtins) demo_fs (str "/pm/")
               10 true in
  let st0 := {| Assembler.strOut := []; Assembler.strErr := [] |} in
  run [str "99"; str "5"; str "7"] st0
  = ({| Assembler.strOut := [(7, str "gamma")];
        Assembler.strErr :=
          [Assembler.NotFound (str "99");
           Assembler.EmptyFile (str "/pm/0000/PMID5.txt")] |}, None)
  ∧ run [str "99"; str "6"; str "7"] st0
    = ({| Assembler.strOut := [];
          Assembler.strErr := [Assembler.NotFound (str "99")] |},
       Some OSError)
  ∧ run [str "99"; str "8"; str "7"] st0
    = ({| Assembler.strOut := [];
          Assembler.strErr :=
            [Assembler.NotFound (str "99");
             Assembler.ReadFailure (str "/pm/0000/PMID8.txt")] |},
       Some (SystemExit 1)).
Proof. repeat split; reflexivity. Qed.

(** X11.  The subdirectory of an identifier is the identifier without its
    last four characters, padded on the left with zeros to four
    characters and never shortened. *)
Theorem subdir_of_padded (s : pystr) :
  Assembler.subdir_of s
  = replicate (4 - (length s - 4)) DIGIT0 ++ take (length s - 4) s
  ∧ length (Assembler.subdir_of s) = Nat.max 4 (length s - 4).
Proof.
  unfold Assembler.subdir_of.
  assert (length (take (length s - 4) s) = (length s - 4)%nat) as Hlen
    by (rewrite length_take; lia).
  revert Hlen. generalize (take (length s - 4) s) as t.
  generalize (length s - 4)%nat as n. intros n t <-.
  destruct t as [|a [|b [|c [|d t]]]]; split; reflexivity.
Qed.

(** X12.  When the root directory can be listed and no identifier within
    the cap is fatal, [BuildSubset] returns normally, and what it appends
    to the output is, in the order of the list, the line of every
    identifier within the cap whose file holds text. *)
Theorem BuildSubset_complete_run `{Builtins} (fs : pystr → Assembler.fs_entry)
    (sPubMedDir : pystr) (iMaxAbstracts : Z) (DataFrame : list pystr)
    (st : Assembler.streams) :
  Forall (λ id, ¬ fatal fs sPubMedDir id)
    (within_cap iMaxAbstracts 0 DataFrame) →
  ∃ msgs, Assembler.BuildSubset fs sPubMedDir iMaxAbstracts true DataFrame st
    = ({| Assembler.strOut := Assembler.strOut st
            ++ omap (out_line fs sPubMedDir)
                 (within_cap iMaxAbstracts 0 DataFrame);
          Assembler.strErr := Assembler.strErr st ++ msgs |}, None).
Proof. intros Hok. by apply BuildSubset_rows_complete. Qed.

Lemma BuildSubset_complete_run_witness :
  ∃ msgs, Assembler.BuildSubset (H := ascii_builtins) demo_fs (str "/pm/") 3
            true [str "PMID123456"; str "99"; str "7"; str "8"]
            {| Assembler.strOut := []; Assembler.strErr := [] |}
    = ({| Assembler.strOut := []
            ++ omap (out_line (H := ascii_builtins) demo_fs (str "/pm/"))
                 (within_cap 3 0
                    [str "PMID123456"; str "99"; str "7"; str "8"]);
          Assembler.strErr := [] ++ msgs |}, None).
Proof.
  apply (BuildSubset_complete_run (H := ascii_builtins) demo_fs (str "/pm/") 3
           [str "PMID123456"; str "99"; str "7"; str "8"]
           {| Assembler.strOut := []; Assembler.strErr := [] |}).
  apply (bool_decide_unpack _). by vm_compute.
Defined.

(** X13.  The first fatal identifier within the cap ends the run with
    [OSError], [exit(1)] or [ValueError]: the lines of the identifiers
    before it have been written, and nothing of the identifiers after
    it. *)
Theorem BuildSubset_stops_at_fatal `{Builtins} (fs : pystr → Assembler.fs_entry)
    (sPubMedDir : pystr) (iMaxAbstracts : Z) (pre : list pystr) (id : pystr)
    (post : list pystr) (st : Assembler.streams) :
  Forall (λ id, ¬ fatal fs sPubMedDir id) pre → fatal fs sPubMedDir id →
  Z.of_nat (length pre) < iMaxAbstracts →
  ∃ msgs e,
    Assembler.BuildSubset fs sPubMedDir iMaxAbstracts true
      (pre ++ id :: post) st
    = ({| Assembler.strOut := Assembler.strOut st
            ++ omap (out_line fs sPubMedDir) pre;
          Assembler.strErr := Assembler.strErr st ++ msgs |}, Some e)
    ∧ (e = OSError ∨ e = SystemExit 1 ∨ e = ValueError).
Proof.
  intros Hpre Hid Hlt. by apply BuildSubset_rows_fatal.
Qed.

Lemma BuildSubset_stops_at_fatal_witness :
  ∃ msgs e,
    Assembler.BuildSubset (H := ascii_builtins) demo_fs (str "/pm/") 10 true
      ([str "PMID123456"; str "99"] ++ str "8" :: [str "7"])
      {| Assembler.strOut := []; Assembler.strErr := [] |}
    = ({| Assembler.strOut := []
            ++ omap (out_line (H := ascii_builtins) demo_fs (str "/pm/"))
                 [str "PMID123456"; str "99"];
          Assembler.strErr := [] ++ msgs |}, Some e)
    ∧ (e = OSError ∨ e = SystemExit 1 ∨ e = ValueError).
Proof.
  apply (BuildSubset_stops_at_fatal (H := ascii_builtins) demo_fs (str "/pm/")
           10 [str "PMID123456"; str "99"] (str "8") [str "7"]
           {| Assembler.strOut := []; Assembler.strErr := [] |}).
  - apply (bool_decide_unpack _). by vm_compute.
  - by vm_compute.
  - cbn. lia.
Defined.

(** X14.  Whatever the files are and however the run ends, [BuildSubset]
    keeps what the output held, and appends at most [iMaxAbstracts] lines
    and at most one line per identifier. *)
Theorem BuildSubset_output_bound `{Builtins} (fs : pystr → Assembler.fs_entry)
    (sPubMedDir : pystr) (iMaxAbstracts : Z) (root_listable : bool)
    (DataFrame : list pystr) (st : Assembler.streams) :
  ∃ new,
    Assembler.strOut
      (Assembler.BuildSubset fs sPubMedDir iMaxAbstracts root_listable
         DataFrame st).1
    = Assembler.strOut st ++ new
    ∧ Z.of_nat (length new) ≤ Z.max 0 iMaxAbstracts
    ∧ (length new ≤ length DataFrame)%nat.
Proof.
  unfold Assembler.BuildSubset. destruct root_listable.
  - destruct (BuildSubset_rows_output fs sPubMedDir iMaxAbstracts DataFrame 0 st)
      as (new & -> & Hlen).
    exists new. split; [done|]. unfold within_cap in Hlen.
    rewrite length_take in Hlen. lia.
  - exists []. rewrite app_nil_r. cbn. split; [done|lia].
Qed.

(** ** [build_subset]: whole runs and the ratio kept *)

Section sampler_ratio.
Import Sampler.
Context `{Builtins}.

Lemma retained_sublist (Iv : list Z) (d n : Z) (files : list txt_file) :
  retained Iv d n files `sublist_of` files.
Proof.
  revert n; induction files as [|f files IH]; intros n; [done|].
  cbn [retained]. destruct (bool_decide _).
  - by apply sublist_skip.
  - by apply sublist_cons.
Qed.

(** Within one window of [d] counter values, a file is retained when the
    residue of its counter is an interval point. *)
Lemma retained_residues (Iv : list Z) (d j : Z) (files : list txt_file)
    (a : Z) :
  0 ≤ a → a + Z.of_nat (length files) < d →
  length (retained Iv d (d * j + a) files)
  = length (filter (.∈ Iv) (seqZ (a + 1) (Z.of_nat (length files)))).
Proof.
  revert a; induction files as [|f files IH]; intros a Ha Hlen; [done|].
  cbn [retained length] in *. rewrite Nat2Z.inj_succ, seqZ_cons by lia.
  rewrite Z.pred_succ, filter_cons.
  assert ((d * j + a + 1) `mod` d = a + 1) as ->.
  { replace (d * j + a + 1) with (a + 1 + j * d) by lia.
    rewrite Z_mod_plus_full. apply Z.mod_small. lia. }
  replace (d * j + a + 1) with (d * j + (a + 1)) by lia.
  specialize (IH (a + 1)). unfold Z.succ.
  case_bool_decide.
  - rewrite decide_True by done. cbn [length]. rewrite IH by lia. done.
  - rewrite decide_False by done. apply IH; lia.
Qed.

Lemma retained_window (Iv : list Z) (d j : Z) (files : list txt_file) :
  0 < d → Z.of_nat (length files) = d →
  length (retained Iv d (d * j) files)
  = length (filter (.∈ Iv) (seqZ 0 d)).
Proof.
  intros Hd Hlen. destruct files as [|f0 files0] using rev_ind;
    [cbn in Hlen; lia|].
  clear IHfiles0. rewrite length_app in Hlen. cbn [length] in Hlen.
  rewrite retained_app, length_app.
  replace (d * j) with (d * j + 0) at 1 by lia.
  rewrite retained_residues by lia.
  rewrite (seqZ_cons 0 d), filter_cons by lia.
  replace (Z.of_nat (length files0)) with (Z.pred d) by lia.
  cbn [retained].
  assert ((d * j + Z.pred d + 1) `mod` d = 0) as ->.
  { replace (d * j + Z.pred d + 1) with (0 + (j + 1) * d) by lia.
    rewrite Z_mod_plus_full. by apply Z.mod_small. }
  change (Z.succ 0) with (0 + 1).
  case_bool_decide.
  - rewrite decide_True by done. cbn [length]. lia.
  - rewrite decide_False by done. cbn [length]. lia.
Qed.

Lemma retained_windows (Iv : list Z) (d : Z) (q : nat) (j : Z)
    (files : list txt_file) :
  0 < d → Z.of_nat (length files) = d * Z.of_nat q →
  length (retained Iv d (d * j) files)
  = (q * length (filter (.∈ Iv) (seqZ 0 d)))%nat.
Proof.
  intros Hd. revert j files; induction q as [|q IH]; intros j files Hlen.
  - destruct files; [done|]. cbn [length] in Hlen. lia.
  - rewrite <- (take_drop (Z.to_nat d) files), retained_app, length_app.
    rewrite retained_window; [|done|rewrite length_take; lia].
    rewrite length_take.
    replace (d * j + Z.of_nat (Z.to_nat d `min` length files))
      with (d * (j + 1)) by lia.
    rewrite IH; [lia|]. rewrite length_drop. lia.
Qed.

Lemma elem_of_range (n i : Z) : i ∈ range n ↔ 0 ≤ i < n.
Proof.
  unfold range. rewrite list_elem_of_fmap. split.
  - intros (k & -> & Hk). apply elem_of_seq in Hk. lia.
  - intros Hi. exists (Z.to_nat i). split; [lia|]. apply elem_of_seq. lia.
Qed.

Lemma NoDup_range (n : Z) : NoDup (range n).
Proof.
  unfold range. apply NoDup_fmap_2; [apply _|apply NoDup_seq].
Qed.

Lemma interval_points_increase (n d x y : Z) :
  0 < n ≤ d → 0 ≤ x < y → (x * d) `div` n < (y * d) `div` n.
Proof.
  intros Hnd Hxy.
  apply Z.lt_le_trans with ((x * d + 1 * n) `div` n).
  - rewrite Z.div_add by lia. lia.
  - apply Z.div_le_mono; [lia|]. nia.
Qed.

Lemma NoDup_intervals (n d : Z) : 0 < n ≤ d → NoDup (intervals n d).
Proof.
  intros Hnd. unfold intervals.
  apply NoDup_fmap_2_strong; [|apply NoDup_range].
  intros x y Hx%elem_of_range Hy%elem_of_range Heq.
  destruct (Z.lt_trichotomy x y) as [Hlt|[->|Hgt]]; [|done|].
  - pose proof (interval_points_increase n d x y Hnd). lia.
  - pose proof (interval_points_increase n d y x Hnd). lia.
Qed.

Lemma elem_of_intervals_bound (n d x : Z) :
  0 < n ≤ d → x ∈ intervals n d → 0 ≤ x < d.
Proof.
  intros Hnd. unfold intervals. rewrite list_elem_of_fmap.
  intros (i & -> & Hi%elem_of_range). split.
  - apply Z.div_pos; nia.
  - apply Z.div_lt_upper_bound; nia.
Qed.

(** A window of [d] counter values holds exactly [n] interval points. *)
Lemma intervals_count (n d : Z) :
  0 < n ≤ d →
  length (filter (.∈ intervals n d) (seqZ 0 d)) = Z.to_nat n.
Proof.
  intros Hnd.
  assert (filter (.∈ intervals n d) (seqZ 0 d) ≡ₚ intervals n d) as ->.
  { apply NoDup_Permutation.
    - apply NoDup_filter, NoDup_seqZ.
    - by apply NoDup_intervals.
    - intros x. rewrite list_elem_of_filter, elem_of_seqZ.
      split; [tauto|]. intros Hx. split; [done|].
      pose proof (elem_of_intervals_bound n d x Hnd Hx). lia. }
  unfold intervals, range. by rewrite !length_fmap, length_seq.
Qed.

(** A run over a tree of good subdirectories. *)
Lemma build_subset_good (dirs : list subdir) (n d : Z) :
  d ≠ 0 → Forall good_dir dirs →
  ∃ msgs,
    build_subset (Some dirs) n d
    = ({| iFilesInAll := Z.of_nat (length (traversal dirs));
          iProcessed :=
            Z.of_nat (length (retained (intervals n d) d 0 (traversal dirs)));
          strOut :=
            line_of <$> retained (intervals n d) d 0 (traversal dirs);
          stderr := msgs |}, None).
Proof.
  intros Hd Hgood.
  assert (Forall good_dir (sort_subdirs dirs)) as Hgood'
    by by rewrite sort_subdirs_Permutation.
  unfold build_subset.
  edestruct (scan_dirs_good (intervals n d) d
               (Z.of_nat (length (sort_subdirs dirs)))
               (sort_subdirs dirs) 1) as [msgs ->]; [done|done|].
  eexists. unfold write_err, traversal. cbn. done.
Qed.

Lemma counters_ok_scan_files (Iv : list Z) (d iNthDir iSubdirs : Z)
    (files : list txt_file) (st : state) :
  counters_ok st → counters_ok (scan_files Iv d iNthDir iSubdirs files st).1.
Proof.
  revert st; induction files as [|f files IH]; intros st Hst; [done|].
  cbn [scan_files]. unfold counters_ok in Hst.
  destruct (d =? 0); [unfold counters_ok; cbn; lia|].
  destruct (bool_decide _); cbn [negb].
  - destruct (data f) as [|s]; [unfold counters_ok; cbn; lia|].
    destruct (strip (py_lower s)) as [|c sData].
    + apply IH. unfold counters_ok. cbn. lia.
    + destruct (file_key f) as [id|]; [|unfold counters_ok; cbn; lia].
      apply IH. unfold counters_ok. cbn. rewrite length_app. cbn. lia.
  - apply IH. unfold counters_ok. cbn. lia.
Qed.

Lemma counters_ok_scan_dirs (Iv : list Z) (d iSubdirs : Z)
    (dirs : list subdir) (iNthDir : Z) (st : state) :
  counters_ok st → counters_ok (scan_dirs Iv d iSubdirs dirs iNthDir st).1.
Proof.
  revert iNthDir st; induction dirs as [|dir dirs IH]; intros iNthDir st Hst;
    [done|].
  cbn [scan_dirs]. destruct (txt_files dir ≫= sort_files) as [Files|]; [|done].
  pose proof (counters_ok_scan_files Iv d iNthDir iSubdirs Files st Hst) as Hf.
  destruct (scan_files Iv d iNthDir iSubdirs Files st) as [st' [e|]]; [done|].
  by apply IH.
Qed.

Lemma nothing_retained_scan_files (d iNthDir iSubdirs : Z)
    (files : list txt_file) (st : state) :
  strOut (scan_files [] d iNthDir iSubdirs files st).1 = strOut st
  ∧ iProcessed (scan_files [] d iNthDir iSubdirs files st).1 = iProcessed st.
Proof.
  revert st; induction files as [|f files IH]; intros st; [done|].
  cbn [scan_files]. destruct (d =? 0); [done|].
  rewrite bool_decide_eq_false_2 by apply not_elem_of_nil. cbn [negb].
  destruct (IH {| iFilesInAll := iFilesInAll st + 1;
                  iProcessed := iProcessed st; strOut := strOut st;
                  stderr :=
                    if (iFilesInAll st + 1) `mod` iUpdateInterval =? 0
                    then stderr st ++ [Progress iNthDir iSubdirs
                                         (iFilesInAll st + 1) (iProcessed st)]
                    else stderr st |}) as [-> ->].
  done.
Qed.

Lemma nothing_retained_scan_dirs (d iSubdirs : Z) (dirs : list subdir)
    (iNthDir : Z) (st : state) :
  strOut (scan_dirs [] d iSubdirs dirs iNthDir st).1 = strOut st
  ∧ iProcessed (scan_dirs [] d iSubdirs dirs iNthDir st).1 = iProcessed st.
Proof.
  revert iNthDir st; induction dirs as [|dir dirs IH]; intros iNthDir st;
    [done|].
  cbn [scan_dirs]. destruct (txt_files dir ≫= sort_files) as [Files|]; [|done].
  pose proof (nothing_retained_scan_files d iNthDir iSubdirs Files st) as Hf.
  destruct (scan_files [] d iNthDir iSubdirs Files st) as [st' [e|]]; [done|].
  cbn in Hf. destruct Hf as [<- <-]. apply IH.
Qed.

End sampler_ratio.

Lemma small_tree_good : Forall (good_dir (H := ascii_builtins)) small_tree.
Proof. repeat constructor; apply demo_file_good. Qed.

(** X15.  Over a tree whose subdirectories can be listed and hold good
    files only, and with a denominator other than 0, [build_subset]
    returns normally: it counts every file, and writes the lines of the
    files whose counter, modulo the denominator, is an interval point, in
    the order of the traversal. *)
Theorem build_subset_run `{Builtins} (dirs : list Sampler.subdir) (n d : Z) :
  d ≠ 0 → Forall good_dir dirs →
  ∃ st kept,
    Sampler.build_subset (Some dirs) n d = (st, None)
    ∧ kept = retained (Sampler.intervals n d) d 0 (traversal dirs)
    ∧ kept `sublist_of` traversal dirs
    ∧ Sampler.strOut st = line_of <$> kept
    ∧ Sampler.iProcessed st = Z.of_nat (length kept)
    ∧ Sampler.iFilesInAll st = Z.of_nat (length (listed dirs)).
Proof.
  intros Hd Hgood.
  destruct (build_subset_good dirs n d Hd Hgood) as [msgs ->].
  eexists _, _. split; [done|]. split; [done|].
  split; [apply retained_sublist|]. split; [done|]. split; [done|].
  cbn. by rewrite traversal_Permutation.
Qed.

Lemma build_subset_run_witness :
  ∃ st kept,
    Sampler.build_subset (H := ascii_builtins) (Some small_tree) 2 3
    = (st, None)
    ∧ kept = retained (Sampler.intervals 2 3) 3 0
               (traversal (H := ascii_builtins) small_tree)
    ∧ kept `sublist_of` traversal (H := ascii_builtins) small_tree
    ∧ Sampler.strOut st = line_of (H := ascii_builtins) <$> kept
    ∧ Sampler.iProcessed st = Z.of_nat (length kept)
    ∧ Sampler.iFilesInAll st = Z.of_nat (length (listed small_tree)).
Proof.
  apply (build_subset_run (H := ascii_builtins) small_tree 2 3).
  - lia.
  - exact small_tree_good.
Defined.

(** X16.  With [0 < iNumerator ≤ iDenominator], over a tree of good
    subdirectories holding [q] times [iDenominator] files, [build_subset]
    retains exactly [q] times [iNumerator] files and writes as many
    lines. *)
Theorem build_subset_keeps_ratio `{Builtins} (dirs : list Sampler.subdir)
    (n d q : Z) :
  0 < n ≤ d → 0 ≤ q → Forall good_dir dirs →
  Z.of_nat (length (listed dirs)) = d * q →
  ∃ st, Sampler.build_subset (Some dirs) n d = (st, None)
    ∧ Sampler.iProcessed st = n * q
    ∧ Z.of_nat (length (Sampler.strOut st)) = n * q.
Proof.
  intros Hnd Hq Hgood Hlen.
  destruct (build_subset_good dirs n d) as [msgs ->]; [lia|done|].
  eexists. split; [done|]. cbn. rewrite length_fmap.
  assert (length (retained (Sampler.intervals n d) d 0 (traversal dirs))
          = (Z.to_nat q * Z.to_nat n)%nat) as ->; [|lia].
  rewrite <- (intervals_count n d Hnd).
  replace 0 with (d * 0) at 1 by lia. apply retained_windows; [lia|].
  by rewrite traversal_Permutation, Z2Nat.id.
Qed.

Lemma build_subset_keeps_ratio_witness :
  ∃ st, Sampler.build_subset (H := ascii_builtins) (Some small_tree) 2 3
        = (st, None)
    ∧ Sampler.iProcessed st = 2 * 2
    ∧ Z.of_nat (length (Sampler.strOut st)) = 2 * 2.
Proof.
  apply (build_subset_keeps_ratio (H := ascii_builtins) small_tree 2 3 2).
  - lia.
  - lia.
  - exact small_tree_good.
  - reflexivity.
Defined.

(** X17.  However a run of [build_subset] ends, it has written no more
    lines than it has processed files, and processed no more files than
    it has counted. *)
Theorem build_subset_counters `{Builtins} (root : option (list Sampler.subdir))
    (n d : Z) :
  counters_ok (Sampler.build_subset root n d).1.
Proof.
  unfold Sampler.build_subset. destruct root as [dirs|]; [|done].
  pose proof (counters_ok_scan_dirs (Sampler.intervals n d) d
                (Z.of_nat (length (Sampler.sort_subdirs dirs)))
                (Sampler.sort_subdirs dirs) 1
                {| Sampler.iFilesInAll := 0; Sampler.iProcessed := 0;
                   Sampler.strOut := []; Sampler.stderr := [] |}) as Hinv.
  destruct (Sampler.scan_dirs _ _ _ _ _ _) as [st' [e|]]; by apply Hinv.
Qed.

(** X18.  With a numerator of 0 or less there are no interval points:
    whatever the tree and the denominator, [build_subset] opens no file
    and writes no line. *)
Theorem build_subset_nothing_to_keep `{Builtins}
    (root : option (list Sampler.subdir)) (n d : Z) :
  n ≤ 0 →
  Sampler.strOut (Sampler.build_subset root n d).1 = []
  ∧ Sampler.iProcessed (Sampler.build_subset root n d).1 = 0.
Proof.
  intros Hn. unfold Sampler.build_subset. destruct root as [dirs|]; [|done].
  assert (Sampler.intervals n d = []) as ->.
  { unfold Sampler.intervals, Sampler.range.
    by replace (Z.to_nat n) with 0%nat by lia. }
  pose proof (nothing_retained_scan_dirs d
                (Z.of_nat (length (Sampler.sort_subdirs dirs)))
                (Sampler.sort_subdirs dirs) 1
                {| Sampler.iFilesInAll := 0; Sampler.iProcessed := 0;
                   Sampler.strOut := []; Sampler.stderr := [] |}) as Hinv.
  by destruct (Sampler.scan_dirs _ _ _ _ _ _) as [st' [e|]].
Qed.

Lemma build_subset_nothing_to_keep_witness :
  Sampler.strOut
    (Sampler.build_subset (H := ascii_builtins) (Some small_tree) 0 3).1 = []
  ∧ Sampler.iProcessed
      (Sampler.build_subset (H := ascii_builtins) (Some small_tree) 0 3).1 = 0.
Proof.
  apply (build_subset_nothing_to_keep (H := ascii_builtins)
           (Some small_tree) 0 3).
  lia.
Defined.

(** ** Rendering and reading numbers and lines *)

Section rendering.
Import Ascii_builtins.

Lemma isspace_digit (c : N) : is_digit c = true → isspace c = false.
Proof.
  intros Hc. unfold is_digit, DIGIT0, DIGIT9 in Hc.
  apply andb_true_iff in Hc as [H1 H2]. apply N.leb_le in H1, H2.
  unfold isspace.
  rewrite (proj2 (N.leb_gt c 13)), (proj2 (N.leb_gt c 32)),
    (proj2 (N.leb_gt 8192 c)) by lia.
  rewrite !(proj2 (N.eqb_neq c _)) by lia.
  by rewrite !andb_false_r.
Qed.

Lemma digits_value_app (a : Z) (xs ys : pystr) :
  digits_value a (xs ++ ys) = digits_value a xs ≫= λ v, digits_value v ys.
Proof.
  revert a; induction xs as [|c xs IH]; intros a; [done|].
  cbn [app digits_value]. destruct (is_digit c); [apply IH|done].
Qed.

Lemma is_digit_of_residue (n : N) : is_digit (DIGIT0 + n `mod` 10)%N = true.
Proof.
  assert (n `mod` 10 < 10)%N as Hlt by by apply N.mod_upper_bound.
  revert Hlt. generalize (n `mod` 10)%N. intros x Hx.
  unfold is_digit, DIGIT0, DIGIT9.
  apply andb_true_iff. split; apply N.leb_le; lia.
Qed.

(** [decimal_aux] puts the digits of [n] in front of [acc]. *)
Lemma decimal_aux_value (fuel : nat) (n : N) (acc : pystr) :
  (0 < fuel)%nat → (n < 2 ^ N.of_nat fuel)%N →
  ∃ ds, decimal_aux fuel n acc = ds ++ acc
    ∧ digits_value 0 ds = Some (Z.of_N n).
Proof.
  revert n acc; induction fuel as [|fuel IH]; intros n acc Hfuel Hn; [lia|].
  cbn [decimal_aux]. pose proof (is_digit_of_residue n) as Hd.
  pose proof (N.div_mod n 10 ltac:(done)) as Hdm.
  destruct (N.ltb_spec n 10) as [Hlt|Hge].
  - exists [(DIGIT0 + n `mod` 10)%N]. split; [done|].
    cbn [digits_value]. rewrite Hd. f_equal.
    rewrite (N.mod_small n 10) by done. unfold DIGIT0. lia.
  - rewrite Nat2N.inj_succ, N.pow_succ_r' in Hn.
    destruct (IH (n `div` 10)%N ((DIGIT0 + n `mod` 10)%N :: acc))
      as (ds & -> & Hds).
    + destruct fuel; [cbn in Hn; lia|lia].
    + apply N.Div0.div_lt_upper_bound. lia.
    + exists (ds ++ [(DIGIT0 + n `mod` 10)%N]).
      split; [by rewrite <- app_assoc|].
      rewrite digits_value_app, Hds. cbn [mbind option_bind digits_value].
      rewrite Hd. f_equal. revert Hdm.
      assert (n `mod` 10 < 10)%N as Hlt by by apply N.mod_upper_bound.
      revert Hlt. generalize (n `mod` 10)%N (n `div` 10)%N.
      intros r q Hr ->. unfold DIGIT0. lia.
Qed.

Lemma decimal_digits (n : N) : Forall (λ c, is_digit c = true) (decimal n).
Proof. apply decimal_aux_digits. constructor. Qed.

Lemma decimal_nonempty (n : N) : decimal n ≠ [].
Proof. apply decimal_aux_nonempty. Qed.

Lemma decimal_value (n : N) : digits_value 0 (decimal n) = Some (Z.of_N n).
Proof.
  unfold decimal.
  destruct (decimal_aux_value (S (N.to_nat (N.log2 n))) n []) as (ds & -> & Hds).
  - lia.
  - rewrite Nat2N.inj_succ, N2Nat.id.
    destruct (N.eq_dec n 0%N) as [->|Hn]; [done|].
    apply N.log2_spec. lia.
  - by rewrite app_nil_r.
Qed.

Lemma digit_no_sign (c : N) :
  is_digit c = true → (c =? HYPHEN)%N = false ∧ (c =? PLUS)%N = false.
Proof.
  intros Hc. unfold is_digit, DIGIT0, DIGIT9, HYPHEN, PLUS in *.
  apply andb_true_iff in Hc as [H1 H2]. apply N.leb_le in H1, H2.
  split; apply N.eqb_neq; lia.
Qed.

(** [int(str(n)) == n] *)
Lemma int_of_decimal (n : N) : int_of (decimal n) = Some (Z.of_N n).
Proof.
  unfold int_of. rewrite strip_digits by apply decimal_digits.
  pose proof (decimal_value n) as Hv. pose proof (decimal_digits n) as Hd.
  pose proof (decimal_nonempty n) as Hne.
  destruct (decimal n) as [|c s]; [done|].
  apply Forall_cons in Hd as [Hc _].
  by destruct (digit_no_sign c Hc) as [-> ->].
Qed.

Lemma int_of_format_int (n : Z) : 0 ≤ n → int_of (format_int n) = Some n.
Proof.
  intros Hn. unfold format_int. destruct (Z.ltb_spec n 0); [lia|].
  rewrite int_of_decimal. f_equal. lia.
Qed.

Lemma format_int_inj (a b : Z) :
  0 ≤ a → 0 ≤ b → format_int a = format_int b → a = b.
Proof.
  intros Ha Hb Heq. pose proof (int_of_format_int a Ha) as Hia.
  rewrite Heq, int_of_format_int in Hia by done. by injection Hia.
Qed.

Lemma format_int_digits (n : Z) :
  0 ≤ n → format_int n ≠ [] ∧ Forall (λ c, is_digit c = true) (format_int n).
Proof.
  intros Hn. unfold format_int. destruct (Z.ltb_spec n 0); [lia|].
  split; [apply decimal_nonempty|apply decimal_digits].
Qed.

End rendering.

Section fields_and_tokens.

Lemma split_ws_aux_tokens (cur s : pystr) :
  Forall (λ c, isspace c = false) cur → Forall token (split_ws_aux cur s).
Proof.
  revert cur; induction s as [|c s IH]; intros cur Hcur; cbn [split_ws_aux].
  - destruct cur as [|a cur]; [constructor|].
    repeat constructor.
    + intros Hr. apply (f_equal length) in Hr.
      rewrite length_reverse in Hr. done.
    + by apply Forall_reverse.
  - destruct (isspace c) eqn:Hc.
    + destruct cur as [|a cur]; [by apply IH|].
      constructor; [|by apply IH]. split.
      * intros Hr. apply (f_equal length) in Hr.
        rewrite length_reverse in Hr. done.
      * by apply Forall_reverse.
    + apply IH. by constructor.
Qed.

Lemma split_ws_tokens (s : pystr) : Forall token (split_ws s).
Proof. by apply split_ws_aux_tokens. Qed.

Lemma split_ws_aux_nonempty (cur s : pystr) :
  cur ≠ [] ∨ has_field s → split_ws_aux cur s ≠ [].
Proof.
  revert cur; induction s as [|c s IH]; intros cur Hcs; cbn [split_ws_aux].
  - destruct Hcs as [Hcur|(c & Hc & _)]; [by destruct cur|].
    by apply elem_of_nil in Hc.
  - destruct (isspace c) eqn:Hc.
    + destruct cur as [|a cur]; [|done]. apply IH. right.
      destruct Hcs as [|(x & Hx & Hsp)]; [done|].
      exists x. split; [|done].
      apply elem_of_cons in Hx as [->|Hx]; [congruence|done].
    + apply IH. by left.
Qed.

Lemma lstrip_head (s : pystr) (c : N) (r : pystr) :
  lstrip s = c :: r → isspace c = false.
Proof.
  induction s as [|a s IH]; [done|]. cbn [lstrip].
  destruct (isspace a) eqn:Ha; [done|]. by intros [= <- _].
Qed.

Lemma lstrip_suffix (s : pystr) : lstrip s `suffix_of` s.
Proof.
  induction s as [|a s IH]; [done|]. cbn [lstrip].
  destruct (isspace a); [by apply suffix_cons_r|done].
Qed.

Lemma strip_has_field (s : pystr) : strip s ≠ [] → has_field (strip s).
Proof.
  unfold strip, rstrip. intros Hne.
  destruct (lstrip (reverse (lstrip s))) as [|c r] eqn:Hl; [done|].
  exists c. split.
  - rewrite elem_of_reverse. left.
  - by eapply lstrip_head.
Qed.

Lemma split_ws_strip_nonempty (s : pystr) :
  strip s ≠ [] → split_ws (strip s) ≠ [].
Proof.
  intros Hs. apply split_ws_aux_nonempty. right. by apply strip_has_field.
Qed.

Lemma lstrip_idemp (s : pystr) : lstrip (lstrip s) = lstrip s.
Proof.
  destruct (lstrip s) as [|c r] eqn:Hl; [done|].
  cbn [lstrip]. by rewrite (lstrip_head s c r Hl).
Qed.

Lemma lstrip_spaces_app (y x : pystr) :
  Forall (λ c, isspace c = true) y → lstrip (y ++ x) = lstrip x.
Proof.
  induction 1 as [|c y Hc _ IH]; [done|]. cbn [app lstrip]. by rewrite Hc.
Qed.

Lemma rstrip_spaces (x y : pystr) :
  Forall (λ c, isspace c = true) y → rstrip (x ++ y) = rstrip x.
Proof.
  intros Hy. unfold rstrip. rewrite reverse_app.
  by rewrite lstrip_spaces_app by by apply Forall_reverse.
Qed.

Lemma rstrip_last (x : pystr) (c : N) :
  last x = Some c → isspace c = false → rstrip x = x.
Proof.
  intros (l & ->)%last_Some Hc. unfold rstrip.
  rewrite reverse_app. cbn [reverse app lstrip]. rewrite reverse_singleton.
  cbn [app lstrip]. rewrite Hc.
  by rewrite reverse_cons, reverse_involutive.
Qed.

(** Stripping a line whose text starts and ends with a character that
    is no whitespace removes exactly the whitespace after the text. *)
Lemma strip_text (x y : pystr) (c1 c2 : N) :
  head x = Some c1 → isspace c1 = false →
  last x = Some c2 → isspace c2 = false →
  Forall (λ c, isspace c = true) y →
  strip (x ++ y) = x.
Proof.
  intros H1 Hc1 H2 Hc2 Hy. unfold strip.
  destruct x as [|a x]; [done|]. injection H1 as ->.
  cbn [app lstrip]. rewrite Hc1.
  change (c1 :: x ++ y) with ((c1 :: x) ++ y).
  rewrite rstrip_spaces by done. by eapply rstrip_last.
Qed.

Lemma strip_field_fixed (s : pystr) :
  strip s ≠ [] → stripped_field (strip s).
Proof.
  intros Hne. split; [done|].
  unfold strip, rstrip in *.
  destruct (lstrip (reverse (lstrip s))) as [|c r] eqn:Hl; [done|].
  pose proof (lstrip_head _ _ _ Hl) as Hc.
  assert (∃ c1 x, reverse (c :: r) = c1 :: x ∧ isspace c1 = false)
    as (c1 & x & Hrev & Hc1).
  { pose proof (lstrip_suffix (reverse (lstrip s))) as [k Hk].
    rewrite Hl in Hk. apply (f_equal reverse) in Hk.
    rewrite reverse_involutive, reverse_app in Hk.
    destruct (lstrip s) as [|c1 x'] eqn:Hs'.
    { symmetry in Hk. apply app_eq_nil in Hk as [Hk _].
      apply (f_equal length) in Hk. rewrite length_reverse in Hk. done. }
    pose proof (lstrip_head _ _ _ Hs') as Hc1.
    destruct (reverse (c :: r)) as [|c1' x] eqn:Hrev.
    { apply (f_equal length) in Hrev. rewrite length_reverse in Hrev. done. }
    exists c1', x. split; [done|]. cbn in Hk. by injection Hk as <- _. }
  rewrite Hrev. cbn [lstrip]. rewrite Hc1.
  rewrite <- Hrev, reverse_involutive. cbn [lstrip]. rewrite Hc.
  done.
Qed.

Lemma split_on_no_sep (sep : N) (w : pystr) :
  sep ∉ w → split_on sep w = [w].
Proof.
  induction w as [|c w IH]; [done|]. intros [Hne Hw]%not_elem_of_cons.
  cbn [split_on]. rewrite (proj2 (N.eqb_neq c sep)) by done.
  by rewrite IH.
Qed.

Lemma token_no_space (w : pystr) : token w → SPACE ∉ w.
Proof.
  intros [_ Hw] Hin. rewrite Forall_forall in Hw.
  by pose proof (Hw SPACE Hin).
Qed.

Lemma join_cons2 (sep w w2 : pystr) (ws : list pystr) :
  join sep (w :: w2 :: ws) = w ++ sep ++ join sep (w2 :: ws).
Proof. done. Qed.

Lemma split_on_join (ws : list pystr) :
  ws ≠ [] → Forall token ws → split_on SPACE (join [SPACE] ws) = ws.
Proof.
  intros Hne Hws. induction Hws as [|w ws Hw Hws IH]; [done|].
  destruct ws as [|w2 ws].
  - cbn [join]. by apply split_on_no_sep, token_no_space.
  - rewrite join_cons2. cbn [app]. rewrite split_on_app.
    rewrite split_on_no_sep by by apply token_no_space.
    by rewrite IH.
Qed.

Lemma last_join (ws : list pystr) :
  ws ≠ [] → Forall token ws →
  ∃ c, last (join [SPACE] ws) = Some c ∧ isspace c = false.
Proof.
  intros Hne Hws. induction Hws as [|w ws Hw Hws IH]; [done|].
  destruct ws as [|w2 ws].
  - cbn [join]. destruct Hw as [Hw Hsp].
    destruct (last w) as [c|] eqn:Hl; [|by apply last_None in Hl].
    exists c. split; [done|]. rewrite Forall_forall in Hsp. apply Hsp.
    apply last_Some in Hl as [l ->]. apply elem_of_app. right. left.
  - destruct IH as (c & Hc & Hsp); [done|]. exists c. split; [|done].
    rewrite join_cons2. cbn [app]. rewrite last_app, last_cons, Hc. done.
Qed.

End fields_and_tokens.

(** ** The importer: what a run writes *)

Section importer_runs.
Import Importer.

Lemma skip_empty_lines_field (sTitle : pystr) (unread : list pystr)
    (t : pystr) (rest : list pystr) :
  sTitle = [] ∨ stripped_field sTitle →
  skip_empty_lines sTitle unread = Some (t, rest) → stripped_field t.
Proof.
  revert sTitle; induction unread as [|l unread IH]; intros sTitle Hs.
  - destruct sTitle as [|c sTitle]; [done|]. cbn. intros [= <- _].
    by destruct Hs.
  - destruct sTitle as [|c sTitle]; cbn.
    + destruct l as [|a l]; [done|]. apply IH.
      destruct (decide (strip (a :: l) = [])); [by left|].
      right. by apply strip_field_fixed.
    + intros [= <- _]. by destruct Hs.
Qed.

Lemma records_ok_step (st : streams) (iID : Z) :
  records_ok st → records_ok (ProcessNextAbstract st iID).2.
Proof.
  intros (Hi & Ho & He).
  unfold ProcessNextAbstract, readline at 1.
  destruct (strIn st) as [|l unread] eqn:Hin; [done|].
  destruct l as [|c l]; [done|]. cbn [strIn].
  destruct (skip_empty_lines (strip (c :: l)) unread) as [[t rest]|] eqn:Hs;
    [|done].
  apply skip_empty_lines_field in Hs.
  2:{ destruct (decide (strip (c :: l) = [])); [by left|].
      right. by apply strip_field_fixed. }
  unfold set_unread, readline. cbn [strIn strOut strIndex stderr].
  assert (∀ a x : pystr,
    records_ok
      (match t, strip a, strip x with
       | _ :: _, _ :: _, _ :: _ =>
           (Some (iID + 1),
            {| strIn := rest;
               strOut := strOut st ++ [(iID, join [SPACE] (split_ws (strip x)))];
               strIndex := strIndex st ++ [(iID, strip a, t)];
               stderr := stderr st |})
       | _, _, _ =>
           (Some iID,
            {| strIn := rest; strOut := strOut st; strIndex := strIndex st;
               stderr := stderr st ++ [(strip a, t, strip x)] |})
       end).2) as Hrec.
  { intros a x.
    destruct (decide (strip a = [])) as [Ha|Ha].
    { rewrite Ha. destruct t, (strip x); (split; [done|split; [done|]]);
        cbn; apply Forall_app; (split; [done|]);
        (constructor; [cbn; auto|constructor]). }
    destruct (decide (strip x = [])) as [Hx|Hx].
    { rewrite Hx. destruct t, (strip a); (split; [done|split; [done|]]);
        cbn; apply Forall_app; (split; [done|]);
        (constructor; [cbn; auto|constructor]). }
    pose proof (strip_field_fixed a Ha) as Hfa.
    assert (tokens_text (join [SPACE] (split_ws (strip x)))) as Htx.
    { exists (split_ws (strip x)).
      split; [by apply split_ws_strip_nonempty|].
      split; [apply split_ws_tokens|done]. }
    destruct Hs as [Ht Hst].
    destruct t as [|ct t]; [done|].
    destruct (strip a) as [|ca sa]; [done|].
    destruct (strip x) as [|cx sx]; [done|].
    unfold records_ok. cbn [snd strIn strOut strIndex stderr].
    split; [|split; [|done]]; apply Forall_app; (split; [done|]);
      (constructor; [|constructor]); [|done].
    cbn [fst snd]. by split. }
  destruct rest as [|a rest]; cbn [strIn strOut strIndex stderr].
  { destruct t; (split; [done|split; [done|]]);
      cbn; apply Forall_app; (split; [done|]);
      (constructor; [cbn; auto|constructor]). }
  destruct rest as [|x rest]; cbn [strIn strOut strIndex stderr].
  { destruct t, (strip a); (split; [done|split; [done|]]);
      cbn; apply Forall_app; (split; [done|]);
      (constructor; [cbn; auto|constructor]). }
  specialize (Hrec a x).
  by destruct t, (strip a), (strip x).
Qed.

Lemma records_ok_loop (fuel : nat) (iNewID : option Z) (st st' : streams) :
  records_ok st → main_loop fuel iNewID st = Some st' → records_ok st'.
Proof.
  revert iNewID st; induction fuel as [|fuel IH]; intros iNewID st Hst.
  - destruct iNewID as [[|p|p]|]; cbn; try done; by intros [= <-].
  - destruct iNewID as [n|]; [|by intros [= <-]].
    pose proof (records_ok_step st n Hst) as Hstep.
    destruct n as [|p|p]; cbn [main_loop]; [by intros [= <-]| |];
      destruct (ProcessNextAbstract st _) as [r st1]; by apply IH.
Qed.

Lemma records_ok_main (input : list pystr) (iID : Z) (st : streams) :
  main input iID = Some st → records_ok st.
Proof.
  unfold main.
  pose proof (records_ok_step
                {| strIn := input; strOut := []; strIndex := []; stderr := [] |}
                iID) as Hstep.
  destruct (ProcessNextAbstract _ iID) as [r st1].
  intros Hloop. eapply records_ok_loop; [|exact Hloop].
  apply Hstep. by repeat split.
Qed.

(** The run from a first ID of at least 1 ends, and numbers the records
    it writes consecutively. *)
Lemma main_sequential (input : list pystr) (iID : Z) :
  1 ≤ iID →
  ∃ st k, main input iID = Some st ∧ 0 ≤ k
    ∧ index_written st = seqZ iID k ∧ corpus_written st = seqZ iID k.
Proof.
  intros HiID. unfold main.
  set (st0 := {| strIn := input; strOut := []; strIndex := []; stderr := [] |}).
  pose proof (ProcessNextAbstract_step st0 iID) as Hstep.
  destruct (ProcessNextAbstract st0 iID) as [r st'].
  apply main_loop_sequential.
  - destruct r as [n|]; [left|by right]. by destruct Hstep.
  - intros n ->. destruct Hstep as [_ [(-> & Hi & Hc)|(-> & Hi & Hc)]].
    + rewrite Hi, Hc. replace (iID + 1 - iID) with 1 by lia.
      split; [lia|done].
    + rewrite Hi, Hc, Z.sub_diag. split; [lia|done].
  - intros ->. exists 0. destruct Hstep as [Hi Hc]. rewrite Hi, Hc.
    split; [lia|done].
Qed.

End importer_runs.

Section importer_lines.
Import Importer Ascii_builtins.

Lemma digit_no_separator (c : N) :
  is_digit c = true → c ≠ SPACE ∧ c ≠ TAB.
Proof.
  intros Hc%isspace_digit. split; intros ->; done.
Qed.

Lemma separator_not_in_digits (sep : N) (s : pystr) :
  sep = SPACE ∨ sep = TAB → Forall (λ c, is_digit c = true) s → sep ∉ s.
Proof.
  intros Hsep Hs Hin. rewrite Forall_forall in Hs.
  destruct (digit_no_separator sep (Hs sep Hin)). by destruct Hsep.
Qed.

Lemma split_on_first (sep : N) (a r : pystr) :
  sep ∉ a → split_on sep (a ++ sep :: r) = a :: split_on sep r.
Proof. intros Ha. by rewrite split_on_app, split_on_no_sep. Qed.

(** The fields of a corpus line: the ID, then the tokens of the text. *)
Lemma corpus_line_fields (id : Z) (ws : list pystr) :
  0 ≤ id → ws ≠ [] → Forall token ws →
  split_on SPACE (strip (corpus_line (id, join [SPACE] ws)))
  = format_int id :: ws.
Proof.
  intros Hid Hne Hws. unfold corpus_line. cbn [fst snd].
  destruct (format_int_digits id Hid) as [Hfne Hdig].
  destruct (last_join ws Hne Hws) as (c2 & Hlast & Hc2).
  replace (format_int id ++ [SPACE] ++ join [SPACE] ws ++ [LF])
    with ((format_int id ++ SPACE :: join [SPACE] ws) ++ [LF])
    by by rewrite <- app_assoc.
  destruct (format_int id) as [|c1 ds] eqn:Hfmt; [done|].
  rewrite (strip_text _ [LF] c1 c2).
  - rewrite split_on_first by by apply separator_not_in_digits; [left|].
    by rewrite split_on_join.
  - done.
  - apply isspace_digit. by apply Forall_cons in Hdig as [? _].
  - by rewrite last_app, last_cons, Hlast.
  - done.
  - by repeat constructor.
Qed.

Lemma corpus_line_ok (stop : list pystr) (r : Z * pystr) :
  0 ≤ r.1 → tokens_text r.2 →
  Corpus.doc_id (corpus_line r) = format_int r.1
  ∧ line_ok stop (corpus_line r).
Proof.
  destruct r as [id text]. cbn [fst snd].
  intros Hid (ws & Hne & Hws & ->).
  unfold Corpus.doc_id, line_ok, Corpus.doc_tokens.
  rewrite corpus_line_fields by done. cbn [head tail default].
  split; [done|]. intros Hin. rewrite Forall_forall in Hws.
  by destruct (Hws [] Hin).
Qed.

Lemma visited_lines_take (cap : Z) (ls : list pystr) (i : Z) :
  i ≤ cap + 1 →
  Corpus.visited_lines cap ls i = take (Z.to_nat (cap + 1 - i)) ls.
Proof.
  revert i; induction ls as [|s ls IH]; intros i Hi;
    [by rewrite take_nil|].
  cbn [Corpus.visited_lines]. destruct (Z.gtb_spec i cap).
  - by replace (Z.to_nat (cap + 1 - i)) with 0%nat by lia.
  - replace (Z.to_nat (cap + 1 - i))
      with (S (Z.to_nat (cap + 1 - (i + 1)))) by lia.
    cbn [take]. f_equal. apply IH. lia.
Qed.

Lemma processed_lines_one_file (cap : Z) (ls : list pystr) :
  0 ≤ cap →
  Corpus.processed_lines [Indexer.Lines ls] cap
  = take (Z.to_nat (cap + 1)) ls.
Proof.
  intros Hcap. unfold Corpus.processed_lines. cbn [Corpus.visited].
  destruct (Z.gtb_spec 0 cap); [lia|].
  rewrite visited_lines_take by lia. rewrite Z.sub_0_r.
  destruct (Corpus.last_index cap ls 0 None); by rewrite app_nil_r.
Qed.

Lemma last_seqZ (m k : Z) : 0 < k → last (seqZ m k) = Some (m + k - 1).
Proof.
  intros Hk. replace k with (k - 1 + 1) by lia.
  rewrite seqZ_snoc by lia. rewrite last_snoc. f_equal. lia.
Qed.

End importer_lines.

(** X19.  Whatever run of the importer ends: every record in the index
    has authors and a title that are not empty and carry no surrounding
    whitespace, every text in the corpus is a non-empty sequence of
    tokens separated by single spaces, and every record reported as
    incomplete has an empty field. *)
Theorem importer_records_complete (input : list pystr) (iID : Z)
    (st : Importer.streams) :
  Importer.main input iID = Some st → records_ok st.
Proof. apply records_ok_main. Qed.

Lemma importer_records_complete_witness :
  records_ok
    {| Importer.strIn := [];
       Importer.strOut := [(43, str "text two")];
       Importer.strIndex := [(43, str "Cy", str "Title two")];
       Importer.stderr := [([], str "Title one", str "text one")] |}.
Proof.
  apply (importer_records_complete
           [str "Title one" ++ [LF]; [LF]; str "text one" ++ [LF]; [LF]; [LF];
            str " Title two" ++ [LF]; str "Cy " ++ [LF];
            str "text  two" ++ [LF]]
           43).
  reflexivity.
Defined.

(** X20.  The index a run appends to is read back by the next run: when
    [int] reads back what ["%i"] writes, and a run from a first ID of at
    least 1 has written records, the first ID computed from the index
    file with the lines of these records at its end is the first ID of the
    run plus the number of records it wrote. *)
Theorem importer_index_round_trip `{Builtins} (input old : list pystr)
    (iID : Z) (st : Importer.streams) :
  (∀ n, 0 ≤ n → py_int (format_int n) = Some n) →
  1 ≤ iID → Importer.main input iID = Some st →
  Importer.strIndex st ≠ [] →
  Importer.initial_id
    (Some (old ++ (index_record_line <$> Importer.strIndex st)))
  = Ok (iID + Z.of_nat (length (Importer.strIndex st))).
Proof.
  intros Hint HiID Hmain Hne.
  destruct (main_sequential input iID HiID) as (st' & k & Hmain' & Hk & Hi & _).
  rewrite Hmain in Hmain'. injection Hmain' as <-.
  assert (length (Importer.strIndex st) = Z.to_nat k) as Hlen.
  { rewrite <- (length_seqZ iID k), <- Hi. unfold index_written.
    by rewrite !length_fmap. }
  assert (0 < k) as Hkpos.
  { destruct (Importer.strIndex st); [done|]. cbn [length] in Hlen. lia. }
  destruct (last (Importer.strIndex st)) as [r|] eqn:Hlast;
    [|by apply last_None in Hlast].
  assert (r.1.1 = iID + k - 1) as Hid.
  { pose proof (last_seqZ iID k Hkpos) as Hl. rewrite <- Hi in Hl.
    unfold index_written in Hl. rewrite !fmap_last, Hlast in Hl.
    by injection Hl. }
  unfold Importer.initial_id.
  rewrite last_app, fmap_last, Hlast.
  cbn [fmap option_fmap option_map default from_option id].
  unfold index_record_line. cbn [app].
  rewrite split_on_first.
  - rewrite Hint by lia. f_equal. lia.
  - apply separator_not_in_digits; [by right|].
    apply format_int_digits. lia.
Qed.

Lemma importer_index_round_trip_witness :
  Importer.initial_id (H := ascii_builtins)
    (Some ([index_line "42" "Bob" "Second"]
           ++ (index_record_line <$>
                 [(43, str "Cy", str "Title two");
                  (44, str "Di", str "Title three")])))
  = Ok (43 + Z.of_nat (length [(43, str "Cy", str "Title two");
                               (44, str "Di", str "Title three")])).
Proof.
  apply (importer_index_round_trip (H := ascii_builtins)
           [str "Title two" ++ [LF]; str "Cy" ++ [LF]; str "text  two" ++ [LF];
            str "Title three" ++ [LF]; str "Di" ++ [LF]; str "more" ++ [LF]]
           [index_line "42" "Bob" "Second"] 43
           {| Importer.strIn := [];
              Importer.strOut := [(43, str "text two"); (44, str "more")];
              Importer.strIndex := [(43, str "Cy", str "Title two");
                                    (44, str "Di", str "Title three")];
              Importer.stderr := [] |}).
  - exact int_of_format_int.
  - lia.
  - reflexivity.
  - done.
Defined.

(** X21.  The corpus a run of the importer writes, when the run has
    written at least one line, is input the indexing pass accepts: from a
    first ID of at least 1 and with a cap that is not negative,
    [get_words_and_documents] on the file of the written lines returns, its axis lists the IDs written, up to the cap, in decimal,
    and these are pairwise distinct. *)
Theorem importer_output_indexable (o : hash_order) (input : list pystr)
    (iID : Z) (st : Importer.streams) (cap m : Z) (stop : list pystr) :
  1 ≤ iID → Importer.main input iID = Some st →
  Importer.strOut st ≠ [] → 0 ≤ cap →
  let lines := corpus_line <$> Importer.strOut st in
  let D := format_int <$> take (Z.to_nat (cap + 1)) (corpus_written st) in
  Indexer.get_words_and_documents o [Indexer.Lines lines] cap m stop
  = Ok (code_vocabulary m stop
          (Corpus.candidate_tokens (take (Z.to_nat (cap + 1)) lines)), D)
  ∧ NoDup D.
Proof.
  intros HiID Hmain Hne Hcap lines D.
  destruct (main_sequential input iID HiID) as (st' & k & Hmain' & Hk & _ & Hc).
  rewrite Hmain in Hmain'. injection Hmain' as <-.
  destruct (records_ok_main input iID st Hmain) as (_ & Htexts & _).
  assert (Forall (λ r, 0 ≤ r.1 ∧ tokens_text r.2) (Importer.strOut st)) as Hrec.
  { apply Forall_forall. intros r Hr. split.
    - assert (r.1 ∈ corpus_written st) as Hin
        by by apply list_elem_of_fmap_2.
      rewrite Hc in Hin. apply elem_of_seqZ in Hin. lia.
    - rewrite Forall_forall in Htexts. by apply Htexts. }
  split.
  - rewrite get_words_and_documents_ok.
    + rewrite processed_lines_one_file by done. do 2 f_equal.
      unfold D, lines, corpus_written.
      rewrite <- !fmap_take, <- !list_fmap_compose.
      apply Forall_fmap_ext_1, Forall_take.
      eapply Forall_impl; [exact Hrec|]. intros r [Hid Ht]. cbn.
      by destruct (corpus_line_ok stop r Hid Ht).
    + apply traversal_ok_readable; [by repeat constructor|]. cbn.
      unfold lines. by destruct (Importer.strOut st).
    + rewrite processed_lines_one_file by done.
      apply Forall_take, Forall_fmap.
      eapply Forall_impl; [exact Hrec|]. intros r [Hid Ht]. cbn.
      by destruct (corpus_line_ok stop r Hid Ht).
  - unfold D. apply NoDup_fmap_2_strong.
    + intros a b Ha Hb.
      apply (elem_of_sublist _ (corpus_written st)) in Ha, Hb;
        try apply sublist_take.
      rewrite Hc in Ha, Hb.
      apply elem_of_seqZ in Ha, Hb. apply format_int_inj; lia.
    + apply (sublist_NoDup _ (corpus_written st)); [|apply sublist_take].
      rewrite Hc. apply NoDup_seqZ.
Qed.

Lemma importer_output_indexable_witness :
  let lines := corpus_line <$> [(43, str "text two"); (44, str "more")] in
  let D := format_int <$> take (Z.to_nat (10 + 1)) [43; 44] in
  Indexer.get_words_and_documents insertion_order [Indexer.Lines lines] 10 2 []
  = Ok (code_vocabulary 2 []
          (Corpus.candidate_tokens (take (Z.to_nat (10 + 1)) lines)), D)
  ∧ NoDup D.
Proof.
  apply (importer_output_indexable insertion_order
           [str "Title two" ++ [LF]; str "Cy" ++ [LF]; str "text  two" ++ [LF];
            str "Title three" ++ [LF]; str "Di" ++ [LF]; str "more" ++ [LF]]
           43
           {| Importer.strIn := [];
              Importer.strOut := [(43, str "text two"); (44, str "more")];
              Importer.strIndex := [(43, str "Cy", str "Title two");
                                    (44, str "Di", str "Title three")];
              Importer.stderr := [] |} 10 2 []).
  - lia.
  - reflexivity.
  - done.
  - lia.
Defined.

(** ** The stopword file and the main script *)

Section stopwords.
Import Indexer TopicModel.

Lemma splitlines_aux_line (cur w rest : pystr) :
  Forall (λ c, is_linebreak c = false) w →
  splitlines_aux cur (w ++ LF :: rest)
  = (reverse cur ++ w) :: splitlines_aux [] rest.
Proof.
  intros Hw. revert cur. induction Hw as [|c w Hc Hw IH]; intros cur.
  - cbn [app splitlines_aux]. by rewrite app_nil_r.
  - cbn [app splitlines_aux]. rewrite Hc, IH, reverse_cons.
    by rewrite <- app_assoc.
Qed.

Lemma splitlines_one_per_line (words : list pystr) :
  Forall (Forall (λ c, is_linebreak c = false)) words →
  splitlines (one_per_line words) = words.
Proof.
  unfold splitlines, one_per_line.
  induction 1 as [|w words Hw Hws IH]; [done|].
  rewrite bind_cons, <- app_assoc. cbn [app].
  by rewrite splitlines_aux_line, IH.
Qed.

Lemma process_line_stop_ext (o : hash_order) (m : Z) (stop1 stop2 : list pystr)
    (s : pystr) (W D : list pystr) :
  (∀ w, w ∈ stop1 ↔ w ∈ stop2) →
  process_line o m stop1 s W D = process_line o m stop2 s W D.
Proof.
  intros Hstop. unfold process_line, set_difference.
  destruct (split_on SPACE (strip s)) as [|sID Tokens]; [done|].
  rewrite (list_filter_iff (λ x, x ∉ stop1) (λ x, x ∉ stop2)); [done|].
  intros x. by rewrite Hstop.
Qed.

Lemma read_lines_stop_ext (o : hash_order) (cap m : Z)
    (stop1 stop2 ls : list pystr) (flt : option fault) (i : Z)
    (iAbstract : option Z) (W D : list pystr) :
  (∀ w, w ∈ stop1 ↔ w ∈ stop2) →
  read_lines o cap m stop1 ls flt i iAbstract W D
  = read_lines o cap m stop2 ls flt i iAbstract W D.
Proof.
  intros Hstop. revert i iAbstract W D; induction ls as [|s ls IH];
    intros i iAbstract W D; [done|].
  cbn [read_lines]. destruct (i >? cap); [done|].
  rewrite (process_line_stop_ext o m stop1 stop2) by done.
  destruct (process_line o m stop2 s W D) as [[W' D']|e]; cbn; [|done].
  apply IH.
Qed.

Lemma read_files_stop_ext (o : hash_order) (cap m : Z)
    (stop1 stop2 : list pystr) (files : list file) (prev : Z)
    (iAbstract : option Z) (W D : list pystr) :
  (∀ w, w ∈ stop1 ↔ w ∈ stop2) →
  read_files o cap m stop1 files prev iAbstract W D
  = read_files o cap m stop2 files prev iAbstract W D.
Proof.
  intros Hstop. revert prev iAbstract W D; induction files as [|f files IH];
    intros prev iAbstract W D; [done|].
  cbn [read_files]. destruct (prev >? cap); [done|].
  destruct f as [|ls flt]; [done|].
  rewrite (read_lines_stop_ext o cap m stop1 stop2) by done.
  destruct (read_lines o cap m stop2 ls flt prev iAbstract W D)
    as [[[W' D'] a]|e]; cbn; [|done].
  destruct a as [a|]; [|done]. apply IH.
Qed.

(** Only the members of the stopword set matter, not their order. *)
Lemma get_words_and_documents_stop_ext (o : hash_order) (files : list file)
    (cap m : Z) (stop1 stop2 : list pystr) :
  (∀ w, w ∈ stop1 ↔ w ∈ stop2) →
  get_words_and_documents o files cap m stop1
  = get_words_and_documents o files cap m stop2.
Proof.
  intros Hstop. unfold get_words_and_documents.
  by rewrite (read_files_stop_ext o cap m stop1 stop2).
Qed.

End stopwords.

(** X22.  A stopword file with one word on each line, none of the words
    holding a line boundary, is read as the set of exactly these words,
    whatever the hash order. *)
Theorem read_stopwords_one_per_line (o : hash_order) (words : list pystr) :
  Forall (Forall (λ c, TopicModel.is_linebreak c = false)) words →
  ∃ StopWords,
    TopicModel.read_stopwords o (TopicModel.TextOf (one_per_line words))
    = Ok StopWords
    ∧ NoDup StopWords ∧ ∀ w, w ∈ StopWords ↔ w ∈ words.
Proof.
  intros Hwords. eexists. split; [done|].
  rewrite splitlines_one_per_line by done. unfold Indexer.set_of. split.
  - rewrite enum_perm. apply NoDup_remove_dups.
  - intros w. by rewrite enum_perm, elem_of_remove_dups.
Qed.

Lemma read_stopwords_one_per_line_witness :
  ∃ StopWords,
    TopicModel.read_stopwords reversed_order
      (TopicModel.TextOf (one_per_line [str "the"; str "of"; []; str "the"]))
    = Ok StopWords
    ∧ NoDup StopWords
    ∧ ∀ w, w ∈ StopWords ↔ w ∈ [str "the"; str "of"; []; str "the"].
Proof.
  apply (read_stopwords_one_per_line reversed_order
           [str "the"; str "of"; []; str "the"]).
  apply (bool_decide_unpack _). by vm_compute.
Defined.

(** X23.  The main script is deterministic up to the matrix: whatever
    order each run's string hash enumerates its sets in, the set of
    stopwords included, two runs on the same files and parameters have the
    same outcome -- the same exception, or the same vocabulary, axis and
    matrix. *)
Theorem main_deterministic (run1 run2 : hash_order)
    (sStopWordsFName : TopicModel.text_file) (PathList : list Indexer.file)
    (iMaxAbstracts iMinWordLength : Z) :
  TopicModel.main run1 sStopWordsFName PathList iMaxAbstracts iMinWordLength
  = TopicModel.main run2 sStopWordsFName PathList iMaxAbstracts iMinWordLength.
Proof.
  unfold TopicModel.main. destruct sStopWordsFName as [|[]|s]; [done..|].
  cbn [TopicModel.read_stopwords mbind result_bind].
  rewrite (get_words_and_documents_agree run1 run2).
  rewrite (get_words_and_documents_stop_ext run2 PathList iMaxAbstracts
             iMinWordLength
             (Indexer.set_of run1 (TopicModel.splitlines s))
             (Indexer.set_of run2 (TopicModel.splitlines s))); [done|].
  intros w. unfold Indexer.set_of. by rewrite !enum_perm.
Qed.

(** X24.  When the main script gets as far as the matrix, no line of the
    stopword file is in the vocabulary, and the matrix has one row per
    vocabulary word and one column per entry of the axis. *)
Theorem main_excludes_stopwords (o : hash_order) (s : pystr)
    (PathList : list Indexer.file) (iMaxAbstracts iMinWordLength : Z)
    (Words Docs : list pystr) (M : MatrixBuilder.lil_matrix) :
  TopicModel.main o (TopicModel.TextOf s) PathList iMaxAbstracts iMinWordLength
  = Ok (Words, Docs, M) →
  (∀ w, w ∈ TopicModel.splitlines s → w ∉ Words)
  ∧ MatrixBuilder.shape M = (length Words, length Docs).
Proof.
  unfold TopicModel.main. cbn [TopicModel.read_stopwords mbind result_bind].
  destruct (Indexer.get_words_and_documents o PathList iMaxAbstracts
              iMinWordLength (Indexer.set_of o (TopicModel.splitlines s)))
    as [[W D]|e] eqn:Hg; [|done].
  unfold MatrixBuilder.build_matrix. cbn [mbind result_bind].
  destruct (MatrixBuilder.fill_files _ _ _ _ _ _ _) as [M'|e] eqn:Hshape;
    [|done].
  apply fill_files_shape in Hshape.
  intros [= <- <- <-]. split.
  - intros w Hw Hin.
    apply get_words_and_documents_returns in Hg as [-> _].
    unfold code_vocabulary in Hin.
    rewrite elem_of_sorted, elem_of_remove_dups, list_elem_of_filter in Hin.
    destruct Hin as [[Hstop _] _]. apply Hstop.
    unfold Indexer.set_of. by rewrite enum_perm, elem_of_remove_dups.
  - exact Hshape.
Qed.

Lemma main_excludes_stopwords_witness :
  (∀ w, w ∈ TopicModel.splitlines (one_per_line [str "the"; str "of"]) →
        w ∉ [str "bar"; str "foo"])
  ∧ MatrixBuilder.shape
      {| MatrixBuilder.shape := (2%nat, 2%nat);
         MatrixBuilder.cells :=
           {[ (1%nat, 0%nat) := 1; (0%nat, 1%nat) := 1; (1%nat, 1%nat) := 1 ]} |}
    = (length [str "bar"; str "foo"], length [str "1"; str "2"]).
Proof.
  apply (main_excludes_stopwords insertion_order
           (one_per_line [str "the"; str "of"])
           [Indexer.Lines [str "1 the foo" ++ [LF]; str "2 bar of foo" ++ [LF]]]
           10 2).
  by vm_compute.
Defined.

(** ** The archaic script *)

Section archaic.
Import Indexer Corpus.
Context (o : hash_order).

Lemma archaic_rejected_nonempty (t : pystr) :
  t ≠ [] → Archaic.rejected t = Ok (archaic_rejects t).
Proof.
  intros Ht. unfold Archaic.rejected, archaic_rejects.
  destruct t as [|c t]; [done|]. rewrite startswith_hyphen.
  by destruct (contains _ (c :: t)).
Qed.

Lemma archaic_filter_tokens_ok (todo N : list pystr) :
  [] ∉ todo →
  ∃ N', Archaic.filter_tokens o todo N = Ok N'
    ∧ ∀ x, x ∈ N' ↔ x ∈ N ∧ ¬ (x ∈ todo ∧ archaic_rejects x = true).
Proof.
  revert N; induction todo as [|t todo IH]; intros N Hne;
    cbn [Archaic.filter_tokens].
  - exists N. split; [done|]. intros x. rewrite elem_of_nil. tauto.
  - apply not_elem_of_cons in Hne as [Ht Hne].
    rewrite archaic_rejected_nonempty by done. cbn [mbind result_bind].
    destruct (IH (if archaic_rejects t then set_remove o t N else N) Hne)
      as (N' & -> & HN').
    exists N'. split; [done|]. intros x. rewrite HN', elem_of_cons.
    destruct (archaic_rejects t) eqn:Hr.
    + rewrite elem_of_set_remove. split.
      * intros [[HxN Hxt] Hrest]. split; [done|]. intros [[->|Hx] Hrx]; tauto.
      * intros [HxN Hrest]. split; [split; [done|]|].
        -- intros ->. apply Hrest. auto.
        -- intros [Hx Hrx]. apply Hrest. auto.
    + split.
      * intros [HxN Hrest]. split; [done|].
        intros [[->|Hx] Hrx]; [congruence|tauto].
      * intros [HxN Hrest]. split; [done|]. intros [Hx Hrx]. apply Hrest. auto.
Qed.

Lemma archaic_process_line_ok (stop : list pystr) (s : pystr)
    (W D : list pystr) :
  line_ok stop s →
  ∃ W', Archaic.process_line o stop s W D = Ok (W', D ++ [doc_id s])
    ∧ NoDup W'
    ∧ ∀ x, x ∈ W' ↔ x ∈ W ∨ (x ∈ doc_tokens s ∧ archaic_accepts stop x).
Proof.
  intros Hok. unfold Archaic.process_line, line_ok, doc_id, doc_tokens in *.
  pose proof (split_on_nonempty SPACE (strip s)) as Hne.
  destruct (split_on SPACE (strip s)) as [|sID Tokens]; [done|].
  cbn [head tail default from_option] in *.
  set (N := set_difference o (set_of o Tokens) stop).
  assert ([] ∉ sorted N) as Hempty.
  { rewrite elem_of_sorted. unfold N.
    rewrite elem_of_set_difference, elem_of_set_of. tauto. }
  destruct (archaic_filter_tokens_ok (sorted N) N Hempty) as (N' & -> & HN').
  cbn [mbind result_bind]. eexists. split; [done|].
  split; [apply NoDup_set_union|].
  intros x. rewrite elem_of_set_union, HN', elem_of_sorted. unfold N.
  rewrite elem_of_set_difference, elem_of_set_of. unfold archaic_accepts.
  destruct (archaic_rejects x); intuition congruence.
Qed.

Lemma archaic_read_lines_ok (stop ls : list pystr) (i : Z)
    (iAbstract : option Z) (W D : list pystr) :
  Forall (line_ok stop) (visited_lines Archaic.iMAX_N ls i) → NoDup W →
  ∃ W', Archaic.read_lines o stop ls None i iAbstract W D
        = Ok (W', D ++ (doc_id <$> visited_lines Archaic.iMAX_N ls i),
              last_index Archaic.iMAX_N ls i iAbstract)
    ∧ NoDup W'
    ∧ ∀ x, x ∈ W' ↔
        x ∈ W ∨ (x ∈ candidate_tokens (visited_lines Archaic.iMAX_N ls i)
                 ∧ archaic_accepts stop x).
Proof.
  revert i iAbstract W D; induction ls as [|s ls IH];
    intros i iAbstract W D Hok HW;
    cbn [Archaic.read_lines visited_lines last_index] in *.
  - exists W. rewrite app_nil_r. split; [done|]. split; [done|].
    intros x. unfold candidate_tokens. cbn. rewrite elem_of_nil. tauto.
  - destruct (i >? Archaic.iMAX_N).
    + exists W. rewrite app_nil_r. split; [done|]. split; [done|].
      intros x. unfold candidate_tokens. cbn. rewrite elem_of_nil. tauto.
    + apply Forall_cons in Hok as [Hs Hok].
      destruct (archaic_process_line_ok stop s W D Hs)
        as (W1 & -> & HW1 & Hel1).
      cbn [mbind result_bind].
      destruct (IH (i + 1) (Some i) W1 (D ++ [doc_id s]) Hok HW1)
        as (W2 & -> & HW2 & Hel2).
      exists W2. rewrite fmap_cons, <- app_assoc. split; [done|].
      split; [done|].
      intros x. rewrite Hel2, Hel1. unfold candidate_tokens.
      rewrite bind_cons, elem_of_app. tauto.
Qed.

(** After the first binding of [iAbstract], the archaic pass over readable
    files visits the lines the current pass visits. *)
Lemma archaic_read_files_bound (stop : list pystr) (files : list file)
    (prev : Z) (W D : list pystr) :
  Forall readable files →
  Forall (line_ok stop) (visited Archaic.iMAX_N files prev (Some prev)) →
  NoDup W →
  ∃ W', Archaic.read_files o stop files prev (Some prev) W D
        = Ok (W', D ++ (doc_id <$> visited Archaic.iMAX_N files prev (Some prev)))
    ∧ NoDup W'
    ∧ ∀ x, x ∈ W' ↔
        x ∈ W ∨ (x ∈ candidate_tokens
                       (visited Archaic.iMAX_N files prev (Some prev))
                 ∧ archaic_accepts stop x).
Proof.
  intros Hr. revert prev W D. induction Hr as [|f files Hf Hr IH];
    intros prev W D Hok HW.
  - exists W. cbn. rewrite app_nil_r. split; [done|]. split; [done|].
    intros x. unfold candidate_tokens. cbn. rewrite elem_of_nil. tauto.
  - destruct f as [|ls [flt|]]; [done|done|].
    cbn [Archaic.read_files visited] in *.
    destruct (Z.gtb_spec prev Archaic.iMAX_N) as [Hgt|Hle].
    + destruct (archaic_read_lines_ok stop ls prev (Some prev) W D)
        as (W1 & -> & HW1 & Hel1); [|done|].
      { by rewrite visited_lines_past_cap. }
      rewrite visited_lines_past_cap, last_index_past_cap in * by done.
      cbn [mbind result_bind fmap list_fmap].
      destruct (IH prev W1 (D ++ [])) as (W2 & -> & HW2 & Hel2); [|done|].
      { by rewrite visited_past_cap. }
      rewrite visited_past_cap in * by done.
      exists W2. cbn. rewrite !app_nil_r. split; [done|]. split; [done|].
      intros x. rewrite Hel2, Hel1. unfold candidate_tokens. cbn.
      rewrite elem_of_nil. tauto.
    + apply Forall_app in Hok as [Hok1 Hok2].
      destruct (archaic_read_lines_ok stop ls prev (Some prev) W D Hok1 HW)
        as (W1 & -> & HW1 & Hel1).
      cbn [mbind result_bind].
      destruct (last_index_bound Archaic.iMAX_N ls prev prev) as [a Ha].
      rewrite Ha in *.
      destruct (IH a W1 (D ++ (doc_id <$> visited_lines Archaic.iMAX_N ls prev))
                  Hok2 HW1) as (W2 & -> & HW2 & Hel2).
      exists W2. rewrite fmap_app, app_assoc. split; [done|]. split; [done|].
      intros x. rewrite Hel2, Hel1. unfold candidate_tokens.
      rewrite bind_app, elem_of_app. tauto.
Qed.

Lemma archaic_read_files_ok (stop : list pystr) (files : list file) :
  Forall readable files → first_file_nonempty files →
  Forall (line_ok stop) (processed_lines files Archaic.iMAX_N) →
  ∃ W', Archaic.read_files o stop files 0 None [] []
        = Ok (W', doc_id <$> processed_lines files Archaic.iMAX_N)
    ∧ NoDup W'
    ∧ ∀ x, x ∈ W' ↔
        x ∈ candidate_tokens (processed_lines files Archaic.iMAX_N)
        ∧ archaic_accepts stop x.
Proof.
  intros Hr Hne Hok. unfold processed_lines in *.
  destruct Hr as [|f files Hf Hr].
  { exists []. split; [done|]. split; [constructor|].
    intros x. unfold candidate_tokens. cbn. rewrite elem_of_nil. tauto. }
  destruct f as [|ls [flt|]]; [done|done|]. cbn in Hne.
  cbn [Archaic.read_files visited] in *.
  destruct (Z.gtb_spec 0 Archaic.iMAX_N) as [Hgt|Hle]; [done|].
  apply Forall_app in Hok as [Hok1 Hok2].
  destruct (archaic_read_lines_ok stop ls 0 None [] [] Hok1 NoDup_nil_2)
    as (W1 & -> & HW1 & Hel1).
  cbn [mbind result_bind].
  destruct ls as [|l ls]; [done|]. cbn [last_index] in *.
  destruct (Z.gtb_spec 0 Archaic.iMAX_N) as [Hgt'|_]; [done|].
  destruct (last_index_bound Archaic.iMAX_N ls (0 + 1) 0) as [a Ha].
  rewrite Ha in *.
  destruct (archaic_read_files_bound stop files a W1
              ([] ++ (doc_id <$> visited_lines Archaic.iMAX_N (l :: ls) 0))
              Hr Hok2 HW1) as (W2 & -> & HW2 & Hel2).
  exists W2. rewrite fmap_app. split; [done|]. split; [done|].
  intros x. rewrite Hel2, Hel1. unfold candidate_tokens.
  rewrite bind_app, elem_of_app, elem_of_nil. tauto.
Qed.

Lemma archaic_get_words_and_documents_ok (stop : list pystr)
    (files : list file) :
  Forall readable files → first_file_nonempty files →
  Forall (line_ok stop) (processed_lines files Archaic.iMAX_N) →
  Archaic.get_words_and_documents o files stop
  = Ok (archaic_vocabulary stop
          (candidate_tokens (processed_lines files Archaic.iMAX_N)),
        doc_id <$> processed_lines files Archaic.iMAX_N).
Proof.
  intros Hr Hne Hok. unfold Archaic.get_words_and_documents.
  destruct (archaic_read_files_ok stop files Hr Hne Hok)
    as (W1 & -> & HW1 & Hel1).
  cbn [mbind result_bind]. do 2 f_equal.
  apply sorted_unique. apply NoDup_Permutation; [done|apply NoDup_remove_dups|].
  intros x. rewrite Hel1, elem_of_remove_dups, list_elem_of_filter. tauto.
Qed.

Lemma code_accepts_archaic (m : Z) (stop : list pystr) (t : pystr) :
  code_accepts m stop t
  ↔ archaic_accepts stop t ∧ rx_match rxNum t = false
    ∧ m ≤ Z.of_nat (length t).
Proof.
  unfold code_accepts, archaic_accepts, code_rejects, archaic_rejects.
  rewrite !orb_false_iff, Z.ltb_ge. tauto.
Qed.

End archaic.

(** X25.  On files that can all be opened and read to the end, whenever
    the current indexing
    pass returns for the cap 6500, the archaic one returns as well, with
    the same document axis; and the current vocabulary is the archaic
    vocabulary without the words that start like a number and the words
    shorter than [iMinWordLength]. *)
Theorem archaic_vocabulary_is_coarser (o : hash_order)
    (files : list Indexer.file) (m : Z) (stop Words Docs : list pystr) :
  Forall readable files →
  Indexer.get_words_and_documents o files Archaic.iMAX_N m stop
  = Ok (Words, Docs) →
  ∃ ArchaicWords,
    Archaic.get_words_and_documents o files stop = Ok (ArchaicWords, Docs)
    ∧ ∀ w, w ∈ Words ↔
        w ∈ ArchaicWords ∧ rx_match Indexer.rxNum w = false
        ∧ m ≤ Z.of_nat (length w).
Proof.
  intros Hr Hg.
  destruct (get_words_and_documents_lines_ok o files _ m stop _ _ Hg)
    as [Htrav Hok].
  apply get_words_and_documents_returns in Hg as [-> ->].
  assert (first_file_nonempty files) as Hne.
  { destruct Hr as [|[|[|l ls] [flt|]] files Hf Hr]; done. }
  rewrite archaic_get_words_and_documents_ok by done.
  eexists. split; [done|]. intros w.
  unfold code_vocabulary, archaic_vocabulary.
  rewrite !elem_of_sorted, !elem_of_remove_dups, !list_elem_of_filter.
  rewrite code_accepts_archaic. tauto.
Qed.

Lemma archaic_vocabulary_is_coarser_witness :
  ∃ ArchaicWords,
    Archaic.get_words_and_documents insertion_order
      [Indexer.Lines [str "7 beta alpha 12 b" ++ [LF]];
       Indexer.Lines [str "8 the gamma -x" ++ [LF]]] [str "the"]
    = Ok (ArchaicWords, [str "7"; str "8"])
    ∧ ∀ w, w ∈ [str "alpha"; str "beta"; str "gamma"] ↔
        w ∈ ArchaicWords ∧ rx_match Indexer.rxNum w = false
        ∧ 2 ≤ Z.of_nat (length w).
Proof.
  apply (archaic_vocabulary_is_coarser insertion_order
           [Indexer.Lines [str "7 beta alpha 12 b" ++ [LF]];
            Indexer.Lines [str "8 the gamma -x" ++ [LF]]] 2 [str "the"]
           [str "alpha"; str "beta"; str "gamma"] [str "7"; str "8"]).
  - repeat constructor.
  - by vm_compute.
Defined.

(** X26.  The archaic script gets as far as its matrix whenever both files
    can be opened and read to the end, the corpus file holds a line, and none of its first
    6501 lines has an empty token that is not a stopword; the matrix has
    one row per word and one column per line read. *)
Theorem archaic_main_returns (o : hash_order) (s : pystr) (ls : list pystr) :
  ls ≠ [] →
  Forall (line_ok (Indexer.set_of o (TopicModel.splitlines s)))
    (take (Z.to_nat (Archaic.iMAX_N + 1)) ls) →
  ∃ Words Docs M,
    Archaic.main o (TopicModel.TextOf s) (Indexer.Lines ls)
    = Ok (Words, Docs, M)
    ∧ Docs = Corpus.doc_id <$> take (Z.to_nat (Archaic.iMAX_N + 1)) ls
    ∧ MatrixBuilder.shape M = (length Words, length Docs).
Proof.
  intros Hne Hok. unfold Archaic.main.
  cbn [Archaic.read_stopwords mbind result_bind].
  assert (0 ≤ Archaic.iMAX_N) as Hcap by done.
  rewrite <- processed_lines_one_file in * by done.
  rewrite archaic_get_words_and_documents_ok;
    [|by repeat constructor|done|done].
  cbn [mbind result_bind]. unfold Archaic.build_matrix.
  edestruct (build_matrix_total [Indexer.Lines ls]) as (M & -> & Hsh).
  - exact Hcap.
  - by repeat constructor.
  - by apply traversal_ok_readable; [repeat constructor|].
  - apply Forall_forall. intros l Hl. by apply list_elem_of_fmap_2.
  - by eexists _, _, M.
Qed.

Lemma archaic_main_returns_witness :
  ∃ Words Docs M,
    Archaic.main insertion_order
      (TopicModel.TextOf (one_per_line [str "the"; str "of"]))
      (Indexer.Lines [str "1 the foo" ++ [LF]; str "2 bar of 12" ++ [LF]])
    = Ok (Words, Docs, M)
    ∧ Docs = Corpus.doc_id <$>
               take (Z.to_nat (Archaic.iMAX_N + 1))
                 [str "1 the foo" ++ [LF]; str "2 bar of 12" ++ [LF]]
    ∧ MatrixBuilder.shape M = (length Words, length Docs).
Proof.
  apply (archaic_main_returns insertion_order
           (one_per_line [str "the"; str "of"])
           [str "1 the foo" ++ [LF]; str "2 bar of 12" ++ [LF]]).
  - done.
  - apply (bool_decide_unpack _). by vm_compute.
Defined.

(** ** The counting pass: no ceiling *)

Section no_ceiling.
Import Indexer MatrixBuilder Corpus.





End no_ceiling.




(** The run for the ceiling 2: three columns, three cells stored. *)
Example three_documents_stored :
  ∃ M, MatrixBuilder.build_matrix [Indexer.Lines (one_word_corpus 3)]
         [str "w"] [str "1"; str "2"; str "3"] 3 = Ok M
    ∧ MatrixBuilder.shape M = (1%nat, 3%nat)
    ∧ stored M = 3%nat.
Proof. eexists. split; [reflexivity|]. split; reflexivity. Qed.

(** ** The counting pass: when it returns *)

Section counting_outcome.
Import Indexer MatrixBuilder Corpus.
Context (W D : list pystr).

Lemma filter_none {A} (P : A → Prop) `{∀ x, Decision (P x)} (l : list A) :
  Forall (λ x, ¬ P x) l → filter P l = [].
Proof.
  induction 1 as [|x l Hx _ IH]; [done|].
  by rewrite filter_cons, decide_False.
Qed.

Lemma fill_line_skip (DI : gmap pystr nat) (s : pystr) (M : lil_matrix) :
  ¬ counted W s → fill_line (enumerate_dict 0 W ∅) DI s M = Ok M.
Proof.
  intros Hs. unfold fill_line.
  rewrite filter_none; [done|].
  apply Forall_forall. intros t Ht Hin. apply Hs.
  apply Exists_exists. exists t. split; [done|].
  by apply enumerate_dict_elem_of.
Qed.

Lemma fill_line_KeyError (s : pystr) (M : lil_matrix) :
  counted W s → doc_id s ∉ D →
  fill_line (enumerate_dict 0 W ∅) (enumerate_dict 0 D ∅) s M
  = Raise KeyError.
Proof.
  intros (t & Ht & HtW)%Exists_exists Hid. unfold fill_line.
  set (l := filter (λ t, is_Some (enumerate_dict 0 W ∅ !! t))
              (tail (split_on SPACE (strip s)))).
  destruct (Counter_spec l) as (_ & Hkeys & _).
  assert (t ∈ l) as Htl.
  { apply list_elem_of_filter. split; [|done].
    by apply enumerate_dict_is_Some. }
  destruct (Counter l) as [|[k n] C] eqn:HC.
  { apply Hkeys in Htl. by apply elem_of_nil in Htl. }
  assert (k ∈ l) as Hk by (apply Hkeys; rewrite fmap_cons; left).
  apply list_elem_of_filter in Hk as [[r Hr] _].
  cbn [write_counts]. unfold getitem. rewrite Hr. cbn [mbind result_bind].
  pose proof (head_tokens s) as Hhead.
  destruct (split_on SPACE (strip s)) as [|sID T]; [done|].
  injection Hhead as ->. cbn [mbind result_bind].
  by rewrite enumerate_dict_notin, lookup_empty.
Qed.

Lemma fill_all_outcome (lines : list pystr) (M : lil_matrix) :
  shape M = (length W, length D) →
  (Forall (id_known W D) lines →
   ∃ M', fill_all (enumerate_dict 0 W ∅) (enumerate_dict 0 D ∅) lines M
         = Ok M' ∧ shape M' = shape M)
  ∧ (¬ Forall (id_known W D) lines →
     fill_all (enumerate_dict 0 W ∅) (enumerate_dict 0 D ∅) lines M
     = Raise KeyError).
Proof.
  revert M; induction lines as [|s lines IH]; intros M Hsh.
  { split; [by exists M|]. intros Hn. destruct Hn. constructor. }
  cbn [fill_all].
  destruct (decide (counted W s)) as [Hs|Hs].
  - destruct (decide (doc_id s ∈ D)) as [Hid|Hid].
    + destruct (enumerate_dict_is_Some 0 D ∅ (doc_id s) Hid) as [c Hc].
      destruct (fill_line_total (enumerate_dict 0 W ∅) (enumerate_dict 0 D ∅)
                  s M c) as (M1 & HM1 & Hsh1).
      { intros k r Hk. apply index_in_shape in Hk. by rewrite Hsh. }
      { done. }
      { apply index_in_shape in Hc. by rewrite Hsh. }
      rewrite HM1.
      cbn [mbind result_bind].
      destruct (IH M1) as [IHok IHbad]; [by rewrite Hsh1|]. split.
      * intros [_ Hok]%Forall_cons. destruct (IHok Hok) as (M' & -> & Hsh').
        exists M'. split; [done|]. by rewrite Hsh', Hsh1.
      * intros Hn. apply IHbad. intros Hok. apply Hn.
        constructor; [by intros _|done].
    + rewrite fill_line_KeyError by done. split; [|done].
      intros [Hk _]%Forall_cons. destruct Hid. by apply Hk.
  - rewrite fill_line_skip by done. cbn [mbind result_bind].
    destruct (IH M Hsh) as [IHok IHbad]. split.
    + intros [_ Hok]%Forall_cons. by apply IHok.
    + intros Hn. apply IHbad. intros Hok. apply Hn.
      constructor; [by intros ?|done].
Qed.

End counting_outcome.

(** X27.  For files that can all be opened and read to the end and whose
    first file holds a line, and a cap that is not negative, [build_matrix] returns -- a matrix with one row per
    word and one column per axis entry -- exactly when the ID of every
    processed line that holds a vocabulary word is on the axis, and
    raises [KeyError] otherwise; a line without vocabulary words is
    passed over, whatever its ID. *)
Theorem build_matrix_returns_iff_ids_known (files : list Indexer.file)
    (W D : list pystr) (cap : Z) :
  0 ≤ cap → Forall readable files → first_file_nonempty files →
  (Forall (id_known W D) (Corpus.processed_lines files cap) →
   ∃ M, MatrixBuilder.build_matrix files W D cap = Ok M
     ∧ MatrixBuilder.shape M = (length W, length D))
  ∧ (¬ Forall (id_known W D) (Corpus.processed_lines files cap) →
     MatrixBuilder.build_matrix files W D cap = Raise KeyError).
Proof.
  intros Hcap Hr Hne. unfold MatrixBuilder.build_matrix.
  rewrite fill_files_visited by (try done; by apply traversal_ok_readable).
  by apply fill_all_outcome.
Qed.

Lemma build_matrix_returns_iff_ids_known_witness :
  (Forall (id_known [str "foo"] [str "1"])
     (Corpus.processed_lines
        [Indexer.Lines [str "1 foo" ++ [LF]; str "2 bar" ++ [LF]]] 5) →
   ∃ M, MatrixBuilder.build_matrix
          [Indexer.Lines [str "1 foo" ++ [LF]; str "2 bar" ++ [LF]]]
          [str "foo"] [str "1"] 5 = Ok M
     ∧ MatrixBuilder.shape M = (length [str "foo"], length [str "1"]))
  ∧ (¬ Forall (id_known [str "foo"] [str "1"])
         (Corpus.processed_lines
            [Indexer.Lines [str "1 foo" ++ [LF]; str "2 bar" ++ [LF]]] 5) →
     MatrixBuilder.build_matrix
       [Indexer.Lines [str "1 foo" ++ [LF]; str "2 bar" ++ [LF]]]
       [str "foo"] [str "1"] 5 = Raise KeyError).
Proof.
  apply (build_matrix_returns_iff_ids_known
           [Indexer.Lines [str "1 foo" ++ [LF]; str "2 bar" ++ [LF]]]
           [str "foo"] [str "1"] 5).
  - lia.
  - repeat constructor.
  - done.
Defined.

(** ** The importer on an input of records *)

Section importer_input.
Import Importer.

Lemma skip_all_blank (bs : list pystr) :
  Forall blank bs → skip_empty_lines [] bs = None.
Proof.
  induction 1 as [|b bs [Hne Hb] _ IH]; [done|].
  cbn [skip_empty_lines]. destruct b as [|c b]; [done|]. by rewrite Hb.
Qed.

(** At the blank lines that end the input, the call returns [None]. *)
Lemma ProcessNextAbstract_end (st : streams) (iID : Z) :
  Forall blank (strIn st) →
  ProcessNextAbstract st iID = (None, set_unread [] st).
Proof.
  intros Hb. unfold ProcessNextAbstract, readline.
  destruct st as [unread out index err]. cbn [strIn] in *.
  destruct Hb as [|b bs [Hne Hb] Hbs]; [done|].
  destruct b as [|c b]; [done|]. cbn [strIn strOut strIndex stderr].
  by rewrite Hb, skip_all_blank.
Qed.

Lemma ProcessNextAbstract_group (st : streams) (iID : Z) (g : group)
    (rest : list pystr) :
  well_formed g → strIn st = group_lines g ++ rest →
  ProcessNextAbstract st iID
  = if decide (complete g)
    then (Some (iID + 1),
          {| strIn := rest;
             strOut := strOut st ++ [corpus_record (iID, g)];
             strIndex := strIndex st ++ [index_record (iID, g)];
             stderr := stderr st |})
    else (Some iID,
          {| strIn := rest; strOut := strOut st; strIndex := strIndex st;
             stderr := stderr st ++ [report g] |}).
Proof.
  intros [Hb Ht] Hin. unfold group_lines in Hin.
  rewrite <- app_assoc in Hin. cbn [app] in Hin.
  destruct (read_title (blanks g) (title g) (authors g :: text g :: rest)
              st Hb Ht Hin) as (l & unread & Hl & Hne & Hskip).
  unfold ProcessNextAbstract, readline at 1. rewrite Hl.
  destruct l as [|c l]; [done|]. cbn [strIn]. rewrite Hskip.
  unfold set_unread, readline. cbn [strIn strOut strIndex stderr].
  unfold corpus_record, index_record, report. cbn [fst snd].
  destruct (strip (title g)) as [|ct t]; [done|].
  destruct (decide (complete g)) as [[Ha Hx]|Hn].
  - destruct (strip (authors g)) as [|ca a]; [done|].
    by destruct (strip (text g)) as [|cx x].
  - unfold complete in Hn.
    destruct (strip (authors g)) as [|ca a]; [done|].
    destruct (strip (text g)) as [|cx x]; [done|].
    destruct Hn. by split.
Qed.

Lemma main_loop_groups (gs : list group) (trailing : list pystr) :
  Forall well_formed gs → Forall blank trailing →
  ∀ (fuel : nat) (iID : Z) (st : streams),
    1 ≤ iID → strIn st = (gs ≫= group_lines) ++ trailing →
    (length (strIn st) < fuel)%nat →
    main_loop fuel (Some iID) st
    = Some {| strIn := [];
              strOut := strOut st ++ (corpus_record <$> numbered iID gs);
              strIndex := strIndex st ++ (index_record <$> numbered iID gs);
              stderr := stderr st ++ (report <$> filter (λ g, ¬ complete g) gs)
           |}.
Proof.
  intros Hgs Htr. induction Hgs as [|g gs Hg Hgs IH];
    intros fuel iID st HiID Hin Hfuel.
  - cbn in Hin. destruct fuel as [|fuel]; [lia|].
    destruct iID as [|p|p]; [lia| |lia]. cbn [main_loop].
    rewrite ProcessNextAbstract_end by by rewrite Hin.
    destruct fuel; cbn; rewrite !app_nil_r; by destruct st.
  - rewrite bind_cons, <- app_assoc in Hin.
    destruct fuel as [|fuel]; [lia|].
    destruct iID as [|p|p]; [lia| |lia]. cbn [main_loop].
    rewrite (ProcessNextAbstract_group st (Z.pos p) g _ Hg Hin).
    assert (length ((gs ≫= group_lines) ++ trailing) < fuel)%nat as Hfuel'.
    { rewrite Hin, length_app in Hfuel. unfold group_lines in Hfuel at 1.
      rewrite length_app in Hfuel. cbn [length] in Hfuel. lia. }
    cbn [numbered]. rewrite filter_cons.
    destruct (decide (complete g)) as [Hc|Hc].
    + rewrite IH; [|lia|done|done].
      rewrite decide_False by tauto.
      cbn [strIn strOut strIndex stderr]. rewrite !fmap_cons.
      by rewrite <- !app_assoc.
    + rewrite IH; [|lia|done|done].
      rewrite decide_True by done.
      cbn [strIn strOut strIndex stderr]. rewrite !fmap_cons.
      by rewrite <- !app_assoc.
Qed.

End importer_input.

(** X28.  On an input made of records -- each with blank lines, a title
    that is not blank, an authors line and a text line -- followed by
    blank lines only, a run from a first ID of at least 1 reads the whole
    input, writes the complete records to the index and to the corpus in
    order under consecutive IDs from the first ID, and reports the
    incomplete ones in order. *)
Theorem importer_imports_all_records (gs : list group)
    (trailing : list pystr) (iID : Z) :
  1 ≤ iID → Forall well_formed gs → Forall blank trailing →
  Importer.main ((gs ≫= group_lines) ++ trailing) iID
  = Some {| Importer.strIn := [];
            Importer.strOut := corpus_record <$> numbered iID gs;
            Importer.strIndex := index_record <$> numbered iID gs;
            Importer.stderr := report <$> filter (λ g, ¬ complete g) gs |}.
Proof.
  intros HiID Hgs Htr.
  pose proof (main_loop_groups gs trailing Hgs Htr
                (S (length ((gs ≫= group_lines) ++ trailing))) iID
                {| Importer.strIn := (gs ≫= group_lines) ++ trailing;
                   Importer.strOut := []; Importer.strIndex := [];
                   Importer.stderr := [] |} HiID eq_refl) as Hloop.
  cbn [Importer.strIn Importer.strOut Importer.strIndex Importer.stderr app]
    in Hloop.
  rewrite <- Hloop by lia.
  unfold Importer.main. by destruct iID as [|p|p]; [lia| |lia].
Qed.

Lemma importer_imports_all_records_witness :
  Importer.main
    (([ {| blanks := []; title := str "Title one" ++ [LF]; authors := [LF];
           text := str "text one" ++ [LF] |};
        {| blanks := [[LF]; [LF]]; title := str "Title two" ++ [LF];
           authors := str "Cy" ++ [LF]; text := str "text  two" ++ [LF] |} ]
      ≫= group_lines) ++ [[LF]]) 43
  = Some {| Importer.strIn := [];
            Importer.strOut :=
              corpus_record <$> numbered 43
                [ {| blanks := []; title := str "Title one" ++ [LF];
                     authors := [LF]; text := str "text one" ++ [LF] |};
                  {| blanks := [[LF]; [LF]]; title := str "Title two" ++ [LF];
                     authors := str "Cy" ++ [LF];
                     text := str "text  two" ++ [LF] |} ];
            Importer.strIndex :=
              index_record <$> numbered 43
                [ {| blanks := []; title := str "Title one" ++ [LF];
                     authors := [LF]; text := str "text one" ++ [LF] |};
                  {| blanks := [[LF]; [LF]]; title := str "Title two" ++ [LF];
                     authors := str "Cy" ++ [LF];
                     text := str "text  two" ++ [LF] |} ];
            Importer.stderr :=
              report <$> filter (λ g, ¬ complete g)
                [ {| blanks := []; title := str "Title one" ++ [LF];
                     authors := [LF]; text := str "text one" ++ [LF] |};
                  {| blanks := [[LF]; [LF]]; title := str "Title two" ++ [LF];
                     authors := str "Cy" ++ [LF];
                     text := str "text  two" ++ [LF] |} ] |}.
Proof.
  apply (importer_imports_all_records
           [ {| blanks := []; title := str "Title one" ++ [LF]; authors := [LF];
                text := str "text one" ++ [LF] |};
             {| blanks := [[LF]; [LF]]; title := str "Title two" ++ [LF];
                authors := str "Cy" ++ [LF]; text := str "text  two" ++ [LF] |} ]
           [[LF]] 43).
  - lia.
  - repeat constructor; by vm_compute.
  - repeat constructor; by vm_compute.
Defined.

(** ** The importer on the input format of the specification *)

Section importer_format.
Import Importer.

(** One call on an input that starts with blank lines and a title: the two
    lines after the title are the authors and the text, the empty string
    standing for a line beyond the end of the file. *)
Lemma ProcessNextAbstract_read (st : streams) (iID : Z) (bs : list pystr)
    (sTitle : pystr) (rest : list pystr) :
  Forall blank bs → strip sTitle ≠ [] → strIn st = bs ++ sTitle :: rest →
  ProcessNextAbstract st iID
  = let sAuthors := strip (default [] (rest !! 0%nat)) in
    let sText := strip (default [] (rest !! 1%nat)) in
    if decide (sAuthors ≠ [] ∧ sText ≠ [])
    then (Some (iID + 1),
          {| strIn := drop 2 rest;
             strOut := strOut st ++ [(iID, join [SPACE] (split_ws sText))];
             strIndex := strIndex st ++ [(iID, sAuthors, strip sTitle)];
             stderr := stderr st |})
    else (Some iID,
          {| strIn := drop 2 rest; strOut := strOut st;
             strIndex := strIndex st;
             stderr := stderr st ++ [(sAuthors, strip sTitle, sText)] |}).
Proof.
  intros Hb Ht Hin.
  destruct (read_title bs sTitle rest st Hb Ht Hin)
    as (l & unread & Hl & Hne & Hskip).
  unfold ProcessNextAbstract, readline at 1. rewrite Hl.
  destruct l as [|c l]; [done|]. cbn [strIn]. rewrite Hskip.
  unfold set_unread, readline. cbn [strIn strOut strIndex stderr].
  destruct (strip sTitle) as [|ct t]; [done|].
  destruct rest as [|a [|x rest]];
    cbn [strIn strOut strIndex stderr lookup list_lookup default from_option
         id drop].
  - by rewrite decide_False by (intros [? _]; done).
  - rewrite decide_False by (intros [_ ?]; done).
    by destruct (strip a).
  - destruct (strip a) as [|ca sa].
    + by rewrite decide_False by (intros [? _]; done).
    + destruct (strip x) as [|cx sx].
      * by rewrite decide_False by (intros [_ ?]; done).
      * by rewrite decide_True by done.
Qed.

Lemma blank_strip (l : pystr) : blank l → strip l = [].
Proof. by intros [_ ?]. Qed.

(** Blank lines, or the end of the file, where a field is read. *)
Lemma strip_blank_or_end (bs : list pystr) (i : nat) :
  Forall blank bs → strip (default [] (bs !! i)) = [].
Proof.
  intros Hb. destruct (bs !! i) as [l|] eqn:Hl; [|done].
  apply blank_strip. by eapply Forall_lookup_1.
Qed.

(** One call on a record of the format, after blank lines: a valid
    record is written under the current ID; any other record is reported
    and the ID is kept, its first lines that are blank being skipped and as
    many of the lines after the record being read instead. *)
Lemma ProcessNextAbstract_entry (st : streams) (iID : Z) (pend : list pystr)
    (e : entry) (rest : list pystr) :
  Forall blank pend → entry_ok e →
  rest = [] ∨ (late e ≤ length (gap e))%nat →
  strIn st = pend ++ entry_lines e ++ rest →
  ProcessNextAbstract st iID
  = if decide (valid_record e)
    then (Some (iID + 1),
          {| strIn := drop (late e) (gap e) ++ rest;
             strOut := strOut st ++ [spec_corpus_record (iID, e)];
             strIndex := strIndex st ++ [spec_index_record (iID, e)];
             stderr := stderr st |})
    else (Some iID,
          {| strIn := drop (late e) (gap e) ++ rest; strOut := strOut st;
             strIndex := strIndex st;
             stderr := stderr st ++ [reported e] |}).
Proof.
  intros Hpend (Ht & Ha & Hx & Hsome & Hgap) Hstep Hin.
  unfold entry_lines in Hin. cbn [app] in Hin.
  unfold late, reported, valid_record, spec_corpus_record, spec_index_record
    in *. cbn [fst snd].
  destruct (decide (strip (entry_title e) ≠ [])) as [Hst|Hst].
  - rewrite (ProcessNextAbstract_read st iID pend (entry_title e)
               (entry_authors e :: entry_text e :: gap e ++ rest)) by done.
    cbn [lookup list_lookup default from_option id drop].
    destruct (decide (strip (entry_authors e) ≠ [] ∧ strip (entry_text e) ≠ []))
      as [Hax|Hax].
    + by rewrite decide_True by tauto.
    + by rewrite decide_False by tauto.
  - apply dec_stable in Hst.
    rewrite (decide_False (P := _ ∧ _ ∧ _)) by tauto.
    destruct (decide (strip (entry_authors e) ≠ [])) as [Hsa|Hsa].
    + assert (strip (default [] ((gap e ++ rest) !! 0%nat)) = []
              ∧ drop 1 (gap e ++ rest) = drop 1 (gap e) ++ rest)
        as [Hfirst Hdrop].
      { destruct Hstep as [->|Hlen].
        - rewrite !app_nil_r. by rewrite strip_blank_or_end.
        - destruct (gap e) as [|g gs]; [cbn in Hlen; lia|].
          apply Forall_cons in Hgap as [Hg _]. split; [|done].
          by apply blank_strip. }
      rewrite (ProcessNextAbstract_read st iID (pend ++ [entry_title e])
                 (entry_authors e) (entry_text e :: gap e ++ rest)).
      * change ((entry_text e :: gap e ++ rest) !! 0%nat)
          with (Some (entry_text e)).
        change ((entry_text e :: gap e ++ rest) !! 1%nat)
          with ((gap e ++ rest) !! 0%nat).
        change (drop 2 (entry_text e :: gap e ++ rest))
          with (drop 1 (gap e ++ rest)).
        cbv zeta. rewrite Hfirst, Hdrop.
        by rewrite decide_False by (intros [_ ?]; done).
      * apply Forall_app. split; [done|]. by repeat constructor.
      * done.
      * by rewrite <- app_assoc.
    + apply dec_stable in Hsa.
      assert (strip (entry_text e) ≠ []) as Hsx by tauto.
      assert (strip (default [] ((gap e ++ rest) !! 0%nat)) = []
              ∧ strip (default [] ((gap e ++ rest) !! 1%nat)) = []
              ∧ drop 2 (gap e ++ rest) = drop 2 (gap e) ++ rest)
        as (Hfirst & Hsecond & Hdrop).
      { destruct Hstep as [->|Hlen].
        - rewrite !app_nil_r. by rewrite !strip_blank_or_end.
        - destruct (gap e) as [|g1 [|g2 gs]]; [cbn in Hlen; lia..|].
          apply Forall_cons in Hgap as [Hg1 Hgap].
          apply Forall_cons in Hgap as [Hg2 _].
          split; [by apply blank_strip|]. split; [by apply blank_strip|done]. }
      rewrite (ProcessNextAbstract_read st iID
                 (pend ++ [entry_title e; entry_authors e])
                 (entry_text e) (gap e ++ rest)).
      * cbv zeta. rewrite Hfirst, Hsecond, Hdrop.
        by rewrite decide_False by (intros [? _]; done).
      * apply Forall_app. split; [done|]. by repeat constructor.
      * done.
      * by rewrite <- app_assoc.
Qed.

(** A record that is not the last is followed by the blank lines that are
    read in its place. *)
Fixpoint in_step (es : list entry) : Prop :=
  match es with
  | [] => True
  | e :: es' => (es' = [] ∨ (late e ≤ length (gap e))%nat) ∧ in_step es'
  end.

Lemma format_in_step (es : list entry) :
  separated es → doubly_blank_spaced es → in_step es.
Proof.
  induction es as [|e es IH]; [done|]. cbn [separated doubly_blank_spaced].
  intros [Hsep Hseps] [Hdb Hdbs]. split; [|by apply IH].
  destruct Hsep as [->|Hgap]; [by left|].
  destruct Hdb as [->|Hdb]; [by left|]. right. unfold late.
  destruct (decide (strip (entry_title e) ≠ [])); [lia|].
  destruct (decide (strip (entry_authors e) ≠ [])).
  - destruct (gap e); [done|cbn; lia].
  - destruct Hdb as [?|[?|?]]; done.
Qed.

(** The loop on an input of the format. *)
Lemma main_loop_entries (es : list entry) :
  Forall entry_ok es → in_step es →
  ∀ (pend : list pystr) (fuel : nat) (iID : Z) (st : streams),
    Forall blank pend → 1 ≤ iID →
    strIn st = pend ++ (es ≫= entry_lines) →
    (length (strIn st) < fuel)%nat →
    main_loop fuel (Some iID) st
    = Some {| strIn := [];
              strOut := strOut st ++ (spec_corpus_record <$> spec_numbered iID es);
              strIndex :=
                strIndex st ++ (spec_index_record <$> spec_numbered iID es);
              stderr :=
                stderr st ++ (reported <$> filter (λ e, ¬ valid_record e) es) |}.
Proof.
  intros Hes. induction Hes as [|e es He Hes IH];
    intros Hstep pend fuel iID st Hpend HiID Hin Hfuel.
  - cbn in Hin. rewrite app_nil_r in Hin.
    destruct fuel as [|fuel]; [lia|].
    destruct iID as [|p|p]; [lia| |lia]. cbn [main_loop].
    rewrite ProcessNextAbstract_end by by rewrite Hin.
    destruct fuel; cbn; rewrite !app_nil_r; by destruct st.
  - destruct Hstep as [Hlate Hstep].
    rewrite bind_cons in Hin.
    destruct fuel as [|fuel]; [lia|].
    destruct iID as [|p|p]; [lia| |lia]. cbn [main_loop].
    rewrite (ProcessNextAbstract_entry st (Z.pos p) pend e
               (es ≫= entry_lines) Hpend He); [| |done].
    2:{ destruct Hlate as [->|Hlate]; [by left|by right]. }
    assert (length (drop (late e) (gap e) ++ (es ≫= entry_lines)) < fuel)%nat
      as Hfuel'.
    { rewrite Hin, !length_app in Hfuel. rewrite length_app, length_drop.
      unfold entry_lines in Hfuel at 1. rewrite length_app in Hfuel.
      cbn [length] in Hfuel. lia. }
    assert (Forall blank (drop (late e) (gap e))) as Hpend'.
    { apply Forall_drop. by destruct He as (_ & _ & _ & _ & ?). }
    cbn [spec_numbered]. rewrite filter_cons.
    destruct (decide (valid_record e)) as [Hv|Hv].
    + rewrite (IH Hstep (drop (late e) (gap e))); [|done|lia|done|done].
      rewrite decide_False by tauto.
      cbn [strIn strOut strIndex stderr]. rewrite !fmap_cons.
      by rewrite <- !app_assoc.
    + rewrite (IH Hstep (drop (late e) (gap e))); [|done|lia|done|done].
      rewrite decide_True by done.
      cbn [strIn strOut strIndex stderr]. rewrite !fmap_cons.
      by rewrite <- !app_assoc.
Qed.

(** The last of increasing IDs is the largest. *)
Lemma max_of_increasing (ids : list Z) (n : Z) :
  Forall (λ k, 0 ≤ k) (ids ++ [n]) → StronglySorted Z.lt (ids ++ [n]) →
  foldr Z.max 0 (ids ++ [n]) = n.
Proof.
  induction ids as [|a ids IH]; cbn [app foldr].
  - intros [Hn _]%Forall_cons _. lia.
  - intros [Ha Hpos]%Forall_cons [Hsorted Hlt]%StronglySorted_inv.
    rewrite IH by done.
    rewrite Forall_app, Forall_singleton in Hlt. lia.
Qed.

Lemma initial_id_of_index `{Builtins}
    (index : option (list (Z * pystr * pystr))) :
  (∀ n, 0 ≤ n → py_int (format_int n) = Some n) →
  from_option index_in_order True index →
  initial_id (index_file index) = Ok (spec_first_id index).
Proof.
  intros Hint Hindex. destruct index as [records|]; [|done].
  cbn [index_file spec_first_id initial_id from_option] in *.
  rewrite fmap_last.
  destruct (last records) as [r|] eqn:Hlast.
  - apply last_Some in Hlast as [pre ->].
    destruct Hindex as [Hpos Hsorted]. unfold max_id.
    rewrite !fmap_app in *. cbn [fmap list_fmap] in *.
    rewrite max_of_increasing by done.
    cbn [fmap option_fmap option_map default from_option id].
    unfold index_record_line. cbn [app].
    assert (0 ≤ r.1.1) as Hr.
    { apply Forall_app in Hpos as [_ Hr].
      by apply Forall_cons in Hr as [Hr _]. }
    rewrite split_on_first.
    + by rewrite Hint.
    + apply separator_not_in_digits; [by right|]. by apply format_int_digits.
  - apply last_None in Hlast as ->.
    cbn [fmap option_fmap option_map default from_option id].
    change (str "0") with (format_int 0).
    rewrite split_on_no_sep.
    + by rewrite Hint.
    + apply separator_not_in_digits; [by right|]. by apply format_int_digits.
Qed.

End importer_format.

(** C8 (amended).  On an input of three-line records separated by runs of
    blank lines, blank lines before the first allowed, in which a record
    whose title and authors are both blank is followed by two blank lines
    at least unless it is the last, and with an index file that does not
    exist or holds records with IDs that are not negative and increase
    ([int] reading back what ["%i"] writes): the first ID is 1 when no
    index file exists and else one more than the largest ID of the index;
    the run reads the whole input and writes the valid records -- title,
    authors and text not empty -- to the index and to the corpus in order
    under consecutive IDs from the first ID; and every other record is
    reported and dropped without consuming an ID, so that the next valid
    record gets the ID it would have got. *)
Theorem importer_assigns_ids `{Builtins}
    (index : option (list (Z * pystr * pystr))) (lead : list pystr)
    (es : list entry) :
  (∀ n, 0 ≤ n → py_int (format_int n) = Some n) →
  from_option index_in_order True index →
  Forall blank lead → record_format es → doubly_blank_spaced es →
  Importer.initial_id (index_file index) = Ok (spec_first_id index)
  ∧ Importer.main (lead ++ (es ≫= entry_lines)) (spec_first_id index)
    = Some {| Importer.strIn := [];
              Importer.strOut :=
                spec_corpus_record <$> spec_numbered (spec_first_id index) es;
              Importer.strIndex :=
                spec_index_record <$> spec_numbered (spec_first_id index) es;
              Importer.stderr :=
                reported <$> filter (λ e, ¬ valid_record e) es |}.
Proof.
  intros Hint Hindex Hlead [Hes Hsep] Hdb.
  split; [by apply initial_id_of_index|].
  assert (1 ≤ spec_first_id index) as Hfirst.
  { destruct index as [records|]; [|done]. cbn [spec_first_id].
    unfold max_id. generalize (records.*1.*1). intros ids.
    assert (0 ≤ foldr Z.max 0 ids); [|lia].
    induction ids; cbn [foldr]; lia. }
  pose proof (main_loop_entries es Hes (format_in_step es Hsep Hdb) lead
                (S (length (lead ++ (es ≫= entry_lines))))
                (spec_first_id index)
                {| Importer.strIn := lead ++ (es ≫= entry_lines);
                   Importer.strOut := []; Importer.strIndex := [];
                   Importer.stderr := [] |} Hlead Hfirst eq_refl) as Hloop.
  cbn [Importer.strIn Importer.strOut Importer.strIndex Importer.stderr app]
    in Hloop.
  rewrite <- Hloop by lia.
  unfold Importer.main.
  by destruct (spec_first_id index) as [|p|p]; [lia| |lia].
Qed.


Lemma importer_assigns_ids_witness :
  let index :=
    Some [(41, str "Ann", str "First"); (42, str "Bob", str "Second")] in
  let es :=
    [ {| entry_title := str "Title one" ++ [LF]; entry_authors := [LF];
         entry_text := str "text one" ++ [LF]; gap := [[LF]; [LF]] |};
      {| entry_title := [LF]; entry_authors := str "Ed" ++ [LF];
         entry_text := str "text" ++ [LF]; gap := [[LF]] |};
      {| entry_title := str "Title two" ++ [LF];
         entry_authors := str "Cy" ++ [LF];
         entry_text := str "text  two" ++ [LF]; gap := [] |} ] in
  Importer.initial_id (H := ascii_builtins) (index_file index)
  = Ok (spec_first_id index)
  ∧ Importer.main ([[LF]] ++ (es ≫= entry_lines)) (spec_first_id index)
    = Some {| Importer.strIn := [];
              Importer.strOut :=
                spec_corpus_record <$> spec_numbered (spec_first_id index) es;
              Importer.strIndex :=
                spec_index_record <$> spec_numbered (spec_first_id index) es;
              Importer.stderr :=
                reported <$> filter (λ e, ¬ valid_record e) es |}.
Proof.
  intros index es.
  apply (importer_assigns_ids (H := ascii_builtins) index [[LF]] es).
  - exact int_of_format_int.
  - unfold index_in_order. apply (bool_decide_unpack _). by vm_compute.
  - by repeat constructor.
  - split; [|cbn; auto]. apply (bool_decide_unpack _). by vm_compute.
  - cbn. auto 10.
Defined.

(** The run of the witness: the index ends with ID 42; the record with a
    blank authors line and the record with a blank title are reported and
    dropped; the valid record gets ID 43. *)
Example importer_run :
  Importer.initial_id (H := ascii_builtins)
    (Some [index_line "41" "Ann" "First"; index_line "42" "Bob" "Second"])
  = Ok 43
  ∧ Importer.main
      [[LF]; str "Title one" ++ [LF]; [LF]; str "text one" ++ [LF]; [LF]; [LF];
       [LF]; str "Ed" ++ [LF]; str "text" ++ [LF]; [LF];
       str "Title two" ++ [LF]; str "Cy" ++ [LF]; str "text  two" ++ [LF]] 43
    = Some {| Importer.strIn := [];
              Importer.strOut := [(43, str "text two")];
              Importer.strIndex := [(43, str "Cy", str "Title two")];
              Importer.stderr :=
                [([], str "Title one", str "text one");
                 (str "text", str "Ed", [])] |}.
Proof. split; reflexivity. Qed.

(** C8 as stated fails for a record whose title and authors are both
    blank when a single blank line separates it from the next record: its
    text is read as a title, the blank line as its authors and the title
    of the next record as its text, so that the next record is read from
    its second line on.  Both are reported and the valid record, which the
    specification gives ID 43, is never written. *)
Lemma blank_title_and_authors_lose_next_record :
  let es :=
    [ {| entry_title := [LF]; entry_authors := [LF];
         entry_text := str "Text one" ++ [LF]; gap := [[LF]] |};
      {| entry_title := str "Title two" ++ [LF];
         entry_authors := str "Cy" ++ [LF];
         entry_text := str "text two" ++ [LF]; gap := [] |} ] in
  record_format es
  ∧ spec_index_record <$> spec_numbered 43 es
    = [(43, str "Cy", str "Title two")]
  ∧ Importer.main (es ≫= entry_lines) 43
    = Some {| Importer.strIn := []; Importer.strOut := [];
              Importer.strIndex := [];
              Importer.stderr :=
                [([], str "Text one", str "Title two");
                 (str "text two", str "Cy", [])] |}.
Proof.
  intros es. split; [|split; reflexivity].
  split; [|cbn; auto]. apply (bool_decide_unpack _). by vm_compute.
Qed.
